(** * HISE documentation index: the data loader

    A shallow embedding of the class [HISEDataLoader] of src/index.ts:
    query normalisation, keyword extraction, index construction, the
    snapshot cache, the four-stage [search], [findSimilar],
    [calculateSimilarity] and [getRelatedItems].

    Conventions of the embedding.
    - A JavaScript string is a [string]: a sequence of code units, here the
      code units U+0000 .. U+00FF (one [ascii] each).  [toLowerCase],
      [trim] and the regular expressions below are the JavaScript ones
      restricted to that range.
    - A JavaScript [Map] that is only read with [get] is a [gmap]; a [Map]
      or [Set] that the code iterates is a list in insertion order; the
      [seen] set, only tested for membership, is a [gset].
    - A score is an exact rational ([Q]); the decimal literals of the source
      denote their decimal values.
    - [limit] is an integer ([Z]); [slice] follows Array.prototype.slice,
      negative ends included.  Default parameter values are left to the
      callers.
    - The fields of the loader are an explicit state ([Loader]), the data
      directory an explicit environment ([Env]); a method that changes the
      loader returns the new one.
    - An exception is an explicit outcome ([Throws]); a rejected promise of
      an [async] method is one.
    - Record fields keep their names of the source; where two records have
      a field of the same name, a prefix tells them apart ([item_id],
      [res_id], [snip_id]). *)

From Stdlib Require Import Ascii QArith Qminmax.
From stdpp Require Import gmap strings list fin_maps.

Open Scope Z_scope.

(** ** JavaScript strings *)

Module JsString.

Definition code (c : ascii) : N := N_of_ascii c.

(** LineTerminator code units below U+0100: LF and CR. *)
Definition isLineTerminator (c : ascii) : bool :=
  (code c =? 10)%N || (code c =? 13)%N.

(** WhiteSpace and LineTerminator code units below U+0100, the ones
    [String.prototype.trim] removes: TAB, LF, VT, FF, CR, SP, NBSP. *)
Definition isWhiteSpace (c : ascii) : bool :=
  ((9 <=? code c) && (code c <=? 13))%N || (code c =? 32)%N || (code c =? 160)%N.

(** Upper-case letters below U+0100: A-Z, and U+00C0 .. U+00DE without
    the multiplication sign U+00D7. *)
Definition isUpper (c : ascii) : bool :=
  ((65 <=? code c) && (code c <=? 90))%N
  || ((192 <=? code c) && (code c <=? 214))%N
  || ((216 <=? code c) && (code c <=? 222))%N.

(** Lower-case letters below U+0100 whose upper case is below U+0100 too:
    a-z, and U+00E0 .. U+00FE without the division sign U+00F7. *)
Definition isLower (c : ascii) : bool :=
  ((97 <=? code c) && (code c <=? 122))%N
  || ((224 <=? code c) && (code c <=? 246))%N
  || ((248 <=? code c) && (code c <=? 254))%N.

Definition toLowerChar (c : ascii) : ascii :=
  if isUpper c then ascii_of_N (code c + 32) else c.

Definition toUpperChar (c : ascii) : ascii :=
  if isLower c then ascii_of_N (code c - 32) else c.

Fixpoint toLowerCase (s : string) : string :=
  match s with
  | EmptyString => EmptyString
  | String c t => String (toLowerChar c) (toLowerCase t)
  end.

Fixpoint trimStart (s : string) : string :=
  match s with
  | EmptyString => EmptyString
  | String c t => if isWhiteSpace c then trimStart t else s
  end.

Fixpoint trimEnd (s : string) : string :=
  match s with
  | EmptyString => EmptyString
  | String c t =>
      match trimEnd t with
      | EmptyString => if isWhiteSpace c then EmptyString else String c EmptyString
      | t' => String c t'
      end
  end.

Definition trim (s : string) : string := trimEnd (trimStart s).

(** [s.startsWith(p)] *)
Fixpoint startsWith (s p : string) : bool :=
  match p, s with
  | EmptyString, _ => true
  | String _ _, EmptyString => false
  | String b p', String a s' => Ascii.eqb a b && startsWith s' p'
  end.

(** [s.includes(p)] *)
Fixpoint includes (s p : string) : bool :=
  startsWith s p ||
  match s with
  | EmptyString => false
  | String _ t => includes t p
  end.

(** [s.split(sep)] for a one-character separator; never the empty list. *)
Fixpoint split (sep : ascii) (s : string) : list string :=
  match s with
  | EmptyString => [EmptyString]
  | String c t =>
      if Ascii.eqb c sep then EmptyString :: split sep t
      else match split sep t with
           | [] => [String c EmptyString]
           | w :: ws => String c w :: ws
           end
  end.

(** [s.replace(/\*/g, by)] : every occurrence of one character. *)
Fixpoint replaceAllChar (c : ascii) (by_ : string) (s : string) : string :=
  match s with
  | EmptyString => EmptyString
  | String a t =>
      if Ascii.eqb a c then by_ +:+ replaceAllChar c by_ t
      else String a (replaceAllChar c by_ t)
  end.

(** The last code unit of [s] is white space ([false] on the empty string). *)
Fixpoint endsWithWhiteSpace (s : string) : bool :=
  match s with
  | EmptyString => false
  | String c EmptyString => isWhiteSpace c
  | String _ t => endsWithWhiteSpace t
  end.

(** [a-z0-9], the character class of the tokenizer. *)
Definition isAlnumLower (c : ascii) : bool :=
  ((97 <=? code c) && (code c <=? 122))%N || ((48 <=? code c) && (code c <=? 57))%N.

(** [s.match(/[a-z0-9]+/g) || []] : the maximal runs of [a-z0-9], left to
    right.  [cur] is the run being read, reversed. *)
Fixpoint matchAlnumRuns (cur : string) (s : string) : list string :=
  match s with
  | EmptyString =>
      match cur with EmptyString => [] | _ => [String.rev cur] end
  | String c t =>
      if isAlnumLower c then matchAlnumRuns (String c cur) t
      else match cur with
           | EmptyString => matchAlnumRuns EmptyString t
           | _ => String.rev cur :: matchAlnumRuns EmptyString t
           end
  end.

End JsString.
Import JsString.

(** ** Regular expressions

    [new RegExp(pattern, 'i')] and [RegExp.prototype.test] for a fragment
    of the pattern syntax (ECMAScript, Annex B, no flag [u]): literal
    characters, [.], identity escapes of punctuation, character classes
    with ranges, capturing groups, alternation, [^] and [$], and the
    quantifiers [*], [+], [?] with their lazy forms.  A pattern that uses
    anything else (a brace, [(?], an escape that is not a punctuation
    character) is [Unmodelled]: the embedding says nothing about it.  Only
    [test] is modelled, so a regular expression denotes a set of strings and
    greedy and lazy quantifiers coincide. *)

Module JsRegExp.

Inductive regex : Type :=
| REmpty
| RChar (c : ascii)
| RAny
| RClass (invert : bool) (ranges : list (ascii * ascii))
| RBol
| REol
| RSeq (r1 r2 : regex)
| RAlt (r1 r2 : regex)
| RStar (r : regex).

Inductive token : Type :=
| TAtom (r : regex)
| TAssert (r : regex)
| TStar | TPlus | TQuest
| TOpen | TClose | TBar.

(** What the constructor does with a pattern. *)
Inductive compiled (A : Type) : Type :=
| Compiled (a : A)
| SyntaxError
| Unmodelled.
Arguments Compiled {A} a.
Arguments SyntaxError {A}.
Arguments Unmodelled {A}.

Definition consToken (t : token) (r : compiled (list token)) : compiled (list token) :=
  match r with
  | Compiled ts => Compiled (t :: ts)
  | SyntaxError => SyntaxError
  | Unmodelled => Unmodelled
  end.

(** The punctuation characters whose escape [\c] denotes [c] itself. *)
Definition isIdentityEscape (c : ascii) : bool :=
  includes "^$\.*+?()[]{}|/-" (String c EmptyString).

(** ClassRanges over the atoms of a class; an atom carries whether it was
    written with a backslash (an escaped [-] never makes a range).
    [None]: a range out of order. *)
Fixpoint classRanges (atoms : list (bool * ascii)) : option (list (ascii * ascii)) :=
  match atoms with
  | [] => Some []
  | (_, lo) :: (false, "-"%char) :: (_, hi) :: rest =>
      if (code lo <=? code hi)%N
      then option_map (cons (lo, hi)) (classRanges rest)
      else None
  | (_, c) :: rest => option_map (cons (c, c)) (classRanges rest)
  end.

(** The scanner.  [cls] is [Some (invert, atoms read so far, latest
    first)] inside a character class. *)
Fixpoint tokenize (cls : option (bool * list (bool * ascii))) (s : string)
  : compiled (list token) :=
  match cls with
  | None =>
      match s with
      | EmptyString => Compiled []
      | String "\" EmptyString => SyntaxError
      | String "\" (String c t) =>
          if isIdentityEscape c then consToken (TAtom (RChar c)) (tokenize None t)
          else Unmodelled
      | String "[" (String "^" t) => tokenize (Some (true, [])) t
      | String "[" t => tokenize (Some (false, [])) t
      | String "(" (String "?" _) => Unmodelled
      | String "(" t => consToken TOpen (tokenize None t)
      | String ")" t => consToken TClose (tokenize None t)
      | String "|" t => consToken TBar (tokenize None t)
      | String "*" t => consToken TStar (tokenize None t)
      | String "+" t => consToken TPlus (tokenize None t)
      | String "?" t => consToken TQuest (tokenize None t)
      | String "." t => consToken (TAtom RAny) (tokenize None t)
      | String "^" t => consToken (TAssert RBol) (tokenize None t)
      | String "$" t => consToken (TAssert REol) (tokenize None t)
      | String "{" _ => Unmodelled
      | String c t => consToken (TAtom (RChar c)) (tokenize None t)
      end
  | Some (invert, atoms) =>
      match s with
      | EmptyString => SyntaxError
      | String "\" EmptyString => SyntaxError
      | String "\" (String c t) =>
          if isIdentityEscape c then tokenize (Some (invert, (true, c) :: atoms)) t
          else Unmodelled
      | String "]" t =>
          match classRanges (rev atoms) with
          | Some ranges => consToken (TAtom (RClass invert ranges)) (tokenize None t)
          | None => SyntaxError
          end
      | String c t => tokenize (Some (invert, (false, c) :: atoms)) t
      end
  end.

(** The parser: a stack of open groups; each frame holds the finished
    alternatives and the terms of the current one, latest first. *)
Record frame : Type := Frame { alts : list regex; terms : list regex }.

Inductive qstate : Type :=
| QNone    (* nothing to repeat *)
| QAtom    (* an atom was just read *)
| QQuant.  (* a quantifier was just read: [?] makes it lazy *)

Definition seqOf (ts : list regex) : regex :=
  fold_left (fun acc r => RSeq r acc) ts REmpty.

Definition closeFrame (f : frame) : regex :=
  fold_left (fun acc a => RAlt a acc) (alts f) (seqOf (terms f)).

Definition pushTerm (r : regex) (f : frame) : frame :=
  Frame (alts f) (r :: terms f).

Definition quantify (q : regex → regex) (f : frame) : option frame :=
  match terms f with
  | h :: tl => Some (Frame (alts f) (q h :: tl))
  | [] => None
  end.

Fixpoint parse (ts : list token) (stack : list frame) (cur : frame) (q : qstate)
  : compiled regex :=
  match ts with
  | [] => match stack with [] => Compiled (closeFrame cur) | _ => SyntaxError end
  | TAtom r :: ts' => parse ts' stack (pushTerm r cur) QAtom
  | TAssert r :: ts' => parse ts' stack (pushTerm r cur) QNone
  | TStar :: ts' =>
      match q, quantify RStar cur with
      | QAtom, Some cur' => parse ts' stack cur' QQuant
      | _, _ => SyntaxError
      end
  | TPlus :: ts' =>
      match q, quantify (fun r => RSeq r (RStar r)) cur with
      | QAtom, Some cur' => parse ts' stack cur' QQuant
      | _, _ => SyntaxError
      end
  | TQuest :: ts' =>
      match q with
      | QAtom =>
          match quantify (fun r => RAlt r REmpty) cur with
          | Some cur' => parse ts' stack cur' QQuant
          | None => SyntaxError
          end
      | QQuant => parse ts' stack cur QNone
      | QNone => SyntaxError
      end
  | TOpen :: ts' => parse ts' (cur :: stack) (Frame [] []) QNone
  | TClose :: ts' =>
      match stack with
      | [] => SyntaxError
      | parent :: stack' => parse ts' stack' (pushTerm (closeFrame cur) parent) QAtom
      end
  | TBar :: ts' => parse ts' stack (Frame (seqOf (terms cur) :: alts cur) []) QNone
  end.

(** [new RegExp(pattern, 'i')] *)
Definition RegExp (pattern : string) : compiled regex :=
  match tokenize None pattern with
  | Compiled ts => parse ts [] (Frame [] []) QNone
  | SyntaxError => SyntaxError
  | Unmodelled => Unmodelled
  end.

(** Canonicalize of flag [i]: two code units below U+0100 are equal up to
    case when their upper cases are. *)
Definition sameCanonical (a b : ascii) : bool :=
  Ascii.eqb (toUpperChar a) (toUpperChar b).

Definition inRange (c : ascii) (r : ascii * ascii) : bool :=
  ((code (fst r) <=? code c) && (code c <=? code (snd r)))%N.

(** Some member of the class is equal to [c] up to case. *)
Definition inClass (ranges : list (ascii * ascii)) (c : ascii) : bool :=
  existsb (fun r => inRange c r || inRange (toLowerChar c) r || inRange (toUpperChar c) r)
          ranges.

(** A position in the subject: whether it is index 0, and what is left. *)
Definition pos : Type := bool * string.

Definition oneChar (ok : ascii → bool) (p : pos) : list pos :=
  match snd p with
  | String c t => if ok c then [(false, t)] else []
  | EmptyString => []
  end.

Definition shorter (p q : pos) : bool :=
  (String.length (snd q) <? String.length (snd p))%nat.

(** Iterations of [step] from [p]; an iteration has to consume input, so
    [n] at least the length of what is left is enough. *)
Fixpoint star (step : pos → list pos) (n : nat) (p : pos) : list pos :=
  p :: match n with
       | O => []
       | S n' => List.filter (shorter p) (step p) ≫= star step n'
       end.

(** The positions where a match of [r] that starts at [p] can end. *)
Fixpoint rmatch (r : regex) (p : pos) : list pos :=
  match r with
  | REmpty => [p]
  | RChar c => oneChar (sameCanonical c) p
  | RAny => oneChar (fun c => negb (isLineTerminator c)) p
  | RClass invert ranges => oneChar (fun c => xorb invert (inClass ranges c)) p
  | RBol => if fst p then [p] else []
  | REol => match snd p with EmptyString => [p] | _ => [] end
  | RSeq r1 r2 => rmatch r1 p ≫= rmatch r2
  | RAlt r1 r2 => rmatch r1 p ++ rmatch r2 p
  | RStar r' => star (rmatch r') (String.length (snd p)) p
  end.

Definition matchesAt (r : regex) (p : pos) : bool :=
  match rmatch r p with [] => false | _ => true end.

(** Some start position after the first code unit of [s]. *)
Fixpoint matchesLater (r : regex) (s : string) : bool :=
  match s with
  | EmptyString => false
  | String _ t => matchesAt r (false, t) || matchesLater r t
  end.

(** [regex.test(s)] : a match that starts anywhere in [s]. *)
Definition test (r : regex) (s : string) : bool :=
  matchesAt r (true, s) || matchesLater r s.

End JsRegExp.
Import JsRegExp.

(** ** Data model (src/types.ts)

    The payload fields that the loader never reads (default values,
    possible values, numeric bounds, parameter lists, examples) are left
    out of the records. *)

Inductive SearchDomain : Type := D_all | D_api | D_ui | D_modules | D_snippets.

Inductive MatchType : Type := M_exact | M_prefix | M_keyword | M_fuzzy.

Global Instance SearchDomain_eq_dec : EqDecision SearchDomain.
Proof. solve_decision. Defined.

Global Instance MatchType_eq_dec : EqDecision MatchType.
Proof. solve_decision. Defined.

Record UIComponentProperty : Type := {
  ui_id : string;
  componentType : string;
  propertyName : string;
  propertyType : string;
  ui_description : string
}.

Record ScriptingAPIMethod : Type := {
  api_id : string;
  namespace : string;
  methodName : string;
  returnType : string;
  api_description : string
}.

Record ModuleParameter : Type := {
  mod_id : string;
  moduleType : string;
  parameterId : string;
  parameterName : string;
  mod_description : string
}.

Record CodeSnippet : Type := {
  snip_id : string;
  title : string;
  snip_description : string;
  category : string;
  tags : list string;
  code : string;
  relatedAPIs : list string;
  relatedComponents : list string;
  difficulty : string
}.

Record HISEData : Type := {
  uiComponentProperties : list UIComponentProperty;
  scriptingAPI : list ScriptingAPIMethod;
  moduleParameters : list ModuleParameter;
  codeSnippets : list CodeSnippet
}.

Record SearchResult : Type := {
  res_id : string;
  res_domain : SearchDomain;
  res_name : string;
  res_description : string;
  score : Q;
  matchType : MatchType
}.

(** An element of [allItems]. *)
Record Item : Type := {
  item_id : string;
  item_domain : SearchDomain;
  item_name : string;
  item_description : string;
  item_keywords : list string
}.

(** An element of the [results] arrays of [findSimilar] and of the
    [related] array of [getRelatedItems]. *)
Record Scored : Type := { sc_id : string; sc_score : Q }.

(** The fields of a [HISEDataLoader]. *)
Record Loader : Type := {
  data : option HISEData;
  propertyIndex : gmap string UIComponentProperty;
  apiMethodIndex : gmap string ScriptingAPIMethod;
  parameterIndex : gmap string ModuleParameter;
  snippetIndex : gmap string CodeSnippet;
  keywordIndex : gmap string (list string);
  allItems : list Item;
  snippetsLoaded : bool
}.

(** [this.data = d] and [this.snippetsLoaded = b] *)
Definition setData (d : option HISEData) (st : Loader) : Loader :=
  {| data := d;
     propertyIndex := propertyIndex st; apiMethodIndex := apiMethodIndex st;
     parameterIndex := parameterIndex st; snippetIndex := snippetIndex st;
     keywordIndex := keywordIndex st; allItems := allItems st;
     snippetsLoaded := snippetsLoaded st |}.

Definition setSnippetsLoaded (b : bool) (st : Loader) : Loader :=
  {| data := data st;
     propertyIndex := propertyIndex st; apiMethodIndex := apiMethodIndex st;
     parameterIndex := parameterIndex st; snippetIndex := snippetIndex st;
     keywordIndex := keywordIndex st; allItems := allItems st;
     snippetsLoaded := b |}.

(** [new HISEDataLoader()] *)
Definition newLoader : Loader :=
  {| data := None; propertyIndex := ∅; apiMethodIndex := ∅; parameterIndex := ∅;
     snippetIndex := ∅; keywordIndex := ∅; allItems := []; snippetsLoaded := false |}.

(** An exception, or a place the embedding does not cover. *)
Inductive outcome (A : Type) : Type :=
| Returns (a : A)
| Throws (message : string)
| NotModelled.
Arguments Returns {A} a.
Arguments Throws {A} message.
Arguments NotModelled {A}.

(** ** Arrays and sets *)

(** [Set.prototype.add] on a set kept in insertion order. *)
Definition setAdd (x : string) (s : list string) : list string :=
  if bool_decide (x ∈ s) then s else s ++ [x].

(** [l.slice(0, end)] *)
Definition slice0 {A : Type} (l : list A) (end_ : Z) : list A :=
  if end_ <? 0
  then take (Z.to_nat (Z.max (Z.of_nat (length l) + end_) 0)) l
  else take (Z.to_nat end_) l.

(** [l.find(p)] *)
Fixpoint find {A : Type} (p : A → bool) (l : list A) : option A :=
  match l with
  | [] => None
  | x :: l' => if p x then Some x else find p l'
  end.

(** [l.sort((a, b) => b.score - a.score)] : the sort is stable, so the
    result is the arrangement by decreasing score that keeps equal scores in
    their order in [l]. *)
Section SortByScore.
Context {A : Type} (sc : A → Q).

Fixpoint insertByScore (x : A) (l : list A) : list A :=
  match l with
  | [] => [x]
  | y :: l' =>
      if Qle_bool (sc y) (sc x) then x :: y :: l'
      else y :: insertByScore x l'
  end.

Definition sortByScore (l : list A) : list A := foldr insertByScore [] l.
End SortByScore.

(** ** Keyword tokenizer *)

Definition STOPWORDS : list string :=
  [ "the"; "a"; "an"; "is"; "are"; "was"; "were"; "be"; "been"; "being";
    "have"; "has"; "had"; "do"; "does"; "did"; "will"; "would"; "could";
    "should"; "may"; "might"; "must"; "can"; "to"; "of"; "in"; "for"; "on";
    "with"; "at"; "by"; "from"; "as"; "into"; "through"; "during"; "before";
    "after"; "above"; "below"; "between"; "under"; "again"; "further"; "then";
    "once"; "here"; "there"; "when"; "where"; "why"; "how"; "all"; "each";
    "few"; "more"; "most"; "other"; "some"; "such"; "no"; "nor"; "not"; "only";
    "own"; "same"; "so"; "than"; "too"; "very"; "just"; "and"; "but"; "if";
    "or"; "because"; "until"; "while"; "this"; "that"; "these"; "those"; "it"; "its" ].

Definition addWord (keywords : list string) (word : string) : list string :=
  if (2 <? String.length word)%nat && negb (bool_decide (word ∈ STOPWORDS))
  then setAdd word keywords
  else keywords.

(** [extractKeywords(...texts)] ; an empty text has no words. *)
Definition extractKeywords (texts : list string) : list string :=
  foldl (fun keywords text => foldl addWord keywords (matchAlnumRuns "" (toLowerCase text)))
        [] texts.

(** [addToKeywordIndex(itemId, keywords)] *)
Definition addToKeywordIndex (itemId : string) (keywords : list string)
    (index : gmap string (list string)) : gmap string (list string) :=
  foldl (fun index keyword => <[keyword := setAdd itemId (default [] (index !! keyword))]> index)
        index keywords.

(** ** Index builder *)

Definition dotted (a b : string) : string := a +:+ "." +:+ b.

Definition indexProperty (st : Loader) (prop : UIComponentProperty) : Loader :=
  let key := toLowerCase (dotted (componentType prop) (propertyName prop)) in
  let keywords := extractKeywords [propertyName prop; ui_description prop; componentType prop] in
  {| data := data st;
     propertyIndex := <[key := prop]> (propertyIndex st);
     apiMethodIndex := apiMethodIndex st;
     parameterIndex := parameterIndex st;
     snippetIndex := snippetIndex st;
     keywordIndex := addToKeywordIndex key keywords (keywordIndex st);
     allItems := allItems st ++
       [ {| item_id := key; item_domain := D_ui;
            item_name := dotted (componentType prop) (propertyName prop);
            item_description := ui_description prop; item_keywords := keywords |} ];
     snippetsLoaded := snippetsLoaded st |}.

Definition indexMethod (st : Loader) (method : ScriptingAPIMethod) : Loader :=
  let key := toLowerCase (dotted (namespace method) (methodName method)) in
  let keywords := extractKeywords [methodName method; api_description method; namespace method] in
  {| data := data st;
     propertyIndex := propertyIndex st;
     apiMethodIndex := <[key := method]> (apiMethodIndex st);
     parameterIndex := parameterIndex st;
     snippetIndex := snippetIndex st;
     keywordIndex := addToKeywordIndex key keywords (keywordIndex st);
     allItems := allItems st ++
       [ {| item_id := key; item_domain := D_api;
            item_name := dotted (namespace method) (methodName method);
            item_description := api_description method; item_keywords := keywords |} ];
     snippetsLoaded := snippetsLoaded st |}.

Definition indexParameter (st : Loader) (param : ModuleParameter) : Loader :=
  let key := toLowerCase (dotted (moduleType param) (parameterId param)) in
  let keywords := extractKeywords [parameterId param; mod_description param; moduleType param] in
  {| data := data st;
     propertyIndex := propertyIndex st;
     apiMethodIndex := apiMethodIndex st;
     parameterIndex := <[key := param]> (parameterIndex st);
     snippetIndex := snippetIndex st;
     keywordIndex := addToKeywordIndex key keywords (keywordIndex st);
     allItems := allItems st ++
       [ {| item_id := key; item_domain := D_modules;
            item_name := dotted (moduleType param) (parameterId param);
            item_description := mod_description param; item_keywords := keywords |} ];
     snippetsLoaded := snippetsLoaded st |}.

Definition indexSnippet (st : Loader) (snippet : CodeSnippet) : Loader :=
  let keywords :=
    extractKeywords (title snippet :: snip_description snippet :: category snippet :: tags snippet) in
  {| data := data st;
     propertyIndex := propertyIndex st;
     apiMethodIndex := apiMethodIndex st;
     parameterIndex := parameterIndex st;
     snippetIndex := <[snip_id snippet := snippet]> (snippetIndex st);
     keywordIndex := addToKeywordIndex (snip_id snippet) keywords (keywordIndex st);
     allItems := allItems st ++
       [ {| item_id := snip_id snippet; item_domain := D_snippets;
            item_name := title snippet;
            item_description := snip_description snippet; item_keywords := keywords |} ];
     snippetsLoaded := snippetsLoaded st |}.

(** [buildIndexes()] *)
Definition buildIndexes (st : Loader) : Loader :=
  match data st with
  | None => st
  | Some d =>
      let cleared :=
        {| data := data st; propertyIndex := ∅; apiMethodIndex := ∅; parameterIndex := ∅;
           snippetIndex := ∅; keywordIndex := ∅; allItems := [];
           snippetsLoaded := snippetsLoaded st |} in
      let st1 := foldl indexProperty cleared (uiComponentProperties d) in
      let st2 := foldl indexMethod st1 (scriptingAPI d) in
      foldl indexParameter st2 (moduleParameters d)
  end.

(** ** The data directory

    What the loader sees of the file system.  A source file is given by the
    records that reading, parsing and transforming it yields ([None] when
    one of the three throws); the transformation of the raw JSON shapes is
    not part of this development. *)

Inductive DataFile : Type := UiFile | ApiFile | ProcFile.

(** The parsed content of [.cache.json].  A field that is missing or is not
    of the expected type is [None]. *)
Record Snapshot : Type := {
  version : option string;
  uiMtime : option Z;
  apiMtime : option Z;
  procMtime : option Z;
  snap_data : option HISEData
}.

Inductive CacheFile : Type :=
| NoCacheFile                   (* existsSync is false *)
| BadCacheFile                  (* readFileSync or JSON.parse throws *)
| CacheJson (cache : Snapshot).

Record Env : Type := {
  cacheFile : CacheFile;
  cacheWritable : bool;
  statMtime : DataFile → option Z;  (* statSync(path).mtimeMs, [None] when it throws *)
  uiSource : option (list UIComponentProperty);
  apiSource : option (list ScriptingAPIMethod);
  procSource : option (list ModuleParameter);
  snippetSource : option (list CodeSnippet)
}.

(** [getFileMtime(path)] *)
Definition getFileMtime (fs : Env) (f : DataFile) : Z := default 0 (statMtime fs f).

Definition CACHE_VERSION : string := "1.1".

(** [loadCache()] : the whole body is inside [try]/[catch], so the
    result is always a boolean. *)
Definition loadCache (fs : Env) (st : Loader) : Loader * bool :=
  match cacheFile fs with
  | NoCacheFile => (st, false)
  | BadCacheFile => (st, false)
  | CacheJson cache =>
      if negb (bool_decide (version cache = Some CACHE_VERSION))
         || negb (bool_decide (uiMtime cache = Some (getFileMtime fs UiFile)))
         || negb (bool_decide (apiMtime cache = Some (getFileMtime fs ApiFile)))
         || negb (bool_decide (procMtime cache = Some (getFileMtime fs ProcFile)))
      then (st, false)
      else (buildIndexes (setSnippetsLoaded false (setData (snap_data cache) st)), true)
  end.

(** [saveCache()] : a failed write is caught and leaves the file as it was. *)
Definition saveCache (fs : Env) (st : Loader) : Env :=
  if cacheWritable fs then
    {| cacheFile :=
         CacheJson {| version := Some CACHE_VERSION;
                      uiMtime := Some (getFileMtime fs UiFile);
                      apiMtime := Some (getFileMtime fs ApiFile);
                      procMtime := Some (getFileMtime fs ProcFile);
                      snap_data := data st |};
       cacheWritable := cacheWritable fs; statMtime := statMtime fs;
       uiSource := uiSource fs; apiSource := apiSource fs; procSource := procSource fs;
       snippetSource := snippetSource fs |}
  else fs.

(** The rebuild of [loadData()] : read the three sources, index them, save. *)
Definition rebuild (fs : Env) (st : Loader) : outcome (Env * Loader) :=
  match uiSource fs, apiSource fs, procSource fs with
  | Some uiProperties, Some apiMethods, Some processors =>
      let st' :=
        buildIndexes
          (setData (Some {| uiComponentProperties := uiProperties;
                            scriptingAPI := apiMethods;
                            moduleParameters := processors;
                            codeSnippets := [] |}) st) in
      Returns (saveCache fs st', st')
  | _, _, _ => Throws "Failed to load HISE data"
  end.

(** [loadData()] *)
Definition loadData (fs : Env) (st : Loader) : outcome (Env * Loader) :=
  let '(st', cacheLoaded) := loadCache fs st in
  if cacheLoaded then Returns (fs, st') else rebuild fs st'.

(** [ensureSnippetsLoaded()] *)
Definition ensureSnippetsLoaded (fs : Env) (st : Loader) : Loader :=
  if snippetsLoaded st then st
  else match data st, snippetSource fs with
       | None, _ => st
       | Some _, None => st
       | Some d, Some snippets =>
           let st0 :=
             setData (Some {| uiComponentProperties := uiComponentProperties d;
                              scriptingAPI := scriptingAPI d;
                              moduleParameters := moduleParameters d;
                              codeSnippets := snippets |}) st in
           setSnippetsLoaded true (foldl indexSnippet st0 snippets)
       end.

(** ** Query normalisation *)

(** [.replace(/\(\)$/, '')] *)
Fixpoint stripEmptyParens (s : string) : string :=
  match s with
  | EmptyString => EmptyString
  | String c t =>
      if Ascii.eqb c "(" && String.eqb t ")" then EmptyString
      else String c (stripEmptyParens t)
  end.

(** [t] is matched by [.*\)$] : it ends with [)] and has no line terminator
    before that. *)
Fixpoint argsTail (t : string) : bool :=
  match t with
  | EmptyString => false
  | String c EmptyString => Ascii.eqb c ")"
  | String c t' => negb (isLineTerminator c) && argsTail t'
  end.

(** [.replace(/\(.*\)$/, '')] : cut at the leftmost [(] that starts a match. *)
Fixpoint stripArgs (s : string) : string :=
  match s with
  | EmptyString => EmptyString
  | String c t =>
      if Ascii.eqb c "(" && argsTail t then EmptyString
      else String c (stripArgs t)
  end.

Definition normalizeQuery (query : string) : string :=
  trim (toLowerCase (stripArgs (stripEmptyParens query))).

(** [queryUIProperty], [queryScriptingAPI], [queryModuleParameter] *)
Definition queryUIProperty (st : Loader) (componentProperty : string) : option UIComponentProperty :=
  propertyIndex st !! normalizeQuery componentProperty.

Definition queryScriptingAPI (st : Loader) (apiCall : string) : option ScriptingAPIMethod :=
  apiMethodIndex st !! normalizeQuery apiCall.

Definition queryModuleParameter (st : Loader) (moduleParameter : string) : option ModuleParameter :=
  parameterIndex st !! normalizeQuery moduleParameter.

(** ** Similarity scorer *)

Definition calculateSimilarity (query id name : string) (keywords : list string) : Q :=
  if String.eqb id query || String.eqb name query then 1.0%Q
  else
    let score := 0%Q in
    let score := if startsWith id query || startsWith name query then Qmax score 0.8 else score in
    let score := if includes id query || includes name query then Qmax score 0.6 else score in
    let queryParts := split "." query in
    let idParts := split "." id in
    let score :=
      foldl (fun score qp =>
               foldl (fun score ip => if includes ip qp then Qmax score 0.5 else score)
                     score idParts)
            score queryParts in
    let queryWords := extractKeywords [query] in
    foldl (fun score qw => if bool_decide (qw ∈ keywords) then Qmax score 0.4 else score)
          score queryWords.

(** [domain && domain !== 'all' && item.domain !== domain] *)
Definition outsideDomain (domain : option SearchDomain) (item : Item) : bool :=
  match domain with
  | None => false
  | Some d => negb (bool_decide (d = D_all)) && negb (bool_decide (item_domain item = d))
  end.

Definition wantsSnippets (domain : option SearchDomain) : bool :=
  bool_decide (domain = Some D_all) || bool_decide (domain = Some D_snippets).

(** The [results] array of [findSimilar] when its loop ends. *)
Definition similarCandidates (st : Loader) (normalized : string)
    (domain : option SearchDomain) : list Scored :=
  foldl (fun results item =>
           if outsideDomain domain item then results
           else
             let score := calculateSimilarity normalized (item_id item)
                            (toLowerCase (item_name item)) (item_keywords item) in
             if negb (Qle_bool score 0.3)
             then results ++ [ {| sc_id := item_name item; sc_score := score |} ]
             else results)
        [] (allItems st).

(** [findSimilar(query, limit, domain)] *)
Definition findSimilar (fs : Env) (st : Loader) (query : string) (limit : Z)
    (domain : option SearchDomain) : Loader * list string :=
  let st := if wantsSnippets domain then ensureSnippetsLoaded fs st else st in
  let normalized := normalizeQuery query in
  let results := similarCandidates st normalized domain in
  (st, sc_id <$> slice0 (sortByScore sc_score results) limit).

(** ** Search engine *)

(** [for (const x of xs) { ... }] : the body yields the new state and
    whether it leaves the loop with [break]. *)
Fixpoint forOf {X S : Type} (body : S → X → S * bool) (xs : list X) (s : S) : S :=
  match xs with
  | [] => s
  | x :: xs' =>
      let '(s', leave) := body s x in
      if leave then s' else forOf body xs' s'
  end.

(** The [results] array and the [seen] set. *)
Definition acc : Type := list SearchResult * gset string.

Definition push (a : acc) (r : SearchResult) (seenId : string) : acc :=
  (a.1 ++ [r], a.2 ∪ {[seenId]}).

Definition resultOf (item : Item) (s : Q) (m : MatchType) : SearchResult :=
  {| res_id := item_id item; res_domain := item_domain item; res_name := item_name item;
     res_description := item_description item; score := s; matchType := m |}.

(** [domain === 'all' || domain === d] *)
Definition inDomain (domain d : SearchDomain) : bool :=
  bool_decide (domain = D_all) || bool_decide (domain = d).

(** The results that stage 1 makes of the records it finds. *)
Definition apiResult (exactApi : ScriptingAPIMethod) : SearchResult :=
  {| res_id := dotted (namespace exactApi) (methodName exactApi);
     res_domain := D_api;
     res_name := dotted (namespace exactApi) (methodName exactApi);
     res_description := api_description exactApi;
     score := 1.0; matchType := M_exact |}.

Definition uiResult (exactUi : UIComponentProperty) : SearchResult :=
  {| res_id := dotted (componentType exactUi) (propertyName exactUi);
     res_domain := D_ui;
     res_name := dotted (componentType exactUi) (propertyName exactUi);
     res_description := ui_description exactUi;
     score := 1.0; matchType := M_exact |}.

Definition moduleResult (exactMod : ModuleParameter) : SearchResult :=
  {| res_id := dotted (moduleType exactMod) (parameterId exactMod);
     res_domain := D_modules;
     res_name := dotted (moduleType exactMod) (parameterId exactMod);
     res_description := mod_description exactMod;
     score := 1.0; matchType := M_exact |}.

Definition snippetResult (exactSnippet : CodeSnippet) : SearchResult :=
  {| res_id := snip_id exactSnippet;
     res_domain := D_snippets;
     res_name := title exactSnippet;
     res_description := snip_description exactSnippet;
     score := 1.0; matchType := M_exact |}.

(** Stage 1: the four exact lookups. *)
Definition exactStage (st : Loader) (domain : SearchDomain) (normalized : string) : acc :=
  let a : acc := ([], ∅) in
  let a :=
    match (if inDomain domain D_api then apiMethodIndex st !! normalized else None) with
    | Some exactApi => push a (apiResult exactApi) normalized
    | None => a
    end in
  let a :=
    match (if inDomain domain D_ui then propertyIndex st !! normalized else None) with
    | Some exactUi => push a (uiResult exactUi) normalized
    | None => a
    end in
  let a :=
    match (if inDomain domain D_modules then parameterIndex st !! normalized else None) with
    | Some exactMod => push a (moduleResult exactMod) normalized
    | None => a
    end in
  match (if inDomain domain D_snippets then snippetIndex st !! normalized else None) with
  | Some exactSnippet => push a (snippetResult exactSnippet) normalized
  | None => a
  end.

Definition reached (a : acc) (cap : Z) : bool := Z.of_nat (length a.1) >=? cap.

(** Stage 2, the loop body. *)
Definition prefixBody (regex : JsRegExp.regex) (limit : Z) (a : acc) (item : Item) : acc * bool :=
  if bool_decide (item_id item ∈ a.2) then (a, false)
  else if test regex (item_id item) || test regex (toLowerCase (item_name item)) then
    let a' := push a (resultOf item 0.9 M_prefix) (item_id item) in
    (a', reached a' (limit * 2))
  else (a, false).

(** The pattern handed to [new RegExp(..., 'i')]. *)
Definition wildcardPattern (normalized : string) : string :=
  "^" +:+ replaceAllChar "*" ".*" normalized +:+ "$".

(** Stage 2. *)
Definition prefixStage (itemsToSearch : list Item) (normalized : string) (limit : Z)
    (a : acc) : outcome acc :=
  if includes normalized "*" then
    match RegExp (wildcardPattern normalized) with
    | Compiled regex => Returns (forOf (prefixBody regex limit) itemsToSearch a)
    | SyntaxError => Throws "SyntaxError: Invalid regular expression"
    | Unmodelled => NotModelled
    end
  else Returns a.

(** [keywordMatches.set(itemId, (keywordMatches.get(itemId) || 0) + 1)] on a
    [Map] kept in insertion order. *)
Fixpoint mapIncrement (itemId : string) (m : list (string * Z)) : list (string * Z) :=
  match m with
  | [] => [(itemId, 1)]
  | (k, n) :: m' =>
      if String.eqb k itemId then (k, n + 1) :: m'
      else (k, n) :: mapIncrement itemId m'
  end.

Definition keywordMatches (st : Loader) (queryKeywords : list string) : list (string * Z) :=
  foldl (fun m keyword =>
           match keywordIndex st !! keyword with
           | Some matches => foldl (fun m itemId => mapIncrement itemId m) m matches
           | None => m
           end)
        [] queryKeywords.

Definition keywordScore (matchCount : Z) (nKeywords : nat) : Q :=
  Qmin 0.8 (0.3 + (inject_Z matchCount / inject_Z (Z.of_nat nKeywords)) * 0.5).

(** Stage 3, the loop body. *)
Definition keywordBody (itemsToSearch : list Item) (nKeywords : nat) (limit : Z)
    (a : acc) (entry : string * Z) : acc * bool :=
  let '(itemId, matchCount) := entry in
  if bool_decide (itemId ∈ a.2) then (a, false)
  else match find (fun i => String.eqb (item_id i) itemId) itemsToSearch with
       | None => (a, false)
       | Some item =>
           let a' := push a (resultOf item (keywordScore matchCount nKeywords) M_keyword) itemId in
           (a', reached a' (limit * 3))
       end.

(** Stage 3. *)
Definition keywordStage (st : Loader) (itemsToSearch : list Item) (normalized : string)
    (limit : Z) (a : acc) : acc :=
  let queryKeywords := extractKeywords [normalized] in
  forOf (keywordBody itemsToSearch (length queryKeywords) limit)
        (keywordMatches st queryKeywords) a.

(** Stage 4, the loop body. *)
Definition fuzzyBody (normalized : string) (limit : Z) (a : acc) (item : Item) : acc * bool :=
  if bool_decide (item_id item ∈ a.2) then (a, false)
  else
    let s := calculateSimilarity normalized (item_id item)
               (toLowerCase (item_name item)) (item_keywords item) in
    if Qle_bool 0.4 s then
      let a' := push a (resultOf item s M_fuzzy) (item_id item) in
      (a', reached a' (limit * 5))
    else (a, false).

(** Stage 4. *)
Definition fuzzyStage (itemsToSearch : list Item) (normalized : string) (limit : Z)
    (a : acc) : acc :=
  forOf (fuzzyBody normalized limit) itemsToSearch a.

(** The four [return] statements of [search]. *)
Inductive ReturnPoint : Type := AfterExact | AfterPrefix | AfterKeyword | AfterFuzzy.

Definition itemsToSearch (st : Loader) (domain : SearchDomain) : list Item :=
  if bool_decide (domain = D_all) then allItems st
  else List.filter (fun item => bool_decide (item_domain item = domain)) (allItems st).

(** The stages of [search] up to the [return] statement that is taken: which
    one it is, and the [results] array there. *)
Definition searchCollect (st : Loader) (normalized : string) (domain : SearchDomain)
    (limit : Z) : outcome (ReturnPoint * list SearchResult) :=
  let items := itemsToSearch st domain in
  let a1 := exactStage st domain normalized in
  if reached a1 limit then Returns (AfterExact, a1.1)
  else
    match prefixStage items normalized limit a1 with
    | Throws message => Throws message
    | NotModelled => NotModelled
    | Returns a2 =>
        if reached a2 limit then Returns (AfterPrefix, a2.1)
        else
          let a3 := keywordStage st items normalized limit a2 in
          if reached a3 limit then Returns (AfterKeyword, a3.1)
          else Returns (AfterFuzzy, (fuzzyStage items normalized limit a3).1)
    end.

(** What the [return] statement at [point] does with [results]: the first
    one slices, the others sort and slice. *)
Definition finish (point : ReturnPoint) (results : list SearchResult) (limit : Z)
    : list SearchResult :=
  match point with
  | AfterExact => slice0 results limit
  | _ => slice0 (sortByScore score results) limit
  end.

Definition needsSnippets (domain : SearchDomain) : bool :=
  bool_decide (domain = D_all) || bool_decide (domain = D_snippets).

(** [search(query, domain, limit)] *)
Definition search (fs : Env) (st : Loader) (query : string) (domain : SearchDomain)
    (limit : Z) : Loader * outcome (list SearchResult) :=
  let st := if needsSnippets domain then ensureSnippetsLoaded fs st else st in
  let normalized := normalizeQuery query in
  (st,
   match searchCollect st normalized domain limit with
   | Returns (point, results) => Returns (finish point results limit)
   | Throws message => Throws message
   | NotModelled => NotModelled
   end).

(** ** Relation finder *)

(** [item.keywords.filter(k => other.keywords.includes(k)).length] *)
Definition overlapCount (item other : Item) : nat :=
  length (List.filter (fun k => bool_decide (k ∈ item_keywords other)) (item_keywords item)).

Definition overlapScore (item other : Item) : Q :=
  let domainBonus := if bool_decide (item_domain other = item_domain item) then 0.2%Q else 0%Q in
  (inject_Z (Z.of_nat (overlapCount item other))
   / inject_Z (Z.max (Z.of_nat (length (item_keywords item))) 1)
   + domainBonus)%Q.

(** The first loop of [getRelatedItems]. *)
Definition relatedByKeywords (st : Loader) (normalized : string) (item : Item) : list Scored :=
  foldl (fun related other =>
           if String.eqb (item_id other) normalized then related
           else if (0 <? overlapCount item other)%nat
                then related ++ [ {| sc_id := item_name other; sc_score := overlapScore item other |} ]
                else related)
        [] (allItems st).

(** The loops over [relatedAPIs] and [relatedComponents]. *)
Definition injectReferences (refs : list string) (fixedScore : Q) (related : list Scored)
    : list Scored :=
  foldl (fun related ref =>
           match find (fun r => String.eqb (toLowerCase (sc_id r)) (toLowerCase ref)) related with
           | Some _ => related
           | None => related ++ [ {| sc_id := ref; sc_score := fixedScore |} ]
           end)
        related refs.

(** The [related] array before it is sorted. *)
Definition relatedCandidates (st : Loader) (normalized : string) (item : Item) : list Scored :=
  let related := relatedByKeywords st normalized item in
  if bool_decide (item_domain item = D_snippets) then
    match snippetIndex st !! normalized with
    | Some snippet =>
        injectReferences (relatedComponents snippet) 0.85
          (injectReferences (relatedAPIs snippet) 0.9 related)
    | None => related
    end
  else related.

(** [getRelatedItems(id, limit)] *)
Definition getRelatedItems (st : Loader) (id : string) (limit : Z) : list string :=
  let normalized := normalizeQuery id in
  match find (fun i => String.eqb (item_id i) normalized) (allItems st) with
  | None => []
  | Some item => sc_id <$> slice0 (sortByScore sc_score (relatedCandidates st normalized item)) limit
  end.

(** ** Reachable loaders and their invariant *)

(** The loaders a process can hold: a fresh one, one after [loadData],
    one after the lazy snippet load. *)
Inductive reachable : Loader → Prop :=
| reach_new : reachable newLoader
| reach_loadData fs st fs' st' :
    reachable st → loadData fs st = Returns (fs', st') → reachable st'
| reach_snippets fs st :
    reachable st → reachable (ensureSnippetsLoaded fs st).

(** What the index builder guarantees: a dictionary key is the lower-cased
    [Type.member] of its record (the snippet id for a snippet), and the id
    of a catalog entry outside the snippets is lower case. *)
Record indexed (st : Loader) : Prop := {
  indexed_api : ∀ k m, apiMethodIndex st !! k = Some m →
                       k = toLowerCase (dotted (namespace m) (methodName m));
  indexed_ui : ∀ k p, propertyIndex st !! k = Some p →
                      k = toLowerCase (dotted (componentType p) (propertyName p));
  indexed_modules : ∀ k p, parameterIndex st !! k = Some p →
                           k = toLowerCase (dotted (moduleType p) (parameterId p));
  indexed_snippets : ∀ k s, snippetIndex st !! k = Some s → snip_id s = k;
  indexed_items : ∀ item, item ∈ allItems st → item_domain item ≠ D_snippets →
                          toLowerCase (item_id item) = item_id item
}.

(** ** The scorer and the suggestion list in the words of the specification *)

(** The values of the rules that apply, in the order of section 4.5. *)
Definition applicableRules (query id name : string) (keywords : list string) : list Q :=
  (if startsWith id query || startsWith name query then [0.8%Q] else [])
  ++ (if includes id query || includes name query then [0.6%Q] else [])
  ++ (if existsb (fun qp => existsb (fun ip => includes ip qp) (split "." id)) (split "." query)
      then [0.5%Q] else [])
  ++ (if existsb (fun qw => bool_decide (qw ∈ keywords)) (extractKeywords [query])
      then [0.4%Q] else []).

(** The maximum rule that applies; 1.0 on equality, 0.0 when none does. *)
Definition similarity_spec (query id name : string) (keywords : list string) : Q :=
  if String.eqb id query || String.eqb name query then 1.0%Q
  else foldr Qmax 0%Q (applicableRules query id name keywords).

Definition similarityOf (normalized : string) (item : Item) : Q :=
  calculateSimilarity normalized (item_id item) (toLowerCase (item_name item))
    (item_keywords item).

(** The items of the domain that score above 0.3, by decreasing score, cut
    at [limit]; [label] is what is returned for an item. *)
Definition findSimilar_spec (label : Item → string) (st : Loader) (query : string)
    (limit : Z) (domain : option SearchDomain) : list string :=
  let normalized := normalizeQuery query in
  let candidates :=
    List.filter (fun item => negb (Qle_bool (similarityOf normalized item) 0.3))
      (List.filter (fun item => negb (outsideDomain domain item)) (allItems st)) in
  label <$> take (Z.to_nat limit) (sortByScore (similarityOf normalized) candidates).

(** ** Properties of result lists *)

Definition resultKey (r : SearchResult) : string * SearchDomain := (res_id r, res_domain r).

(** By non-increasing score. *)
Definition sortedByScore {A : Type} (sc : A → Q) (l : list A) : Prop :=
  ∀ i j x y, l !! i = Some x → l !! j = Some y → (i < j)%nat → (sc y <= sc x)%Q.

(** Results of equal score are in the order of [results]: for every score,
    those of [l] are an initial part of those of [results]. *)
Definition tiesInOrderOf {A : Type} (sc : A → Q) (results l : list A) : Prop :=
  ∀ v, List.filter (fun x => Qeq_bool (sc x) v) l
       `prefix_of` List.filter (fun x => Qeq_bool (sc x) v) results.

(** Every element is at most the ones before it. *)
Fixpoint descending {A : Type} (sc : A → Q) (l : list A) : Prop :=
  match l with
  | [] => True
  | x :: l' => Forall (fun y => (sc y <= sc x)%Q) l' ∧ descending sc l'
  end.

(** How a stage after the first scores an entry it appends. *)
Definition stageScore (normalized : string) (item : Item) (m : MatchType) (s : Q) : Prop :=
  match m with
  | M_exact => False
  | M_prefix =>
      s = 0.9%Q
      ∧ ∃ regex, RegExp (wildcardPattern normalized) = Compiled regex
                 ∧ test regex (item_id item) || test regex (toLowerCase (item_name item)) = true
  | M_keyword =>
      ∃ matchCount nKeywords, 1 <= matchCount ∧ s = keywordScore matchCount nKeywords
  | M_fuzzy => s = similarityOf normalized item ∧ Qle_bool 0.4 s = true
  end.

(** [appended items normalized a a'] : [a'] is [a] after some entries of
    [items] were appended, each with an id that was not in [seen] then. *)
Inductive appended (items : list Item) (normalized : string) : acc → acc → Prop :=
| appended_none a : appended items normalized a a
| appended_push a a' item s m :
    appended items normalized a a' →
    item ∈ items → item_id item ∉ a'.2 → stageScore normalized item m s →
    appended items normalized a (push a' (resultOf item s m) (item_id item)).

(** A result carries an id that is in [seen], or it is a first-stage result
    outside the snippets, whose id in lower case is in [seen]. *)
Definition covered (seen : gset string) (r : SearchResult) : Prop :=
  res_id r ∈ seen ∨ (res_domain r ≠ D_snippets ∧ toLowerCase (res_id r) ∈ seen).

(** The query has no [*], or its pattern is one the constructor accepts. *)
Definition patternCompiles (normalized : string) : Prop :=
  includes normalized "*" = false
  ∨ ∃ regex, RegExp (wildcardPattern normalized) = Compiled regex.

(** What is left of [s] after the lower-case word [p], read in any letter
    case. *)
Fixpoint afterWord (p s : string) : option string :=
  match p, s with
  | EmptyString, _ => Some s
  | String _ _, EmptyString => None
  | String a p', String c s' =>
      if Ascii.eqb (toLowerChar c) a then afterWord p' s' else None
  end.

(** [s] is [synth], in any letter case, then at least one more code unit,
    and no line terminator after [synth]. *)
Definition synthThenMore (s : string) : bool :=
  match afterWord "synth" s with
  | Some (String c rest) =>
      forallb (fun c => negb (isLineTerminator c)) (String.list_ascii_of_string (String c rest))
  | _ => false
  end.

(** ** A small corpus *)

Module Example.

Definition addNoteOn : ScriptingAPIMethod :=
  {| api_id := "addNoteOn"; namespace := "Synth"; methodName := "addNoteOn";
     returnType := "int"; api_description := "Adds a note on event." |}.

Definition synthesiserReset : ScriptingAPIMethod :=
  {| api_id := "reset"; namespace := "Synthesiser"; methodName := "reset";
     returnType := "var"; api_description := "Resets all voices." |}.

Definition getSampleRate : ScriptingAPIMethod :=
  {| api_id := "getSampleRate"; namespace := "Engine"; methodName := "getSampleRate";
     returnType := "double"; api_description := "Rate used by the synth." |}.

Definition filmstripImage : UIComponentProperty :=
  {| ui_id := "ScriptButton.filmstripImage"; componentType := "ScriptButton";
     propertyName := "filmstripImage"; propertyType := "String";
     ui_description := "Image strip of the button." |}.

Definition gain : ModuleParameter :=
  {| mod_id := "SimpleGain.Gain"; moduleType := "SimpleGain"; parameterId := "Gain";
     parameterName := "Gain"; mod_description := "Volume in decibel." |}.

Definition triggerMelody : CodeSnippet :=
  {| snip_id := "trigger-melody"; title := "Trigger melody";
     snip_description := "Plays a short tune."; category := "MIDI";
     tags := ["sequencer"]; code := "Synth.addNoteOn(1, 60, 100, 0);";
     relatedAPIs := ["Synth.addNoteOn"]; relatedComponents := ["ScriptButton"];
     difficulty := "beginner" |}.

(** A data directory without a cache file. *)
Definition fs : Env :=
  {| cacheFile := NoCacheFile; cacheWritable := true;
     statMtime := fun _ => Some 1700000000000;
     uiSource := Some [filmstripImage];
     apiSource := Some [addNoteOn; synthesiserReset; getSampleRate];
     procSource := Some [gain];
     snippetSource := Some [triggerMelody] |}.

(** The loader after [loadData()]. *)
Definition loaded : Loader :=
  match loadData fs newLoader with
  | Returns (_, st) => st
  | _ => newLoader
  end.

(** The data directory after [loadData()] : the cache file is written. *)
Definition fsAfterLoad : Env :=
  match loadData fs newLoader with
  | Returns (fs', _) => fs'
  | _ => fs
  end.

(** The same directory after [ui_component_properties.json] is touched. *)
Definition fsTouched : Env :=
  {| cacheFile := cacheFile fsAfterLoad; cacheWritable := true;
     statMtime := fun f => match f with UiFile => Some 1700000000001 | _ => Some 1700000000000 end;
     uiSource := uiSource fs; apiSource := apiSource fs; procSource := procSource fs;
     snippetSource := snippetSource fs |}.

(** The list that a call returned ([[]] if it threw). *)
Definition returned {A : Type} (o : outcome (list A)) : list A :=
  match o with
  | Returns l => l
  | _ => []
  end.

(** The loader after the snippets are loaded. *)
Definition withSnippets : Loader := ensureSnippetsLoaded fs loaded.

End Example.

(** ** Canonicalizer: the string helpers of the transforms *)

(** [.replace(/[^a-z0-9]+/g, '-')] ; [inRun] tells that the code unit before
    was outside [a-z0-9] too. *)
Fixpoint hyphenateRuns (inRun : bool) (s : string) : string :=
  match s with
  | EmptyString => EmptyString
  | String c t =>
      if isAlnumLower c then String c (hyphenateRuns false t)
      else if inRun then hyphenateRuns true t
      else String "-" (hyphenateRuns true t)
  end.

(** [.replace(/-$/, '')] *)
Fixpoint dropLastHyphen (s : string) : string :=
  match s with
  | EmptyString => EmptyString
  | String c EmptyString => if Ascii.eqb c "-" then EmptyString else s
  | String c t => String c (dropLastHyphen t)
  end.

(** [.replace(/(^-|-$)/g, '')] : a hyphen at index 0, and then a hyphen at
    the end of what follows. *)
Definition stripHyphenEnds (s : string) : string :=
  match s with
  | String c t => if Ascii.eqb c "-" then dropLastHyphen t else dropLastHyphen s
  | EmptyString => EmptyString
  end.

(** [slugify(text)] *)
Definition slugify (text : string) : string :=
  stripHyphenEnds (hyphenateRuns false (toLowerCase text)).

(** [cleanCode(code)] : [.replace(/\r\n/g, '\n')] *)
Fixpoint cleanCode (code : string) : string :=
  match code with
  | EmptyString => EmptyString
  | String c t =>
      match t with
      | String c' t' =>
          if Ascii.eqb c "013" && Ascii.eqb c' "010" then String c' (cleanCode t')
          else String c (cleanCode t)
      | EmptyString => String c EmptyString
      end
  end.

(** The group of [/\((.*?)\)/] once its [(] is read: the text up to the
    first [)], if no line terminator comes before. *)
Fixpoint lazyGroup (s : string) : option string :=
  match s with
  | EmptyString => None
  | String c t =>
      if Ascii.eqb c ")" then Some EmptyString
      else if isLineTerminator c then None
      else option_map (String c) (lazyGroup t)
  end.

(** [args.match(/\((.*?)\)/)] : the group of the leftmost match. *)
Fixpoint firstParenGroup (s : string) : option string :=
  match s with
  | EmptyString => None
  | String c t =>
      if Ascii.eqb c "(" then
        match lazyGroup t with
        | Some g => Some g
        | None => firstParenGroup t
        end
      else firstParenGroup t
  end.

Record APIParameter : Type := {
  param_name : string;
  param_type : string;
  param_description : string;
  param_optional : bool;
  param_defaultValue : option string
}.

Definition untypedParameter (name : string) : APIParameter :=
  {| param_name := name; param_type := "unknown"; param_description := "";
     param_optional := false; param_defaultValue := None |}.

(** [parseParameters(args)] ; a missing [arguments] field is [None]. *)
Definition parseParameters (args : option string) : list APIParameter :=
  match args with
  | None => []
  | Some a =>
      if String.eqb a "" || String.eqb a "()" then []
      else match firstParenGroup a with
           | None => []
           | Some group => untypedParameter <$> (trim <$> split "," group)
           end
  end.

(** An element of [snippet_dataset.json] : every field may be missing. *)
Record RawSnippet : Type := {
  raw_title : option string;
  raw_description : option string;
  raw_category : option string;
  raw_tags : option (list string);
  raw_code : option string;
  raw_relatedAPIs : option (list string);
  raw_relatedComponents : option (list string);
  raw_difficulty : option string
}.

(** [field || fallback] on a string field: missing and empty are falsy. *)
Definition orString (field : option string) (fallback : string) : string :=
  match field with
  | Some s => if String.eqb s "" then fallback else s
  | None => fallback
  end.

(** The body of the [map] in [transformSnippets] ; [slugify] of a missing
    title throws. *)
Definition transformSnippet (snippet : RawSnippet) : option CodeSnippet :=
  match raw_title snippet with
  | None => None
  | Some t =>
      Some {| snip_id := slugify t;
              title := orString (raw_title snippet) "";
              snip_description := orString (raw_description snippet) "";
              category := orString (raw_category snippet) "All";
              tags := default [] (raw_tags snippet);
              code := cleanCode (orString (raw_code snippet) "");
              relatedAPIs := default [] (raw_relatedAPIs snippet);
              relatedComponents := default [] (raw_relatedComponents snippet);
              difficulty := orString (raw_difficulty snippet) "intermediate" |}
  end.

(** [transformSnippets(data)] on an array; [None] when it throws. *)
Definition transformSnippets (data : list RawSnippet) : option (list CodeSnippet) :=
  mapM transformSnippet data.

(** ** Exact queries with related items, and the snippet tools *)

Record EnrichedResult (A : Type) : Type := { result : A; related : list string }.
Arguments result {A} _.
Arguments related {A} _.

Definition queryUIPropertyEnriched (st : Loader) (componentProperty : string)
    : option (EnrichedResult UIComponentProperty) :=
  match queryUIProperty st componentProperty with
  | None => None
  | Some r =>
      Some {| result := r; related := getRelatedItems st (normalizeQuery componentProperty) 5 |}
  end.

Definition queryScriptingAPIEnriched (st : Loader) (apiCall : string)
    : option (EnrichedResult ScriptingAPIMethod) :=
  match queryScriptingAPI st apiCall with
  | None => None
  | Some r => Some {| result := r; related := getRelatedItems st (normalizeQuery apiCall) 5 |}
  end.

Definition queryModuleParameterEnriched (st : Loader) (moduleParameter : string)
    : option (EnrichedResult ModuleParameter) :=
  match queryModuleParameter st moduleParameter with
  | None => None
  | Some r =>
      Some {| result := r; related := getRelatedItems st (normalizeQuery moduleParameter) 5 |}
  end.

Record SnippetSummary : Type := {
  sum_id : string;
  sum_title : string;
  sum_description : string;
  sum_category : string;
  sum_tags : list string;
  sum_difficulty : string
}.

Definition summaryOf (snippet : CodeSnippet) : SnippetSummary :=
  {| sum_id := snip_id snippet; sum_title := title snippet;
     sum_description := snip_description snippet; sum_category := category snippet;
     sum_tags := tags snippet; sum_difficulty := difficulty snippet |}.

(** [listSnippets()] *)
Definition listSnippets (fs : Env) (st : Loader) : Loader * list SnippetSummary :=
  let st := ensureSnippetsLoaded fs st in
  (st, match data st with
       | None => []
       | Some d => summaryOf <$> codeSnippets d
       end).

(** The fallback test of [getSnippet]. *)
Definition snippetMatches (id : string) (snippet : CodeSnippet) : bool :=
  String.eqb (snip_id snippet) id
  || includes (snip_id snippet) id
  || includes (toLowerCase (title snippet)) (toLowerCase id).

(** [getSnippet(id)] *)
Definition getSnippet (fs : Env) (st : Loader) (id : string) : Loader * option CodeSnippet :=
  let st := ensureSnippetsLoaded fs st in
  (st, match data st with
       | None => None
       | Some d =>
           match snippetIndex st !! id with
           | Some direct => Some direct
           | None => find (snippetMatches id) (codeSnippets d)
           end
       end).

(** [getSnippetEnriched(id)] *)
Definition getSnippetEnriched (fs : Env) (st : Loader) (id : string)
    : Loader * option (EnrichedResult CodeSnippet) :=
  let '(st, found) := getSnippet fs st id in
  (st, match found with
       | None => None
       | Some r => Some {| result := r; related := getRelatedItems st (snip_id r) 5 |}
       end).

(** The [options] of [listSnippetsFiltered]. *)
Record SnippetFilter : Type := {
  by_category : option string;
  by_difficulty : option string;
  by_tags : option (list string)
}.

(** [if (options?.category)] : a missing and an empty string do not filter. *)
Definition givenString (field : option string) : option string :=
  match field with
  | Some s => if String.eqb s "" then None else Some s
  | None => None
  end.

(** [options?.tags && options.tags.length > 0] *)
Definition givenTags (field : option (list string)) : option (list string) :=
  match field with
  | Some (t :: ts) => Some (t :: ts)
  | _ => None
  end.

Definition keepCategory (c : option string) (s : CodeSnippet) : bool :=
  match givenString c with
  | Some wanted => String.eqb (toLowerCase (category s)) (toLowerCase wanted)
  | None => true
  end.

Definition keepDifficulty (d : option string) (s : CodeSnippet) : bool :=
  match givenString d with
  | Some wanted => String.eqb (difficulty s) wanted
  | None => true
  end.

Definition keepTags (ts : option (list string)) (s : CodeSnippet) : bool :=
  match givenTags ts with
  | Some wanted =>
      let searchTags := toLowerCase <$> wanted in
      existsb (fun t => bool_decide (toLowerCase t ∈ searchTags)) (tags s)
  | None => true
  end.

(** [listSnippetsFiltered(options)] *)
Definition listSnippetsFiltered (fs : Env) (st : Loader) (options : option SnippetFilter)
    : Loader * list SnippetSummary :=
  let st := ensureSnippetsLoaded fs st in
  (st, match data st with
       | None => []
       | Some d =>
           let snippets := codeSnippets d in
           let snippets := List.filter (keepCategory (options ≫= by_category)) snippets in
           let snippets := List.filter (keepDifficulty (options ≫= by_difficulty)) snippets in
           let snippets := List.filter (keepTags (options ≫= by_tags)) snippets in
           summaryOf <$> snippets
       end).

(** ** The tool [search_hise] (the request handler of src/index.ts)

    The JSON text of a response is left out; a response is one of the four
    the handler can build. *)

Inductive SearchResponse : Type :=
| FoundResults (resultCount : nat) (results : list SearchResult)
| DidYouMean (suggestions : list string)
| NoResultsFound
| ErrorResponse (message : string).

(** [Math.min(Math.max(1, limit), 50)] *)
Definition clampLimit (limit : Z) : Z := Z.min (Z.max 1 limit) 50.

(** The case ['search_hise'] inside the handler's [try]/[catch] ; [domain]
    and [limit] are optional arguments with defaults ['all'] and 10. *)
Definition searchHise (fs : Env) (st : Loader) (query : string)
    (domain : option SearchDomain) (limit : option Z) : Loader * outcome SearchResponse :=
  let domain := default D_all domain in
  let limit := default 10 limit in
  let clampedLimit := clampLimit limit in
  let '(st, found) := search fs st query domain clampedLimit in
  match found with
  | Throws message => (st, Returns (ErrorResponse message))
  | NotModelled => (st, NotModelled)
  | Returns results =>
      if (length results =? 0)%nat then
        let '(st, suggestions) := findSimilar fs st query 5 (Some domain) in
        if (0 <? length suggestions)%nat then (st, Returns (DidYouMean suggestions))
        else (st, Returns NoResultsFound)
      else (st, Returns (FoundResults (length results) results))
  end.

(** ** The shape of a slug *)

(** Only [a-z0-9] and single hyphens; [prev] tells that the code unit before
    was a hyphen (or that [s] is the start, where no hyphen may stand). *)
Fixpoint singleHyphens (prev : bool) (s : string) : bool :=
  match s with
  | EmptyString => true
  | String c t =>
      if Ascii.eqb c "-" then negb prev && singleHyphens true t
      else isAlnumLower c && singleHyphens false t
  end.

(** The same, and no hyphen at the end. *)
Fixpoint slugBody (prev : bool) (s : string) : bool :=
  match s with
  | EmptyString => negb prev
  | String c t =>
      if Ascii.eqb c "-" then negb prev && slugBody true t
      else isAlnumLower c && slugBody false t
  end.

(** Words of [a-z0-9] joined by single hyphens; the empty string is one. *)
Definition isSlug (s : string) : bool :=
  match s with
  | EmptyString => true
  | _ => slugBody true s
  end.

(** Two queries that differ in letter case only. *)
Definition sameUpToCase (q1 q2 : string) : Prop := toLowerCase q1 = toLowerCase q2.

(** ** The indexes as a function of the data *)

Definition propertyKey (prop : UIComponentProperty) : string :=
  toLowerCase (dotted (componentType prop) (propertyName prop)).

Definition methodKey (method : ScriptingAPIMethod) : string :=
  toLowerCase (dotted (namespace method) (methodName method)).

Definition parameterKey (param : ModuleParameter) : string :=
  toLowerCase (dotted (moduleType param) (parameterId param)).

(** The catalog entries that [buildIndexes] and [ensureSnippetsLoaded] push. *)
Definition propertyItem (prop : UIComponentProperty) : Item :=
  {| item_id := propertyKey prop; item_domain := D_ui;
     item_name := dotted (componentType prop) (propertyName prop);
     item_description := ui_description prop;
     item_keywords :=
       extractKeywords [propertyName prop; ui_description prop; componentType prop] |}.

Definition methodItem (method : ScriptingAPIMethod) : Item :=
  {| item_id := methodKey method; item_domain := D_api;
     item_name := dotted (namespace method) (methodName method);
     item_description := api_description method;
     item_keywords :=
       extractKeywords [methodName method; api_description method; namespace method] |}.

Definition parameterItem (param : ModuleParameter) : Item :=
  {| item_id := parameterKey param; item_domain := D_modules;
     item_name := dotted (moduleType param) (parameterId param);
     item_description := mod_description param;
     item_keywords :=
       extractKeywords [parameterId param; mod_description param; moduleType param] |}.

Definition snippetItem (snippet : CodeSnippet) : Item :=
  {| item_id := snip_id snippet; item_domain := D_snippets;
     item_name := title snippet;
     item_description := snip_description snippet;
     item_keywords :=
       extractKeywords
         (title snippet :: snip_description snippet :: category snippet :: tags snippet) |}.

(** The loader that [buildIndexes] makes of [d] from scratch, with the
    snippets of [d] indexed after that when [withSnippets] is set. *)
Definition indexesOf (d : HISEData) (withSnippets : bool) : Loader :=
  let st := buildIndexes (setData (Some d) newLoader) in
  if withSnippets then setSnippetsLoaded true (foldl indexSnippet st (codeSnippets d))
  else st.

(** The last element of [l] that satisfies [p] : what a [Map] holds under a
    key after [set] was called for the elements of [l] in order. *)
Fixpoint findLast {A : Type} (p : A → bool) (l : list A) : option A :=
  match l with
  | [] => None
  | x :: l' =>
      match findLast p l' with
      | Some y => Some y
      | None => if p x then Some x else None
      end
  end.

(** [k] is a key of the dictionary of [domain]. *)
Definition hasKey (st : Loader) (domain : SearchDomain) (k : string) : Prop :=
  match domain with
  | D_api => is_Some (apiMethodIndex st !! k)
  | D_ui => is_Some (propertyIndex st !! k)
  | D_modules => is_Some (parameterIndex st !! k)
  | D_snippets => is_Some (snippetIndex st !! k)
  | D_all => False
  end.

(** ** The tools [get_snippet] and [list_*] (the request handler) *)

Inductive SnippetResponse : Type :=
| SnippetFound (enriched : EnrichedResult CodeSnippet)
| SimilarSnippets (similarIds : list string)
| NoSnippetFound.

(** The filter of the fallback of ['get_snippet']. *)
Definition similarSnippet (id : string) (s : SnippetSummary) : bool :=
  includes (sum_id s) id || includes (toLowerCase (sum_title s)) (toLowerCase id).

(** The case ['get_snippet']. *)
Definition getSnippetTool (fs : Env) (st : Loader) (id : string) : Loader * SnippetResponse :=
  let '(st, enriched) := getSnippetEnriched fs st id in
  match enriched with
  | Some e => (st, SnippetFound e)
  | None =>
      let '(st, allSnippets) := listSnippets fs st in
      let similarIds := sum_id <$> slice0 (List.filter (similarSnippet id) allSnippets) 3 in
      if (0 <? length similarIds)%nat then (st, SimilarSnippets similarIds)
      else (st, NoSnippetFound)
  end.

(** The order of the default comparator of [Array.prototype.sort] on
    strings: by code units, a proper prefix first. *)
Fixpoint stringLtb (a b : string) : bool :=
  match a, b with
  | _, EmptyString => false
  | EmptyString, String _ _ => true
  | String x a', String y b' =>
      (JsString.code x <? JsString.code y)%N
      || ((JsString.code x =? JsString.code y)%N && stringLtb a' b')
  end.

Fixpoint insertString (x : string) (l : list string) : list string :=
  match l with
  | [] => [x]
  | y :: l' => if stringLtb x y then x :: y :: l' else y :: insertString x l'
  end.

(** [l.sort()] on strings. *)
Definition sortStrings (l : list string) : list string := foldr insertString [] l.

(** [[...new Set(l)]] *)
Definition distinct (l : list string) : list string := foldl (fun s x => setAdd x s) [] l.

(** The [components], [namespaces] and [modules] arrays of the cases
    ['list_ui_components'], ['list_scripting_namespaces'] and
    ['list_module_types'] ; [count] is their length. *)
Definition listUiComponents (st : Loader) : list string :=
  sortStrings (distinct (default [] ((fun d => componentType <$> uiComponentProperties d)
                                       <$> data st))).

Definition listScriptingNamespaces (st : Loader) : list string :=
  sortStrings (distinct (default [] ((fun d => namespace <$> scriptingAPI d) <$> data st))).

Definition listModuleTypes (st : Loader) : list string :=
  sortStrings (distinct (default [] ((fun d => moduleType <$> moduleParameters d)
                                       <$> data st))).

(** Every element is below the ones after it. *)
Fixpoint ascending (l : list string) : Prop :=
  match l with
  | [] => True
  | x :: l' => Forall (fun y => stringLtb x y = true) l' ∧ ascending l'
  end.

(** ** The tools [query_ui_property], [query_scripting_api] and
    [query_module_parameter] (the request handler) *)

Inductive QueryResponse (A : Type) : Type :=
| RecordFound (enriched : EnrichedResult A)
| DidYouMeanRecord (suggestions : list string)
| NoRecordFound.
Arguments RecordFound {A} enriched.
Arguments DidYouMeanRecord {A} suggestions.
Arguments NoRecordFound {A}.

(** What the three cases do with the enriched record, or without one. *)
Definition answerQuery {A : Type} (enriched : option (EnrichedResult A)) (fs : Env)
    (st : Loader) (query : string) (domain : SearchDomain) : Loader * QueryResponse A :=
  match enriched with
  | Some e => (st, RecordFound e)
  | None =>
      let '(st, suggestions) := findSimilar fs st query 3 (Some domain) in
      if (0 <? length suggestions)%nat then (st, DidYouMeanRecord suggestions)
      else (st, NoRecordFound)
  end.

Definition queryUiPropertyTool (fs : Env) (st : Loader) (componentProperty : string)
    : Loader * QueryResponse UIComponentProperty :=
  answerQuery (queryUIPropertyEnriched st componentProperty) fs st componentProperty D_ui.

Definition queryScriptingApiTool (fs : Env) (st : Loader) (apiCall : string)
    : Loader * QueryResponse ScriptingAPIMethod :=
  answerQuery (queryScriptingAPIEnriched st apiCall) fs st apiCall D_api.

Definition queryModuleParameterTool (fs : Env) (st : Loader) (moduleParameter : string)
    : Loader * QueryResponse ModuleParameter :=
  answerQuery (queryModuleParameterEnriched st moduleParameter) fs st moduleParameter
    D_modules.

(** ** Wildcard queries as glob patterns *)

(** The characters that a pattern takes literally: all but
    [\ [ ( ) | * + ? . ^ $ {]. *)
Definition isPlain (c : ascii) : bool :=
  negb (includes "\[()|*+?.^${" (String c EmptyString)).

(** A plain character, [*] or [.]. *)
Definition isGlobChar (c : ascii) : bool :=
  isPlain c || Ascii.eqb c "*" || Ascii.eqb c ".".

(** Glob matching of the whole of [s] : [*] stands for any run of code
    units without a line terminator, [.] for one code unit that is no line
    terminator, any other character for itself up to letter case. *)
Fixpoint glob (pat s : string) : bool :=
  match pat with
  | EmptyString => match s with EmptyString => true | _ => false end
  | String a pat' =>
      if Ascii.eqb a "*" then
        (fix skip (s : string) : bool :=
           glob pat' s
           || match s with
              | String c t => negb (isLineTerminator c) && skip t
              | EmptyString => false
              end) s
      else
        match s with
        | EmptyString => false
        | String c t =>
            (if Ascii.eqb a "." then negb (isLineTerminator c) else sameCanonical a c)
            && glob pat' t
        end
  end.

(** What the scanner and the parser make of one character of a query, once
    [*] is replaced by [.*]. *)
Definition globTokens (c : ascii) : list token :=
  if Ascii.eqb c "*" then [TAtom RAny; TStar]
  else if Ascii.eqb c "." then [TAtom RAny]
  else [TAtom (RChar c)].

Definition globTerm (c : ascii) : regex :=
  if Ascii.eqb c "*" then RStar RAny
  else if Ascii.eqb c "." then RAny
  else RChar c.

(** The regular expression of a wildcard query: the terms of its
    characters between [^] and [$]. *)
Definition globRegex (normalized : string) : regex :=
  RSeq RBol
    (foldr (fun c r => RSeq (globTerm c) r) (RSeq REol REmpty)
       (String.list_ascii_of_string normalized)).

(** * Properties *)

(** ** Characters and strings *)

Section Characters.

Local Ltac by_cases c := destruct c as [[] [] [] [] [] [] [] []]; vm_compute; reflexivity.

Lemma toLowerChar_idem c : toLowerChar (toLowerChar c) = toLowerChar c.
Proof. by_cases c. Qed.

Lemma toLowerChar_open c : Ascii.eqb (toLowerChar c) "(" = Ascii.eqb c "(".
Proof. by_cases c. Qed.

Lemma toLowerChar_close c : Ascii.eqb (toLowerChar c) ")" = Ascii.eqb c ")".
Proof. by_cases c. Qed.

Lemma toLowerChar_lineTerminator c :
  isLineTerminator (toLowerChar c) = isLineTerminator c.
Proof. by_cases c. Qed.

Lemma toLowerChar_whiteSpace c : isWhiteSpace (toLowerChar c) = isWhiteSpace c.
Proof. by_cases c. Qed.

Lemma whiteSpace_not_open c : isWhiteSpace c = true → Ascii.eqb c "(" = false.
Proof. destruct c as [[] [] [] [] [] [] [] []]; vm_compute; congruence. Qed.

End Characters.

Lemma toLowerCase_idem s : toLowerCase (toLowerCase s) = toLowerCase s.
Proof. induction s as [|c s IH]; simpl; [done|]. by rewrite toLowerChar_idem, IH. Qed.

Lemma toLowerCase_trimStart s : toLowerCase (trimStart s) = trimStart (toLowerCase s).
Proof.
  induction s as [|c s IH]; simpl; [done|].
  rewrite toLowerChar_whiteSpace. by destruct (isWhiteSpace c).
Qed.

Lemma trimStart_idem s : trimStart (trimStart s) = trimStart s.
Proof.
  induction s as [|c s IH]; simpl; [done|].
  destruct (isWhiteSpace c) eqn:E; [done|]. simpl. by rewrite E.
Qed.

Lemma trimEnd_id s : endsWithWhiteSpace s = false → trimEnd s = s.
Proof.
  induction s as [|c s IH]; simpl; [done|].
  destruct s as [|c' s'].
  - simpl. by intros ->.
  - intros H. rewrite (IH H). done.
Qed.

Lemma endsWithWhiteSpace_trimStart s :
  endsWithWhiteSpace s = false → endsWithWhiteSpace (trimStart s) = false.
Proof.
  induction s as [|c s IH]; [done|].
  intros H. cbn [trimStart]. destruct (isWhiteSpace c) eqn:E; [|done].
  apply IH. destruct s; [done|]. exact H.
Qed.

Lemma endsWithWhiteSpace_toLowerCase s :
  endsWithWhiteSpace (toLowerCase s) = endsWithWhiteSpace s.
Proof.
  induction s as [|c s IH]; [done|].
  destruct s as [|c' s']; simpl in *.
  - apply toLowerChar_whiteSpace.
  - exact IH.
Qed.

(** ** Query normalisation *)

Lemma argsTail_nonempty t : argsTail t = true → t ≠ EmptyString.
Proof. by destruct t. Qed.

Lemma argsTail_cons c t :
  t ≠ EmptyString → argsTail (String c t) = negb (isLineTerminator c) && argsTail t.
Proof. by destruct t. Qed.

Lemma argsTail_toLowerCase t : argsTail (toLowerCase t) = argsTail t.
Proof.
  induction t as [|c t IH]; [done|].
  destruct t as [|c' t'].
  - simpl. apply toLowerChar_close.
  - change (toLowerCase (String c (String c' t')))
      with (String (toLowerChar c) (toLowerCase (String c' t'))).
    rewrite !argsTail_cons by done. by rewrite IH, toLowerChar_lineTerminator.
Qed.

Lemma stripArgs_toLowerCase s : stripArgs (toLowerCase s) = toLowerCase (stripArgs s).
Proof.
  induction s as [|c s IH]; simpl; [done|].
  rewrite toLowerChar_open, argsTail_toLowerCase.
  destruct (Ascii.eqb c "(" && argsTail s); simpl; [done|]. by rewrite IH.
Qed.

(** A cut leaves nothing that the pattern matches up to the end. *)
Lemma argsTail_stripArgs t : argsTail (stripArgs t) = true → argsTail t = true.
Proof.
  induction t as [|c t IH]; [done|].
  cbn [stripArgs].
  destruct (Ascii.eqb c "(" && argsTail t) eqn:E; [done|].
  destruct (stripArgs t) as [|c' u] eqn:Eu.
  - intros Hc. cbn [argsTail] in Hc. destruct t as [|c2 t2]; [done|].
    cbn [stripArgs] in Eu. destruct (Ascii.eqb c2 "(" && argsTail t2) eqn:E2; [|done].
    apply andb_true_iff in E2 as [Hc2 Ht2].
    apply Ascii.eqb_eq in Hc2 as ->. apply Ascii.eqb_eq in Hc as ->.
    rewrite (argsTail_cons ")") by done.
    rewrite (argsTail_cons "(") by by apply argsTail_nonempty.
    by rewrite Ht2.
  - rewrite (argsTail_cons c) by done. intros [Hc Hu]%andb_true_iff.
    specialize (IH Hu). rewrite (argsTail_cons c) by by apply argsTail_nonempty.
    by rewrite Hc, IH.
Qed.

Lemma stripArgs_idem s : stripArgs (stripArgs s) = stripArgs s.
Proof.
  induction s as [|c s IH]; simpl; [done|].
  destruct (Ascii.eqb c "(" && argsTail s) eqn:E; [done|].
  simpl. rewrite IH.
  destruct (Ascii.eqb c "(") eqn:Ec; [|done]. simpl in *.
  destruct (argsTail (stripArgs s)) eqn:Ea; [|done].
  apply argsTail_stripArgs in Ea. congruence.
Qed.

Lemma stripEmptyParens_fixed s : stripArgs s = s → stripEmptyParens s = s.
Proof.
  induction s as [|c s IH]; simpl; [done|].
  destruct (Ascii.eqb c "(" && argsTail s) eqn:E; [done|].
  intros [= Hs]. rewrite (IH Hs).
  destruct (Ascii.eqb c "(") eqn:Ec; [|done]. simpl in *.
  destruct (String.eqb s ")") eqn:Es; [|done].
  apply String.eqb_eq in Es as ->. done.
Qed.

Lemma stripArgs_trimStart s : stripArgs s = s → stripArgs (trimStart s) = trimStart s.
Proof.
  induction s as [|c s IH]; [done|].
  intros H. cbn [trimStart]. destruct (isWhiteSpace c) eqn:E; [|done].
  apply IH. simpl in H. rewrite (whiteSpace_not_open _ E) in H. simpl in H. congruence.
Qed.

(** A string that the two replacements, the lower-casing and the trimming
    all leave alone. *)
Lemma normalizeQuery_fixed z :
  stripArgs z = z → toLowerCase z = z → trimStart z = z → endsWithWhiteSpace z = false →
  normalizeQuery z = z.
Proof.
  intros H1 H2 H3 H4. unfold normalizeQuery, trim.
  rewrite (stripEmptyParens_fixed _ H1), H1, H2, H3. by apply trimEnd_id.
Qed.




(** ** Similarity scorer *)

Lemma Qmax_absorb s v : Qmax (Qmax s v) v = Qmax s v.
Proof.
  unfold Qmax, GenericMinMax.gmax.
  destruct (s ?= v)%Q eqn:E; [by rewrite E| |by rewrite E].
  by rewrite (proj1 (Qeq_alt v v) (Qeq_refl v)).
Qed.

(** A loop of conditional upgrades to [v] is one upgrade if some element
    passes the test. *)
Lemma foldl_upgrade {X : Type} (p : X → bool) (v : Q) (l : list X) (s : Q) :
  foldl (fun score x => if p x then Qmax score v else score) s l
  = if existsb p l then Qmax s v else s.
Proof.
  revert s. induction l as [|x l IH]; intros s; simpl; [done|].
  rewrite IH. destruct (p x); simpl; [|done].
  rewrite Qmax_absorb. by destruct (existsb p l).
Qed.

Lemma foldl_upgrade_nested {X Y : Type} (p : X → Y → bool) (v : Q) (xs : list X)
    (ys : list Y) (s : Q) :
  foldl (fun score x => foldl (fun score y => if p x y then Qmax score v else score) score ys)
        s xs
  = if existsb (fun x => existsb (p x) ys) xs then Qmax s v else s.
Proof.
  revert s. induction xs as [|x xs IH]; intros s; simpl; [done|].
  rewrite IH, foldl_upgrade. destruct (existsb (p x) ys); simpl; [|done].
  rewrite Qmax_absorb. by destruct (existsb _ xs).
Qed.

(** C6.  The scorer returns the maximum of the rules that apply: 1.0 when id
    or name equals the query, otherwise the largest of 0.8 (prefix), 0.6
    (substring), 0.5 (a segment of the query inside a segment of the id) and
    0.4 (a query token among the keywords), and 0.0 when none applies.  The
    value is one of these six numbers, never a sum, and lies in [0,1]. *)
Theorem calculateSimilarity_is_max_rule (query id name : string) (keywords : list string) :
  calculateSimilarity query id name keywords = similarity_spec query id name keywords
  ∧ calculateSimilarity query id name keywords ∈ [0%Q; 0.4%Q; 0.5%Q; 0.6%Q; 0.8%Q; 1.0%Q]
  ∧ (0 <= calculateSimilarity query id name keywords <= 1)%Q.
Proof.
  unfold calculateSimilarity, similarity_spec, applicableRules.
  rewrite foldl_upgrade, foldl_upgrade_nested.
  destruct (String.eqb id query || String.eqb name query).
  { split; [done|]. split; [set_solver|]. split; by vm_compute. }
  destruct (startsWith id query || startsWith name query);
    destruct (includes id query || includes name query);
    destruct (existsb _ (split "." query));
    destruct (existsb _ (extractKeywords [query]));
    (split; [by vm_compute|]); (split; [vm_compute; set_solver|]);
    split; by vm_compute.
Qed.

(** ** Cache manager *)

Lemma loadCache_true_inv fs st st' :
  loadCache fs st = (st', true) →
  ∃ cache, cacheFile fs = CacheJson cache
    ∧ version cache = Some CACHE_VERSION
    ∧ uiMtime cache = Some (getFileMtime fs UiFile)
    ∧ apiMtime cache = Some (getFileMtime fs ApiFile)
    ∧ procMtime cache = Some (getFileMtime fs ProcFile).
Proof.
  unfold loadCache. destruct (cacheFile fs) as [| |cache]; [done..|].
  repeat case_bool_decide; simpl; try done.
  intros _. by exists cache.
Qed.

Lemma loadCache_false_inv fs st st' : loadCache fs st = (st', false) → st' = st.
Proof.
  unfold loadCache. destruct (cacheFile fs) as [| |cache]; [congruence..|].
  destruct (_ || _); congruence.
Qed.



(** ** Sorting and slicing *)

Section SortFacts.
Context {A : Type} (sc : A → Q).

Lemma insertByScore_perm x l : insertByScore sc x l ≡ₚ x :: l.
Proof.
  induction l as [|y l IH]; simpl; [done|].
  destruct (Qle_bool (sc y) (sc x)); [done|].
  rewrite IH. apply Permutation_swap.
Qed.

Lemma sortByScore_perm l : sortByScore sc l ≡ₚ l.
Proof.
  induction l as [|x l IH]; simpl; [done|].
  by rewrite insertByScore_perm, IH.
Qed.

Lemma insertByScore_descending x l :
  descending sc l → descending sc (insertByScore sc x l).
Proof.
  induction l as [|y l IH]; simpl; [by split|].
  intros [Hy Hl].
  destruct (Qle_bool (sc y) (sc x)) eqn:E.
  - apply Qle_bool_iff in E. simpl. split; [|by split].
    constructor; [done|]. eapply Forall_impl; [exact Hy|].
    intros z Hz. simpl in Hz. by eapply Qle_trans.
  - simpl. split; [|by apply IH].
    rewrite insertByScore_perm. constructor; [|done].
    destruct (Qlt_le_dec (sc x) (sc y)) as [Hlt|Hle]; [by apply Qlt_le_weak|].
    apply Qle_bool_iff in Hle. congruence.
Qed.

Lemma sortByScore_descending l : descending sc (sortByScore sc l).
Proof.
  induction l as [|x l IH]; simpl; [done|]. by apply insertByScore_descending.
Qed.

Lemma descending_sorted l : descending sc l → sortedByScore sc l.
Proof.
  induction l as [|x l IH]; intros Hd i j a b Hi Hj Hlt.
  - done.
  - destruct Hd as [Hx Hl]. destruct j as [|j]; [lia|]. simpl in Hj.
    destruct i as [|i]; simpl in Hi.
    + injection Hi as ->. rewrite Forall_forall in Hx.
      apply Hx. by eapply list_elem_of_lookup_2.
    + eapply (IH Hl i j); [done..|lia].
Qed.

Lemma sortedByScore_take n l : sortedByScore sc l → sortedByScore sc (take n l).
Proof.
  intros H i j a b Hi Hj Hlt.
  apply lookup_take_Some in Hi as [Hi _]. apply lookup_take_Some in Hj as [Hj _].
  by eapply (H i j).
Qed.

(** Equal scores stay in their order: the sort moves an element only past
    elements of strictly smaller score. *)
Lemma filter_insertByScore v x l :
  List.filter (fun y => Qeq_bool (sc y) v) (insertByScore sc x l)
  = List.filter (fun y => Qeq_bool (sc y) v) (x :: l).
Proof.
  induction l as [|y l IH]; [done|].
  cbn [insertByScore]. destruct (Qle_bool (sc y) (sc x)) eqn:E; [done|].
  cbn [List.filter] in *. rewrite IH.
  destruct (Qeq_bool (sc x) v) eqn:Ex; [|done].
  destruct (Qeq_bool (sc y) v) eqn:Ey; [|done].
  apply Qeq_bool_iff in Ex, Ey.
  assert (Hle : (sc y <= sc x)%Q) by (rewrite Ex, Ey; apply Qle_refl).
  apply Qle_bool_iff in Hle. congruence.
Qed.

Lemma filter_sortByScore v l :
  List.filter (fun y => Qeq_bool (sc y) v) (sortByScore sc l)
  = List.filter (fun y => Qeq_bool (sc y) v) l.
Proof.
  induction l as [|x l IH]; [done|].
  cbn [sortByScore foldr]. rewrite filter_insertByScore.
  cbn [List.filter]. fold (sortByScore sc l). by rewrite IH.
Qed.

Lemma filter_take_prefix (p : A → bool) n l :
  List.filter p (take n l) `prefix_of` List.filter p l.
Proof.
  revert n. induction l as [|x l IH]; intros [|n]; simpl; try by apply prefix_nil.
  destruct (p x); [by apply prefix_cons|done].
Qed.

Lemma tiesInOrderOf_sorted_take n l : tiesInOrderOf sc l (take n (sortByScore sc l)).
Proof. intros v. rewrite <- (filter_sortByScore v l). apply filter_take_prefix. Qed.

Lemma tiesInOrderOf_take n l : tiesInOrderOf sc l (take n l).
Proof. intros v. apply filter_take_prefix. Qed.

(** A first element of maximal score stays first. *)
Lemma sortByScore_head x l :
  Forall (fun y => (sc y <= sc x)%Q) l →
  ∃ l', sortByScore sc (x :: l) = x :: l'.
Proof.
  intros H. cbn [sortByScore foldr]. fold (sortByScore sc l).
  assert (H' : Forall (fun y => (sc y <= sc x)%Q) (sortByScore sc l)).
  { by rewrite sortByScore_perm. }
  destruct (sortByScore sc l) as [|y l']; simpl; [by eexists|].
  apply Forall_cons_1 in H' as [Hy _]. apply Qle_bool_iff in Hy.
  rewrite Hy. by eexists.
Qed.

(** Equal scores throughout: already sorted. *)
Lemma constant_sorted v l : Forall (fun y => sc y = v) l → sortedByScore sc l.
Proof.
  intros H i j a b Hi Hj _. rewrite Forall_forall in H.
  rewrite (H a), (H b); [apply Qle_refl|by eapply list_elem_of_lookup_2..].
Qed.
End SortFacts.

Lemma slice0_take {A : Type} (l : list A) (e : Z) :
  ∃ n, slice0 l e = take n l ∧ (0 <= e → n = Z.to_nat e).
Proof.
  unfold slice0. destruct (e <? 0) eqn:E.
  - eexists. split; [done|]. lia.
  - eexists. split; [done|]. done.
Qed.

Lemma slice0_length {A : Type} (l : list A) (e : Z) :
  0 <= e → Z.of_nat (length (slice0 l e)) <= e.
Proof.
  intros He. destruct (slice0_take l e) as (n & -> & Hn).
  rewrite length_take. rewrite (Hn He). lia.
Qed.

Lemma slice0_nonneg {A : Type} (l : list A) (e : Z) :
  0 <= e → slice0 l e = take (Z.to_nat e) l.
Proof. intros He. unfold slice0. destruct (e <? 0) eqn:E; [lia|done]. Qed.

Lemma slice0_sublist {A : Type} (l : list A) (e : Z) : slice0 l e `sublist_of` l.
Proof. destruct (slice0_take l e) as (n & -> & _). apply sublist_take. Qed.

(** ** The stages of [search] *)

Lemma find_Some {A : Type} (p : A → bool) (l : list A) (x : A) :
  find p l = Some x → x ∈ l ∧ p x = true.
Proof.
  induction l as [|y l IH]; simpl; [done|].
  destruct (p y) eqn:E.
  - intros [= ->]. split; [left|done].
  - intros H. destruct (IH H). split; [by right|done].
Qed.

Lemma forOf_ind {X S : Type} (P : S → Prop) (body : S → X → S * bool) (xs : list X) (s : S) :
  (∀ s x, x ∈ xs → P s → P (body s x).1) → P s → P (forOf body xs s).
Proof.
  revert s. induction xs as [|x xs IH]; intros s Hstep Hs; simpl; [done|].
  destruct (body s x) as [s' leave] eqn:E.
  assert (Hs' : P s').
  { specialize (Hstep s x). rewrite E in Hstep. apply Hstep; [left|done]. }
  destruct leave; [done|].
  apply IH; [|done]. intros s0 x0 Hx0. apply Hstep. by right.
Qed.

Section Appended.
Context (items : list Item) (normalized : string).

Lemma appended_trans a b c :
  appended items normalized a b → appended items normalized b c →
  appended items normalized a c.
Proof.
  intros Hab Hbc. induction Hbc as [|b c item s m Hbc IH Hitem Hid Hs]; [done|].
  apply appended_push; auto.
Qed.

Lemma appended_one a item s m :
  item ∈ items → item_id item ∉ a.2 → stageScore normalized item m s →
  appended items normalized a (push a (resultOf item s m) (item_id item)).
Proof. intros. apply appended_push; [apply appended_none|done..]. Qed.

Lemma forOf_appended {X : Type} (body : acc → X → acc * bool) (xs : list X) (a : acc) :
  (∀ a x, x ∈ xs → appended items normalized a (body a x).1) →
  appended items normalized a (forOf body xs a).
Proof.
  intros Hbody.
  apply (forOf_ind (appended items normalized a)); [|constructor].
  intros s x Hx Hs. eapply appended_trans; [done|]. by apply Hbody.
Qed.

Lemma prefixStage_appended limit a a' :
  prefixStage items normalized limit a = Returns a' → appended items normalized a a'.
Proof.
  unfold prefixStage. destruct (includes normalized "*"); [|intros [= <-]; constructor].
  destruct (RegExp (wildcardPattern normalized)) as [regex| |] eqn:Hre; [|done..].
  intros [= <-]. apply forOf_appended. intros s item Hitem.
  unfold prefixBody. case_bool_decide; [constructor|].
  destruct (test regex (item_id item) || test regex (toLowerCase (item_name item))) eqn:Ht;
    [|constructor].
  simpl. apply appended_one; [done..|]. simpl. eauto.
Qed.

Lemma prefixStage_returns limit a :
  patternCompiles normalized → ∃ a', prefixStage items normalized limit a = Returns a'.
Proof.
  unfold prefixStage. intros [-> | [regex ->]]; [by eexists|].
  destruct (includes normalized "*"); by eexists.
Qed.

Lemma fuzzyStage_appended limit a :
  appended items normalized a (fuzzyStage items normalized limit a).
Proof.
  apply forOf_appended. intros s item Hitem.
  unfold fuzzyBody. case_bool_decide; [constructor|].
  destruct (Qle_bool _ _) eqn:Hs; [|constructor].
  simpl. apply appended_one; [done..|]. by split.
Qed.
End Appended.

Lemma mapIncrement_counts itemId m :
  Forall (fun e => 1 <= e.2) m → Forall (fun e => 1 <= e.2) (mapIncrement itemId m).
Proof.
  induction m as [|[k n] m IH]; simpl; intros H.
  - by constructor.
  - apply Forall_cons_1 in H as [Hn Hm]. simpl in Hn.
    destruct (String.eqb k itemId); constructor; simpl; try lia; try done.
    by apply IH.
Qed.

Lemma keywordMatches_counts st queryKeywords :
  Forall (fun e => 1 <= e.2) (keywordMatches st queryKeywords).
Proof.
  unfold keywordMatches.
  assert (H : ∀ init, Forall (fun e : string * Z => 1 <= e.2) init →
    Forall (fun e => 1 <= e.2)
      (foldl (fun m keyword =>
                match keywordIndex st !! keyword with
                | Some matches => foldl (fun m itemId => mapIncrement itemId m) m matches
                | None => m
                end) init queryKeywords)).
  { induction queryKeywords as [|kw kws IH]; intros init Hinit; simpl; [done|].
    apply IH. destruct (keywordIndex st !! kw) as [matches|]; [|done].
    clear IH. revert init Hinit.
    induction matches as [|id ids IH]; intros init Hinit; simpl; [done|].
    apply IH. by apply mapIncrement_counts. }
  apply H. constructor.
Qed.

Lemma keywordStage_appended st items normalized limit a :
  appended items normalized a (keywordStage st items normalized limit a).
Proof.
  unfold keywordStage. apply forOf_appended. intros s [itemId matchCount] Hentry.
  unfold keywordBody. case_bool_decide; [constructor|].
  destruct (find _ items) as [item|] eqn:Hfind; [|constructor].
  apply find_Some in Hfind as [Hitem Hid]. apply String.eqb_eq in Hid. subst itemId.
  simpl. apply appended_one; [done..|]. simpl.
  exists matchCount, (length (extractKeywords [normalized])). split; [|done].
  pose proof (keywordMatches_counts st (extractKeywords [normalized])) as Hc.
  rewrite Forall_forall in Hc. by apply (Hc _ Hentry).
Qed.

(** The [results] of [searchCollect] are those of the first stage followed
    by what the later stages appended. *)
Lemma searchCollect_appended st normalized domain limit point results :
  searchCollect st normalized domain limit = Returns (point, results) →
  ∃ a, appended (itemsToSearch st domain) normalized (exactStage st domain normalized) a
       ∧ a.1 = results
       ∧ (point = AfterExact → a = exactStage st domain normalized).
Proof.
  unfold searchCollect.
  destruct (reached (exactStage st domain normalized) limit).
  { intros [= <- <-]. eexists. split; [constructor|done]. }
  destruct (prefixStage _ normalized limit _) as [a2| |] eqn:H2; [|done..].
  apply prefixStage_appended in H2.
  destruct (reached a2 limit).
  { intros [= <- <-]. by exists a2. }
  pose proof (keywordStage_appended st (itemsToSearch st domain) normalized limit a2) as H3.
  destruct (reached (keywordStage _ _ _ _ a2) limit).
  { intros [= <- <-]. eexists. split; [by eapply appended_trans|done]. }
  intros [= <- <-]. eexists. split; [|done].
  eapply appended_trans; [by eapply appended_trans|]. apply fuzzyStage_appended.
Qed.

Lemma searchCollect_returns st normalized domain limit :
  patternCompiles normalized →
  ∃ point results, searchCollect st normalized domain limit = Returns (point, results).
Proof.
  intros Hp. unfold searchCollect.
  destruct (reached (exactStage st domain normalized) limit); [by eexists _, _|].
  destruct (prefixStage_returns (itemsToSearch st domain) normalized limit
              (exactStage st domain normalized) Hp) as [a2 ->].
  destruct (reached a2 limit); [by eexists _, _|].
  destruct (reached _ limit); by eexists _, _.
Qed.

(** The first stage: at most one hit per dictionary, in the order api, ui,
    modules, snippets; [seen] holds the query once something was found. *)
Lemma exactStage_shape st domain normalized :
  ∃ oa ou om os,
    oa = (if inDomain domain D_api then apiMethodIndex st !! normalized else None)
    ∧ ou = (if inDomain domain D_ui then propertyIndex st !! normalized else None)
    ∧ om = (if inDomain domain D_modules then parameterIndex st !! normalized else None)
    ∧ os = (if inDomain domain D_snippets then snippetIndex st !! normalized else None)
    ∧ (exactStage st domain normalized).1
      = option_list (apiResult <$> oa) ++ option_list (uiResult <$> ou)
        ++ option_list (moduleResult <$> om) ++ option_list (snippetResult <$> os)
    ∧ (∀ x, x ∈ (exactStage st domain normalized).2
            ↔ x = normalized ∧ (exactStage st domain normalized).1 ≠ []).
Proof.
  eexists _, _, _, _. do 4 (split; [reflexivity|]).
  unfold exactStage, push.
  destruct (if inDomain domain D_api then _ else _);
    destruct (if inDomain domain D_ui then _ else _);
    destruct (if inDomain domain D_modules then _ else _);
    destruct (if inDomain domain D_snippets then _ else _);
    simpl; (split; [done|]); intros x; set_solver.
Qed.

Lemma inDomain_eq domain d : domain ≠ D_all → inDomain domain d = true → d = domain.
Proof.
  unfold inDomain. intros Hd. repeat case_bool_decide; simpl; try done.
Qed.

Lemma exactStage_results st domain normalized r :
  r ∈ (exactStage st domain normalized).1 →
  score r = 1.0%Q ∧ matchType r = M_exact
  ∧ inDomain domain (res_domain r) = true
  ∧ normalized ∈ (exactStage st domain normalized).2
  ∧ ((∃ m, apiMethodIndex st !! normalized = Some m ∧ r = apiResult m)
     ∨ (∃ p, propertyIndex st !! normalized = Some p ∧ r = uiResult p)
     ∨ (∃ p, parameterIndex st !! normalized = Some p ∧ r = moduleResult p)
     ∨ (∃ s, snippetIndex st !! normalized = Some s ∧ r = snippetResult s)).
Proof.
  destruct (exactStage_shape st domain normalized)
    as (oa & ou & om & os & Ha & Hu & Hm & Hs & Hres & Hseen).
  intros Hr.
  assert (Hne : (exactStage st domain normalized).1 ≠ []).
  { intros E. rewrite E in Hr. by apply elem_of_nil in Hr. }
  rewrite (Hseen normalized). rewrite Hres in Hr.
  rewrite !elem_of_app in Hr.
  destruct Hr as [Hr|[Hr|[Hr|Hr]]].
  - destruct oa as [m|]; [|by apply elem_of_nil in Hr].
    apply list_elem_of_singleton in Hr as ->.
    destruct (inDomain domain D_api) eqn:E; [|done]. naive_solver.
  - destruct ou as [m|]; [|by apply elem_of_nil in Hr].
    apply list_elem_of_singleton in Hr as ->.
    destruct (inDomain domain D_ui) eqn:E; [|done]. naive_solver.
  - destruct om as [m|]; [|by apply elem_of_nil in Hr].
    apply list_elem_of_singleton in Hr as ->.
    destruct (inDomain domain D_modules) eqn:E; [|done]. naive_solver.
  - destruct os as [m|]; [|by apply elem_of_nil in Hr].
    apply list_elem_of_singleton in Hr as ->.
    destruct (inDomain domain D_snippets) eqn:E; [|done]. naive_solver.
Qed.

Lemma exactStage_domains st domain normalized :
  NoDup (res_domain <$> (exactStage st domain normalized).1).
Proof.
  destruct (exactStage_shape st domain normalized)
    as (oa & ou & om & os & _ & _ & _ & _ & -> & _).
  destruct oa, ou, om, os; simpl; repeat constructor; set_solver.
Qed.

(** ** Scores *)

Lemma calculateSimilarity_values query id name keywords :
  calculateSimilarity query id name keywords ∈ [0%Q; 0.4%Q; 0.5%Q; 0.6%Q; 0.8%Q; 1.0%Q].
Proof.
  unfold calculateSimilarity.
  rewrite foldl_upgrade, foldl_upgrade_nested.
  destruct (String.eqb id query || String.eqb name query); [set_solver|].
  destruct (startsWith id query || startsWith name query);
    destruct (includes id query || includes name query);
    destruct (existsb _ (split "." query));
    destruct (existsb _ (extractKeywords [query]));
    vm_compute; set_solver.
Qed.

Lemma calculateSimilarity_range query id name keywords :
  (0 <= calculateSimilarity query id name keywords <= 1)%Q.
Proof.
  pose proof (calculateSimilarity_values query id name keywords) as H.
  repeat (apply elem_of_cons in H as [->|H]); [split; by vm_compute..|].
  by apply elem_of_nil in H.
Qed.

Lemma keywordScore_range matchCount nKeywords :
  1 <= matchCount → (0 <= keywordScore matchCount nKeywords <= 1)%Q.
Proof.
  intros Hm. unfold keywordScore. split.
  - apply Q.min_glb; [by vm_compute|].
    assert (H : (0 <= inject_Z matchCount / inject_Z (Z.of_nat nKeywords))%Q).
    { destruct nKeywords as [|n].
      - unfold Qdiv, Qinv. simpl. rewrite Qmult_0_r. apply Qle_refl.
      - apply Qle_shift_div_l.
        + unfold Qlt. simpl. lia.
        + rewrite Qmult_0_l. unfold Qle. simpl. lia. }
    apply Qle_trans with (0.3 + 0 * 0.5)%Q; [by vm_compute|].
    apply Qplus_le_r. apply Qmult_le_compat_r; [done|by vm_compute].
  - eapply Qle_trans; [apply Q.le_min_l|by vm_compute].
Qed.

Lemma stageScore_range normalized item m s :
  stageScore normalized item m s → (0 <= s <= 1)%Q.
Proof.
  destruct m; simpl.
  - done.
  - intros [-> _]. split; by vm_compute.
  - intros (mc & n & Hmc & ->). by apply keywordScore_range.
  - intros [-> _]. apply calculateSimilarity_range.
Qed.

(** What holds of the first-stage results and of every appended entry holds
    of all results. *)
Lemma appended_Forall (P : SearchResult → Prop) items normalized a a' :
  appended items normalized a a' →
  (∀ item s m, item ∈ items → stageScore normalized item m s → P (resultOf item s m)) →
  Forall P a.1 → Forall P a'.1.
Proof.
  intros Happ HP. induction Happ as [|a a' item s m Happ IH Hitem Hid Hs]; [done|].
  intros Ha. simpl. apply Forall_app. split; [by apply IH|].
  constructor; [|constructor]. by apply HP.
Qed.

Lemma exactStage_scores st domain normalized :
  Forall (fun r => score r = 1.0%Q) (exactStage st domain normalized).1.
Proof.
  apply Forall_forall. intros r Hr. by apply exactStage_results in Hr as (? & _).
Qed.

Lemma searchCollect_scores st normalized domain limit point results :
  searchCollect st normalized domain limit = Returns (point, results) →
  Forall (fun r => (0 <= score r <= 1)%Q) results.
Proof.
  intros (a & Happ & <- & _)%searchCollect_appended.
  eapply appended_Forall; [exact Happ| |].
  - intros item s m _ Hs. simpl. by eapply stageScore_range.
  - eapply Forall_impl; [apply exactStage_scores|].
    intros r Hr. simpl in Hr. rewrite Hr. split; by vm_compute.
Qed.

(** ** The contract of [search] *)




(** ** What the index builder guarantees *)

Lemma indexed_ext st st' :
  apiMethodIndex st' = apiMethodIndex st → propertyIndex st' = propertyIndex st →
  parameterIndex st' = parameterIndex st → snippetIndex st' = snippetIndex st →
  allItems st' = allItems st →
  indexed st → indexed st'.
Proof.
  intros Ha Hu Hm Hs Hi [H1 H2 H3 H4 H5].
  split; rewrite ?Ha, ?Hu, ?Hm, ?Hs, ?Hi; done.
Qed.

Lemma indexed_cleared d b :
  indexed {| data := d; propertyIndex := ∅; apiMethodIndex := ∅; parameterIndex := ∅;
             snippetIndex := ∅; keywordIndex := ∅; allItems := []; snippetsLoaded := b |}.
Proof. split; simpl; intros *; try (by rewrite lookup_empty); by intros ?%elem_of_nil. Qed.

Lemma indexProperty_indexed st prop : indexed st → indexed (indexProperty st prop).
Proof.
  intros [H1 H2 H3 H4 H5]. split; simpl; try done.
  - intros k p [[<- <-]|[_ H]]%lookup_insert_Some; [done|by apply H2].
  - intros item [H | ->%list_elem_of_singleton]%elem_of_app Hd; [by apply H5|].
    simpl. apply toLowerCase_idem.
Qed.

Lemma indexMethod_indexed st method : indexed st → indexed (indexMethod st method).
Proof.
  intros [H1 H2 H3 H4 H5]. split; simpl; try done.
  - intros k p [[<- <-]|[_ H]]%lookup_insert_Some; [done|by apply H1].
  - intros item [H | ->%list_elem_of_singleton]%elem_of_app Hd; [by apply H5|].
    simpl. apply toLowerCase_idem.
Qed.

Lemma indexParameter_indexed st param : indexed st → indexed (indexParameter st param).
Proof.
  intros [H1 H2 H3 H4 H5]. split; simpl; try done.
  - intros k p [[<- <-]|[_ H]]%lookup_insert_Some; [done|by apply H3].
  - intros item [H | ->%list_elem_of_singleton]%elem_of_app Hd; [by apply H5|].
    simpl. apply toLowerCase_idem.
Qed.

Lemma indexSnippet_indexed st snippet : indexed st → indexed (indexSnippet st snippet).
Proof.
  intros [H1 H2 H3 H4 H5]. split; simpl; try done.
  - intros k p [[<- <-]|[_ H]]%lookup_insert_Some; [done|by apply H4].
  - intros item [H | ->%list_elem_of_singleton]%elem_of_app Hd; [by apply H5|].
    done.
Qed.

Lemma foldl_indexed {X : Type} (f : Loader → X → Loader) (l : list X) st :
  (∀ s x, indexed s → indexed (f s x)) → indexed st → indexed (foldl f st l).
Proof.
  intros Hf. revert st. induction l as [|x l IH]; intros st Hst; simpl; [done|].
  apply IH. by apply Hf.
Qed.

Lemma buildIndexes_indexed st : indexed st → indexed (buildIndexes st).
Proof.
  intros Hst. unfold buildIndexes. destruct (data st) as [d|]; [|done].
  apply foldl_indexed; [apply indexParameter_indexed|].
  apply foldl_indexed; [apply indexMethod_indexed|].
  apply foldl_indexed; [apply indexProperty_indexed|].
  apply indexed_cleared.
Qed.

Lemma loadCache_indexed fs st : indexed st → indexed (loadCache fs st).1.
Proof.
  intros Hst. unfold loadCache. destruct (cacheFile fs) as [| |cache]; [done..|].
  destruct (_ || _); [done|]. simpl.
  apply buildIndexes_indexed. by apply (indexed_ext st).
Qed.

Lemma loadData_indexed fs st fs' st' :
  loadData fs st = Returns (fs', st') → indexed st → indexed st'.
Proof.
  unfold loadData. intros H Hst.
  pose proof (loadCache_indexed fs st Hst) as Hc.
  destruct (loadCache fs st) as [st0 b]. simpl in Hc.
  destruct b; [by injection H as <- <-|].
  unfold rebuild in H.
  destruct (uiSource fs), (apiSource fs), (procSource fs); try done.
  injection H as <- <-.
  apply buildIndexes_indexed. by apply (indexed_ext st0).
Qed.

Lemma ensureSnippetsLoaded_indexed fs st :
  indexed st → indexed (ensureSnippetsLoaded fs st).
Proof.
  intros Hst. unfold ensureSnippetsLoaded.
  destruct (snippetsLoaded st); [done|].
  destruct (data st) as [d|]; [|done].
  destruct (snippetSource fs) as [snippets|]; [|done].
  set (st0 := setData _ st).
  apply (indexed_ext (foldl indexSnippet st0 snippets)); [done..|].
  apply foldl_indexed; [apply indexSnippet_indexed|].
  by apply (indexed_ext st).
Qed.

Lemma reachable_indexed st : reachable st → indexed st.
Proof.
  induction 1 as [|fs st fs' st' _ IH Hload|fs st _ IH].
  - apply (indexed_cleared None false).
  - by eapply loadData_indexed.
  - by apply ensureSnippetsLoaded_indexed.
Qed.

(** The lazy snippet load leaves the three other dictionaries alone. *)
Lemma ensureSnippetsLoaded_dictionaries fs st :
  apiMethodIndex (ensureSnippetsLoaded fs st) = apiMethodIndex st
  ∧ propertyIndex (ensureSnippetsLoaded fs st) = propertyIndex st
  ∧ parameterIndex (ensureSnippetsLoaded fs st) = parameterIndex st.
Proof.
  unfold ensureSnippetsLoaded.
  destruct (snippetsLoaded st); [done|].
  destruct (data st) as [d|]; [|done].
  destruct (snippetSource fs) as [snippets|]; [|done].
  cbn [apiMethodIndex propertyIndex parameterIndex setSnippetsLoaded].
  set (st0 := setData _ st).
  change (apiMethodIndex st) with (apiMethodIndex st0).
  change (propertyIndex st) with (propertyIndex st0).
  change (parameterIndex st) with (parameterIndex st0).
  generalize st0. clear st0.
  induction snippets as [|s l IH]; intros st0; simpl; [done|].
  destruct (IH (indexSnippet st0 s)) as (-> & -> & ->). done.
Qed.

Lemma itemsToSearch_elem st domain item :
  item ∈ itemsToSearch st domain →
  item ∈ allItems st ∧ (domain ≠ D_all → item_domain item = domain).
Proof.
  unfold itemsToSearch. case_bool_decide as Hd; [done|].
  rewrite list_elem_of_In, filter_In, <- list_elem_of_In, bool_decide_eq_true. tauto.
Qed.

(** ** No result twice *)

Lemma appended_distinct items normalized a a' :
  (∀ item, item ∈ items → item_domain item ≠ D_snippets →
           toLowerCase (item_id item) = item_id item) →
  appended items normalized a a' →
  NoDup (resultKey <$> a.1) ∧ Forall (covered a.2) a.1 →
  NoDup (resultKey <$> a'.1) ∧ Forall (covered a'.2) a'.1.
Proof.
  intros Hlower. induction 1 as [|a a' item s m Happ IH Hitem Hid Hs]; [done|].
  intros Ha. destruct (IH Ha) as [Hnd Hcov]. simpl. split.
  - rewrite fmap_app. simpl. apply NoDup_app. split; [done|]. split; [|apply NoDup_singleton].
    intros key Hkey ->%list_elem_of_singleton.
    apply list_elem_of_fmap in Hkey as (r & Hr & Hin).
    rewrite Forall_forall in Hcov. injection Hr as Hrid Hrdom.
    destruct (Hcov r Hin) as [Hseen|[Hdom Hseen]].
    + apply Hid. simpl in Hrid. by rewrite Hrid.
    + apply Hid. simpl in Hrid, Hrdom. rewrite <- Hrid in Hseen.
      rewrite Hlower in Hseen; [done..|]. by rewrite Hrdom.
  - apply Forall_app. split.
    + eapply Forall_impl; [exact Hcov|]. intros r [H|[H1 H2]]; [left|right]; set_solver.
    + constructor; [|constructor]. left. simpl. set_solver.
Qed.

Lemma exactStage_distinct st domain normalized :
  indexed st →
  NoDup (resultKey <$> (exactStage st domain normalized).1)
  ∧ Forall (covered (exactStage st domain normalized).2) (exactStage st domain normalized).1.
Proof.
  intros Hst. split.
  - apply (NoDup_fmap_1 snd). rewrite <- list_fmap_compose. apply exactStage_domains.
  - apply Forall_forall. intros r Hr.
    apply exactStage_results in Hr as (_ & _ & _ & Hseen & Hhit).
    destruct Hhit as [(m & Hm & ->)|[(p & Hp & ->)|[(p & Hp & ->)|(s & Hs & ->)]]].
    + right. split; [done|]. simpl. by rewrite <- (indexed_api _ Hst _ _ Hm).
    + right. split; [done|]. simpl. by rewrite <- (indexed_ui _ Hst _ _ Hp).
    + right. split; [done|]. simpl. by rewrite <- (indexed_modules _ Hst _ _ Hp).
    + left. simpl. by rewrite (indexed_snippets _ Hst _ _ Hs).
Qed.

(** C10.  On a reachable loader, for every query, domain and limit, no two
    results of [search] have the same id and domain; and [search] does
    return results for every query whose pattern the constructor accepts. *)
Theorem search_results_distinct (fs : Env) (st : Loader) (query : string)
    (domain : SearchDomain) (limit : Z) :
  reachable st →
  (patternCompiles (normalizeQuery query) →
   ∃ results, (search fs st query domain limit).2 = Returns results)
  ∧ ∀ results, (search fs st query domain limit).2 = Returns results →
               NoDup (resultKey <$> results).
Proof.
  intros Hreach. unfold search. cbn [snd].
  set (st' := if needsSnippets domain then ensureSnippetsLoaded fs st else st).
  split.
  { intros Hp.
    destruct (searchCollect_returns st' (normalizeQuery query) domain limit Hp)
      as (point & collected & ->). by eexists. }
  intros results.
  assert (Hst' : indexed st').
  { apply reachable_indexed. subst st'. destruct (needsSnippets domain); [|done].
    by apply reach_snippets. }
  destruct (searchCollect st' _ domain limit) as [[point collected]| |] eqn:Hc; [|done..].
  intros [= <-].
  destruct (searchCollect_appended _ _ _ _ _ _ Hc) as (a & Happ & <- & _).
  assert (Hnd : NoDup (resultKey <$> a.1)).
  { eapply appended_distinct; [|exact Happ|by apply exactStage_distinct].
    intros item [Hitem _]%itemsToSearch_elem. by apply (indexed_items _ Hst'). }
  assert (Hsub : ∀ l, l ≡ₚ a.1 → NoDup (resultKey <$> slice0 l limit)).
  { intros l Hl. apply (sublist_NoDup _ (resultKey <$> l)); [by rewrite Hl|].
    apply fmap_sublist, slice0_sublist. }
  destruct point; simpl; apply Hsub; try done; apply sortByScore_perm.
Qed.

Lemma loadData_example :
  loadData Example.fs newLoader = Returns (Example.fsAfterLoad, Example.loaded).
Proof. vm_compute. reflexivity. Qed.

Lemma reachable_example : reachable Example.loaded.
Proof. eapply reach_loadData; [apply reach_new|apply loadData_example]. Qed.

Lemma search_results_distinct_witness :
  reachable Example.loaded
  ∧ NoDup (resultKey <$>
             Example.returned (search Example.fs Example.loaded "synth" D_all 10).2).
Proof.
  split; [apply reachable_example|].
  apply (search_results_distinct Example.fs Example.loaded "synth" D_all 10).
  - apply reachable_example.
  - vm_compute. reflexivity.
Defined.

(** ** Exact hits come first *)

Lemma appended_results items normalized a a' :
  appended items normalized a a' → ∃ l, a'.1 = a.1 ++ l.
Proof.
  induction 1 as [|a a' item s m Happ [l IH] Hitem Hid Hs]; [exists []; by rewrite app_nil_r|].
  exists (l ++ [resultOf item s m]). simpl. by rewrite IH, app_assoc.
Qed.

Lemma inDomain_all d : inDomain D_all d = true.
Proof. done. Qed.

(** With domain [all], the first result of stage 1 is the hit of the first
    of the three dictionaries (api, ui, modules) that knows the query. *)
Lemma exactStage_first st normalized :
  is_Some (apiMethodIndex st !! normalized)
  ∨ is_Some (propertyIndex st !! normalized)
  ∨ is_Some (parameterIndex st !! normalized) →
  ∃ first rest,
    (exactStage st D_all normalized).1 = first :: rest
    ∧ ((∃ m, apiMethodIndex st !! normalized = Some m ∧ first = apiResult m)
       ∨ (∃ p, propertyIndex st !! normalized = Some p ∧ first = uiResult p)
       ∨ (∃ p, parameterIndex st !! normalized = Some p ∧ first = moduleResult p)).
Proof.
  intros Hkey.
  destruct (exactStage_shape st D_all normalized)
    as (oa & ou & om & os & -> & -> & -> & -> & -> & _).
  rewrite !inDomain_all.
  destruct (apiMethodIndex st !! normalized) as [m|]; simpl.
  { eexists _, _. split; [done|]. left. by exists m. }
  destruct (propertyIndex st !! normalized) as [p|]; simpl.
  { eexists _, _. split; [done|]. right; left. by exists p. }
  destruct (parameterIndex st !! normalized) as [p|]; simpl.
  { eexists _, _. split; [done|]. right; right. by exists p. }
  destruct Hkey as [[? ?]|[[? ?]|[? ?]]]; done.
Qed.




(** ** The wildcard stage *)

Section SynthPattern.

Local Ltac by_cases c := destruct c as [[] [] [] [] [] [] [] []]; vm_compute; reflexivity.
Local Ltac step := cbn -[sameCanonical toLowerChar isLineTerminator String.length star].
Local Ltac step_in H := cbn -[sameCanonical toLowerChar isLineTerminator String.length star] in H.

Lemma sameCanonical_s c : sameCanonical "s" c = Ascii.eqb (toLowerChar c) "s".
Proof. by_cases c. Qed.
Lemma sameCanonical_y c : sameCanonical "y" c = Ascii.eqb (toLowerChar c) "y".
Proof. by_cases c. Qed.
Lemma sameCanonical_n c : sameCanonical "n" c = Ascii.eqb (toLowerChar c) "n".
Proof. by_cases c. Qed.
Lemma sameCanonical_t c : sameCanonical "t" c = Ascii.eqb (toLowerChar c) "t".
Proof. by_cases c. Qed.
Lemma sameCanonical_h c : sameCanonical "h" c = Ascii.eqb (toLowerChar c) "h".
Proof. by_cases c. Qed.

(** [.*$] from any position: what is left has no line terminator. *)
Lemma star_any_to_end n b t :
  (String.length t <= n)%nat →
  match star (rmatch RAny) n (b, t) ≫= rmatch (RSeq REol REmpty) with
  | [] => false
  | _ => true
  end
  = forallb (fun c => negb (isLineTerminator c)) (String.list_ascii_of_string t).
Proof.
  revert n b. induction t as [|c t IH]; intros n b Hn.
  - destruct n; reflexivity.
  - destruct n as [|n]; [simpl in Hn; lia|].
    cbn [star rmatch oneChar snd String.list_ascii_of_string forallb].
    destruct (negb (isLineTerminator c)) eqn:Ec; cbn [List.filter].
    + assert (Hs : shorter (b, String c t) (false, t) = true).
      { unfold shorter. simpl. apply Nat.ltb_lt. lia. }
      rewrite Hs. cbn [mbind list_bind mjoin list_join fmap list_fmap app].
      rewrite app_nil_r.
      change (rmatch (RSeq REol REmpty) (b, String c t)) with (@nil pos).
      cbn [app andb]. apply IH. simpl in Hn. lia.
    + reflexivity.
Qed.

Lemma synth_pattern_not_later r s : matchesLater (RSeq RBol r) s = false.
Proof. induction s as [|c s IH]; simpl; [done|]. exact IH. Qed.

(** The regular expression of the query [Synth.*] : [synth], one more code
    unit and the rest, none of them a line terminator. *)
Lemma synth_pattern_test regex s :
  RegExp (wildcardPattern "synth.*") = Compiled regex →
  test regex s = synthThenMore s.
Proof.
  intros H. vm_compute in H. injection H as <-.
  unfold test. rewrite synth_pattern_not_later, orb_false_r.
  unfold matchesAt, synthThenMore.
  destruct s as [|c1 s]; [reflexivity|]. step. rewrite sameCanonical_s.
  destruct (Ascii.eqb (toLowerChar c1) "s"); [|reflexivity].
  destruct s as [|c2 s]; [reflexivity|]. step. rewrite sameCanonical_y.
  destruct (Ascii.eqb (toLowerChar c2) "y"); [|reflexivity].
  destruct s as [|c3 s]; [reflexivity|]. step. rewrite sameCanonical_n.
  destruct (Ascii.eqb (toLowerChar c3) "n"); [|reflexivity].
  destruct s as [|c4 s]; [reflexivity|]. step. rewrite sameCanonical_t.
  destruct (Ascii.eqb (toLowerChar c4) "t"); [|reflexivity].
  destruct s as [|c5 s]; [reflexivity|]. step. rewrite sameCanonical_h.
  destruct (Ascii.eqb (toLowerChar c5) "h"); [|reflexivity].
  destruct s as [|c6 rest]; [reflexivity|]. step.
  destruct (negb (isLineTerminator c6)) eqn:E6; step; [|reflexivity].
  rewrite !app_nil_r.
  pose proof (star_any_to_end (String.length rest) false rest (le_n _)) as H.
  step_in H. exact H.
Qed.
End SynthPattern.

Lemma finish_subset point collected limit r :
  r ∈ finish point collected limit → r ∈ collected.
Proof.
  assert (H : ∀ l, l ≡ₚ collected → r ∈ slice0 l limit → r ∈ collected).
  { intros l Hl Hr. rewrite <- Hl. eapply elem_of_sublist; [done|apply slice0_sublist]. }
  destruct point; simpl; apply H; try done; apply sortByScore_perm.
Qed.






(** ** Suggestions *)

(** A loop that skips, or appends the image of what it keeps, is a filter
    and a map. *)
Lemma foldl_push_filter {X Y : Type} (skip keep : X → bool) (g : X → Y)
    (l : list X) (init : list Y) :
  foldl (fun acc x => if skip x then acc else if keep x then acc ++ [g x] else acc) init l
  = init ++ (g <$> List.filter keep (List.filter (fun x => negb (skip x)) l)).
Proof.
  revert init. induction l as [|x l IH]; intros init; simpl; [by rewrite app_nil_r|].
  rewrite IH. destruct (skip x); simpl; [done|].
  destruct (keep x); simpl; [|done]. by rewrite <- app_assoc.
Qed.

Lemma insertByScore_fmap {X Y : Type} (sc : Y → Q) (g : X → Y) (x : X) (l : list X) :
  insertByScore sc (g x) (g <$> l) = g <$> insertByScore (fun x => sc (g x)) x l.
Proof.
  induction l as [|y l IH]; [done|].
  cbn [fmap list_fmap insertByScore].
  destruct (Qle_bool (sc (g y)) (sc (g x))); [done|].
  cbn [fmap list_fmap]. f_equal. exact IH.
Qed.

Lemma sortByScore_fmap {X Y : Type} (sc : Y → Q) (g : X → Y) (l : list X) :
  sortByScore sc (g <$> l) = g <$> sortByScore (fun x => sc (g x)) l.
Proof.
  induction l as [|x l IH]; [done|].
  change (sortByScore sc (g <$> x :: l))
    with (insertByScore sc (g x) (sortByScore sc (g <$> l))).
  rewrite IH. apply insertByScore_fmap.
Qed.

(** C7, as amended.  For every query, every limit >= 0 and every domain,
    [findSimilar] returns the display names (not the canonical ids) of
    exactly the items, restricted to the domain when it is not [all], whose
    similarity to the normalised query (the scorer of the fuzzy stage) is
    strictly above 0.3, by decreasing score and cut at [limit]. *)
Theorem findSimilar_returns_names (fs : Env) (st : Loader) (query : string) (limit : Z)
    (domain : option SearchDomain) :
  0 <= limit →
  (findSimilar fs st query limit domain).2
  = findSimilar_spec item_name (findSimilar fs st query limit domain).1 query limit domain.
Proof.
  intros Hlimit. unfold findSimilar, findSimilar_spec. cbn [fst snd].
  set (st' := if wantsSnippets domain then ensureSnippetsLoaded fs st else st).
  set (normalized := normalizeQuery query).
  unfold similarCandidates.
  rewrite (foldl_push_filter (outsideDomain domain)
             (fun item => negb (Qle_bool (similarityOf normalized item) 0.3))
             (fun item => {| sc_id := item_name item;
                             sc_score := similarityOf normalized item |})).
  rewrite app_nil_l, sortByScore_fmap, slice0_nonneg by done.
  rewrite <- fmap_take, <- list_fmap_compose. done.
Qed.

Lemma findSimilar_returns_names_witness :
  (findSimilar Example.fs Example.loaded "Synth.addNotOn" 5 (Some D_api)).2
  = findSimilar_spec item_name
      (findSimilar Example.fs Example.loaded "Synth.addNotOn" 5 (Some D_api)).1
      "Synth.addNotOn" 5 (Some D_api).
Proof. apply findSimilar_returns_names. lia. Defined.

(** C7 fails as stated: the suggestions are display names; the canonical
    ids of the same items are different strings. *)
Lemma findSimilar_returns_display_names :
  (findSimilar Example.fs Example.loaded "Synth.addNotOn" 5 (Some D_api)).2
  = ["Synth.addNoteOn"; "Synthesiser.reset"; "Engine.getSampleRate"]
  ∧ findSimilar_spec item_id Example.loaded "Synth.addNotOn" 5 (Some D_api)
    = ["synth.addnoteon"; "synthesiser.reset"; "engine.getsamplerate"]
  ∧ (findSimilar Example.fs Example.loaded "Synth.addNotOn" 5 (Some D_api)).2
    ≠ findSimilar_spec item_id Example.loaded "Synth.addNotOn" 5 (Some D_api).
Proof. repeat split; [vm_compute; reflexivity..|]. vm_compute. discriminate. Qed.

(** ** Relation finder *)

Lemma relatedByKeywords_filter st normalized item :
  relatedByKeywords st normalized item
  = (fun other => {| sc_id := item_name other; sc_score := overlapScore item other |})
      <$> List.filter (fun other => (0 <? overlapCount item other)%nat)
            (List.filter (fun other => negb (String.eqb (item_id other) normalized))
               (allItems st)).
Proof.
  unfold relatedByKeywords.
  by rewrite (foldl_push_filter (fun other => String.eqb (item_id other) normalized)
                (fun other => (0 <? overlapCount item other)%nat)
                (fun other => {| sc_id := item_name other;
                                 sc_score := overlapScore item other |})).
Qed.

Lemma relatedByKeywords_elem st normalized item r :
  r ∈ relatedByKeywords st normalized item ↔
  ∃ other, other ∈ allItems st ∧ item_id other ≠ normalized
           ∧ (0 < overlapCount item other)%nat
           ∧ r = {| sc_id := item_name other; sc_score := overlapScore item other |}.
Proof.
  rewrite relatedByKeywords_filter, list_elem_of_fmap.
  split.
  - intros (other & -> & Hin). exists other.
    rewrite list_elem_of_In, !filter_In, <- list_elem_of_In in Hin.
    destruct Hin as [[Hin Hid] Hov].
    apply negb_true_iff, String.eqb_neq in Hid. apply Nat.ltb_lt in Hov. done.
  - intros (other & Hin & Hid & Hov & ->). exists other. split; [done|].
    rewrite list_elem_of_In, !filter_In, <- list_elem_of_In.
    split; [split; [done|]|].
    + by apply negb_true_iff, String.eqb_neq.
    + by apply Nat.ltb_lt.
Qed.

Lemma injectReferences_elem refs fixedScore related r :
  r ∈ injectReferences refs fixedScore related → r ∈ related ∨ sc_id r ∈ refs.
Proof.
  unfold injectReferences. revert related.
  induction refs as [|ref refs IH]; intros related; simpl; [by left|].
  intros [H|H]%IH; [|right; by right].
  destruct (find _ related); [by left|].
  apply elem_of_app in H as [H | ->%list_elem_of_singleton]; [by left|].
  right. by left.
Qed.

Lemma overlapCount_zero item other :
  overlapCount item other = 0%nat ↔ ∀ k, k ∈ item_keywords item → k ∉ item_keywords other.
Proof.
  unfold overlapCount. rewrite length_zero_iff_nil. split.
  - intros Hnil k Hk Hko.
    assert (Hin : In k (List.filter (fun k => bool_decide (k ∈ item_keywords other))
                          (item_keywords item))).
    { apply filter_In. split; [by apply list_elem_of_In|by apply bool_decide_eq_true]. }
    by rewrite Hnil in Hin.
  - intros Hdis. induction (item_keywords item) as [|k l IH]; simpl; [done|].
    rewrite bool_decide_eq_false_2 by (apply Hdis; left).
    apply IH. intros k' Hk'. apply Hdis. by right.
Qed.




(** * Further properties of the loader *)

(** ** Normalised queries *)

Lemma toLowerCase_trimEnd s : toLowerCase (trimEnd s) = trimEnd (toLowerCase s).
Proof.
  induction s as [|c s IH]; [done|].
  cbn [trimEnd toLowerCase]. rewrite <- IH.
  destruct (trimEnd s) as [|c' s']; simpl.
  - rewrite toLowerChar_whiteSpace. by destruct (isWhiteSpace c).
  - done.
Qed.

Lemma trimEnd_idem s : trimEnd (trimEnd s) = trimEnd s.
Proof.
  induction s as [|c s IH]; [done|].
  cbn [trimEnd]. destruct (trimEnd s) as [|c' s'] eqn:E.
  - destruct (isWhiteSpace c) eqn:Ec; [done|]. simpl. by rewrite Ec.
  - change (trimEnd (String c (String c' s')))
      with (match trimEnd (String c' s') with
            | EmptyString => if isWhiteSpace c then EmptyString else String c EmptyString
            | t' => String c t'
            end).
    by rewrite IH.
Qed.

Lemma trimStart_trimEnd s : trimStart s = s → trimStart (trimEnd s) = trimEnd s.
Proof.
  destruct s as [|c s]; [done|].
  cbn [trimStart trimEnd]. destruct (isWhiteSpace c) eqn:Ec.
  - intros H. exfalso.
    assert (Hlen : ∀ u, (String.length (trimStart u) <= String.length u)%nat).
    { induction u as [|a u IHu]; simpl; [lia|]. destruct (isWhiteSpace a); simpl; lia. }
    specialize (Hlen s). rewrite H in Hlen. simpl in Hlen. lia.
  - intros _. destruct (trimEnd s) as [|c' s']; simpl; by rewrite Ec.
Qed.

Lemma trim_idem s : trim (trim s) = trim s.
Proof.
  unfold trim.
  rewrite (trimStart_trimEnd (trimStart s)) by apply trimStart_idem.
  apply trimEnd_idem.
Qed.

Lemma toLowerCase_trim s : toLowerCase (trim s) = trim (toLowerCase s).
Proof. unfold trim. by rewrite toLowerCase_trimEnd, toLowerCase_trimStart. Qed.

(** X1.  A normalised query is in lower case and has no white space at
    either end. *)
Theorem normalizeQuery_lower_trimmed (query : string) :
  toLowerCase (normalizeQuery query) = normalizeQuery query
  ∧ trim (normalizeQuery query) = normalizeQuery query.
Proof.
  unfold normalizeQuery. split.
  - by rewrite toLowerCase_trim, toLowerCase_idem.
  - apply trim_idem.
Qed.

Lemma eqb_toLowerCase_close t : String.eqb (toLowerCase t) ")" = String.eqb t ")".
Proof.
  destruct t as [|c [|c' t]]; simpl; try done.
  - rewrite toLowerChar_close. by destruct (Ascii.eqb c ")").
  - rewrite toLowerChar_close. by destruct (Ascii.eqb c ")").
Qed.

Lemma stripEmptyParens_toLowerCase s :
  stripEmptyParens (toLowerCase s) = toLowerCase (stripEmptyParens s).
Proof.
  induction s as [|c s IH]; simpl; [done|].
  rewrite toLowerChar_open, eqb_toLowerCase_close.
  destruct (Ascii.eqb c "(" && String.eqb s ")"); simpl; [done|]. by rewrite IH.
Qed.

Lemma normalizeQuery_toLowerCase q : normalizeQuery (toLowerCase q) = normalizeQuery q.
Proof.
  unfold normalizeQuery.
  by rewrite stripEmptyParens_toLowerCase, stripArgs_toLowerCase, toLowerCase_idem.
Qed.

Lemma normalizeQuery_sameUpToCase q1 q2 :
  sameUpToCase q1 q2 → normalizeQuery q1 = normalizeQuery q2.
Proof.
  intros H. rewrite <- (normalizeQuery_toLowerCase q1), <- (normalizeQuery_toLowerCase q2).
  by rewrite H.
Qed.

(** X2.  The letter case of a query does not matter: two queries that are
    equal up to case get the same answer from [search], [findSimilar],
    [getRelatedItems] and the three exact queries. *)
Theorem queries_ignore_case (fs : Env) (st : Loader) (q1 q2 : string)
    (domain : SearchDomain) (limit : Z) :
  sameUpToCase q1 q2 →
  search fs st q1 domain limit = search fs st q2 domain limit
  ∧ findSimilar fs st q1 limit (Some domain) = findSimilar fs st q2 limit (Some domain)
  ∧ getRelatedItems st q1 limit = getRelatedItems st q2 limit
  ∧ queryUIProperty st q1 = queryUIProperty st q2
  ∧ queryScriptingAPI st q1 = queryScriptingAPI st q2
  ∧ queryModuleParameter st q1 = queryModuleParameter st q2.
Proof.
  intros H%normalizeQuery_sameUpToCase.
  unfold search, findSimilar, getRelatedItems, queryUIProperty, queryScriptingAPI,
    queryModuleParameter.
  by rewrite H.
Qed.

Lemma queries_ignore_case_witness :
  search Example.fs Example.loaded "SYNTH.ADDNOTEON" D_all 5
  = search Example.fs Example.loaded "synth.addnoteon" D_all 5.
Proof.
  apply (queries_ignore_case Example.fs Example.loaded "SYNTH.ADDNOTEON" "synth.addnoteon").
  reflexivity.
Defined.

(** ** Slugs *)

Section SlugCharacters.

Local Ltac by_cases c :=
  destruct c as [[] [] [] [] [] [] [] []]; vm_compute; try reflexivity; try congruence.

Lemma alnum_not_hyphen c : isAlnumLower c = true → Ascii.eqb c "-" = false.
Proof. by_cases c. Qed.

Lemma alnum_lower c : isAlnumLower c = true → toLowerChar c = c.
Proof. by_cases c. Qed.

Lemma alnum_not_space c : isAlnumLower c = true → isWhiteSpace c = false.
Proof. by_cases c. Qed.

Lemma alnum_not_open c : isAlnumLower c = true → Ascii.eqb c "(" = false.
Proof. by_cases c. Qed.

End SlugCharacters.

Lemma hyphenateRuns_single b s : singleHyphens b (hyphenateRuns b s) = true.
Proof.
  revert b. induction s as [|c s IH]; intros b; [done|].
  cbn [hyphenateRuns]. destruct (isAlnumLower c) eqn:Ec.
  - cbn [singleHyphens]. by rewrite (alnum_not_hyphen _ Ec), Ec, IH.
  - destruct b; [apply IH|]. cbn [singleHyphens]. simpl. apply IH.
Qed.

Lemma dropLastHyphen_slug prev u :
  singleHyphens prev u = true → (u = EmptyString → prev = false) →
  slugBody prev (dropLastHyphen u) = true.
Proof.
  revert prev. induction u as [|c u IH]; intros prev Hs Hne.
  - simpl. by rewrite Hne.
  - destruct u as [|c' u'].
    + cbn [dropLastHyphen]. simpl in Hs.
      destruct (Ascii.eqb c "-") eqn:Ec.
      * simpl. apply andb_true_iff in Hs as [Hp _]. by destruct prev.
      * simpl. rewrite Ec. by rewrite andb_true_r in Hs |- *.
    + change (dropLastHyphen (String c (String c' u')))
        with (String c (dropLastHyphen (String c' u'))).
      cbn [singleHyphens] in Hs. cbn [slugBody].
      destruct (Ascii.eqb c "-") eqn:Ec.
      * apply andb_true_iff in Hs as [Hp Hs]. rewrite Hp. simpl. by apply IH.
      * apply andb_true_iff in Hs as [Hp Hs]. rewrite Hp. simpl. by apply IH.
Qed.

Lemma slugBody_single prev s : slugBody prev s = true → singleHyphens prev s = true.
Proof.
  revert prev. induction s as [|c s IH]; intros prev; [done|].
  simpl. destruct (Ascii.eqb c "-"); intros [-> H]%andb_true_iff; simpl; by apply IH.
Qed.

Lemma single_hyphenateRuns prev s : singleHyphens prev s = true → hyphenateRuns prev s = s.
Proof.
  revert prev. induction s as [|c s IH]; intros prev; [done|].
  cbn [singleHyphens hyphenateRuns]. destruct (Ascii.eqb c "-") eqn:Ec.
  - apply Ascii.eqb_eq in Ec as ->. intros [Hp H]%andb_true_iff.
    apply negb_true_iff in Hp as ->. change (isAlnumLower "-") with false. cbn iota.
    by rewrite IH.
  - intros [-> H]%andb_true_iff. by rewrite IH.
Qed.

Lemma slugBody_dropLastHyphen prev s : slugBody prev s = true → dropLastHyphen s = s.
Proof.
  revert prev. induction s as [|c s IH]; intros prev; [done|].
  destruct s as [|c' s'].
  - simpl. destruct (Ascii.eqb c "-"); [|done].
    rewrite andb_false_r. done.
  - change (dropLastHyphen (String c (String c' s')))
      with (String c (dropLastHyphen (String c' s'))).
    cbn [slugBody]. destruct (Ascii.eqb c "-");
      intros [_ H]%andb_true_iff; by rewrite (IH _ H).
Qed.

Lemma single_toLowerCase prev s : singleHyphens prev s = true → toLowerCase s = s.
Proof.
  revert prev. induction s as [|c s IH]; intros prev; [done|].
  simpl. destruct (Ascii.eqb c "-") eqn:Ec.
  - apply Ascii.eqb_eq in Ec as ->. intros [_ H]%andb_true_iff. by rewrite (IH _ H).
  - intros [Hc H]%andb_true_iff. by rewrite (alnum_lower _ Hc), (IH _ H).
Qed.

Lemma single_stripArgs prev s : singleHyphens prev s = true → stripArgs s = s.
Proof.
  revert prev. induction s as [|c s IH]; intros prev; [done|].
  simpl. destruct (Ascii.eqb c "-") eqn:Ec.
  - apply Ascii.eqb_eq in Ec as ->. intros [_ H]%andb_true_iff. simpl. by rewrite (IH _ H).
  - intros [Hc H]%andb_true_iff. by rewrite (alnum_not_open _ Hc), (IH _ H).
Qed.

Lemma single_no_trailing_space prev s :
  singleHyphens prev s = true → endsWithWhiteSpace s = false.
Proof.
  revert prev. induction s as [|c s IH]; intros prev; [done|].
  cbn [singleHyphens]. destruct (Ascii.eqb c "-") eqn:Ec.
  - apply Ascii.eqb_eq in Ec as ->. intros [_ H]%andb_true_iff.
    destruct s; [done|]. by apply (IH true).
  - intros [Hc H]%andb_true_iff. destruct s; [by apply alnum_not_space|]. by apply (IH false).
Qed.

Lemma single_trimStart prev s : singleHyphens prev s = true → trimStart s = s.
Proof.
  destruct s as [|c s]; [done|].
  cbn [singleHyphens trimStart]. destruct (Ascii.eqb c "-") eqn:Ec.
  - apply Ascii.eqb_eq in Ec as ->. done.
  - intros [Hc _]%andb_true_iff. by rewrite (alnum_not_space _ Hc).
Qed.

Lemma isSlug_single s : isSlug s = true → singleHyphens true s = true.
Proof. destruct s; [done|]. apply slugBody_single. Qed.

Lemma isSlug_normalizeQuery s : isSlug s = true → normalizeQuery s = s.
Proof.
  intros H%isSlug_single. apply normalizeQuery_fixed.
  - by eapply single_stripArgs.
  - by eapply single_toLowerCase.
  - by eapply single_trimStart.
  - by eapply single_no_trailing_space.
Qed.

Lemma isSlug_slugify s : isSlug s = true → slugify s = s.
Proof.
  intros H. unfold slugify.
  rewrite (single_toLowerCase true s), (single_hyphenateRuns false s).
  - destruct s as [|c s]; [done|]. simpl in H. unfold stripHyphenEnds.
    destruct (Ascii.eqb c "-") eqn:Ec; [done|].
    apply (slugBody_dropLastHyphen true). simpl. by rewrite Ec.
  - apply isSlug_single in H. destruct s as [|c s]; [done|].
    simpl in *. by destruct (Ascii.eqb c "-").
  - by apply isSlug_single.
Qed.

Lemma slugify_isSlug text : isSlug (slugify text) = true.
Proof.
  unfold slugify.
  pose proof (hyphenateRuns_single false (toLowerCase text)) as H.
  destruct (hyphenateRuns false (toLowerCase text)) as [|c u]; [done|].
  unfold stripHyphenEnds. cbn [singleHyphens] in H.
  assert (Hslug : ∀ v, singleHyphens true v = true → isSlug (dropLastHyphen v) = true).
  { intros v Hv. destruct v as [|a v]; [done|].
    pose proof (dropLastHyphen_slug true (String a v) Hv) as Hd.
    destruct (dropLastHyphen (String a v)); [done|]. apply Hd. done. }
  destruct (Ascii.eqb c "-") eqn:Ec.
  - apply Hslug. by apply andb_true_iff in H as [_ H].
  - apply Hslug. simpl. by rewrite Ec.
Qed.

(** X3.  A slug is made of words of [a-z0-9] joined by single hyphens;
    [slugify] is idempotent; and query normalisation leaves a slug alone, so
    a snippet id can be queried as it is. *)
Theorem slugify_shape (text : string) :
  isSlug (slugify text) = true
  ∧ slugify (slugify text) = slugify text
  ∧ normalizeQuery (slugify text) = slugify text.
Proof.
  pose proof (slugify_isSlug text) as H.
  split; [done|]. split; [by apply isSlug_slugify|by apply isSlug_normalizeQuery].
Qed.

(** ** Parameter lists and snippets of the canonicalizer *)

Lemma startsWith_empty s : startsWith s EmptyString = true.
Proof. by destruct s. Qed.

Lemma includes_char s c :
  includes s (String c EmptyString) = true ↔ c ∈ String.list_ascii_of_string s.
Proof.
  induction s as [|a s IH].
  - split; [done|by intros ?%elem_of_nil].
  - change (includes (String a s) (String c EmptyString))
      with (Ascii.eqb a c && startsWith s EmptyString || includes s (String c EmptyString)).
    rewrite startsWith_empty, andb_true_r, orb_true_iff, IH. simpl.
    rewrite elem_of_cons, Ascii.eqb_eq. split; intros [?|?]; auto.
Qed.

Lemma includes_char_false s c :
  includes s (String c EmptyString) = false ↔ c ∉ String.list_ascii_of_string s.
Proof. rewrite <- includes_char. by destruct (includes s _). Qed.

Lemma split_nonempty sep s : split sep s ≠ [].
Proof.
  destruct s as [|c s]; simpl; [done|].
  destruct (Ascii.eqb c sep); [done|]. by destruct (split sep s).
Qed.

(** The pieces of a split are made of code units of the string, the
    separator apart. *)
Lemma split_pieces sep s piece c :
  piece ∈ split sep s → c ∈ String.list_ascii_of_string piece →
  c ∈ String.list_ascii_of_string s ∧ c ≠ sep.
Proof.
  revert piece. induction s as [|a s IH]; intros piece; simpl.
  - intros ->%list_elem_of_singleton. by intros ?%elem_of_nil.
  - destruct (Ascii.eqb a sep) eqn:Ea.
    + intros [->|Hp]%elem_of_cons Hc; [by apply elem_of_nil in Hc|].
      destruct (IH _ Hp Hc). split; [by right|done].
    + apply Ascii.eqb_neq in Ea.
      pose proof (split_nonempty sep s) as Hne.
      destruct (split sep s) as [|w ws] eqn:Es; [done|].
      intros [->|Hp]%elem_of_cons Hc.
      * simpl in Hc. apply elem_of_cons in Hc as [->|Hc]; [split; [by left|done]|].
        destruct (IH w (list_elem_of_here _ _) Hc). split; [by right|done].
      * destruct (IH piece (list_elem_of_further _ _ _ Hp) Hc). split; [by right|done].
Qed.

Lemma split_length sep s :
  length (split sep s)
  = S (length (List.filter (Ascii.eqb sep) (String.list_ascii_of_string s))).
Proof.
  induction s as [|a s IH]; simpl; [done|].
  rewrite (Ascii.eqb_sym sep a).
  destruct (Ascii.eqb a sep); simpl; [by rewrite IH|].
  pose proof (split_nonempty sep s). destruct (split sep s); [done|]. simpl in *. lia.
Qed.

Lemma trimStart_chars s c :
  c ∈ String.list_ascii_of_string (trimStart s) → c ∈ String.list_ascii_of_string s.
Proof.
  induction s as [|a s IH]; simpl; [done|].
  destruct (isWhiteSpace a); [|done]. intros H. right. by apply IH.
Qed.

Lemma trimEnd_chars s c :
  c ∈ String.list_ascii_of_string (trimEnd s) → c ∈ String.list_ascii_of_string s.
Proof.
  induction s as [|a s IH]; [done|].
  cbn [trimEnd]. destruct (trimEnd s) as [|a' s'].
  - destruct (isWhiteSpace a); simpl; [by intros ?%elem_of_nil|].
    intros [->|?%elem_of_nil]%elem_of_cons; [left|done].
  - simpl. intros [->|H]%elem_of_cons; [left|]. right. apply IH. exact H.
Qed.

Lemma trim_chars s c :
  c ∈ String.list_ascii_of_string (trim s) → c ∈ String.list_ascii_of_string s.
Proof. unfold trim. intros H. by apply trimStart_chars, trimEnd_chars. Qed.

Lemma lazyGroup_chars s group c :
  lazyGroup s = Some group → c ∈ String.list_ascii_of_string group →
  c ≠ ")"%char ∧ isLineTerminator c = false.
Proof.
  revert group. induction s as [|a s IH]; intros group; simpl; [done|].
  destruct (Ascii.eqb a ")") eqn:Ea; [intros [= <-]; by intros ?%elem_of_nil|].
  destruct (isLineTerminator a) eqn:El; [done|].
  destruct (lazyGroup s) as [g|]; [|done]. simpl. intros [= <-]. simpl.
  intros [->|Hc]%elem_of_cons; [|by eapply IH].
  split; [by apply Ascii.eqb_neq|done].
Qed.

Lemma firstParenGroup_chars s group c :
  firstParenGroup s = Some group → c ∈ String.list_ascii_of_string group →
  c ≠ ")"%char ∧ isLineTerminator c = false.
Proof.
  induction s as [|a s IH]; simpl; [done|].
  destruct (Ascii.eqb a "("); [|done].
  destruct (lazyGroup s) as [g|] eqn:Eg; [|done].
  intros [= <-]. by eapply lazyGroup_chars.
Qed.

(** X4.  [parseParameters] returns no parameter exactly for a missing or
    empty signature, the literal [()] and a signature without a closed
    parenthesis on one line.  Otherwise it returns one parameter more than
    there are commas between the first parentheses (so one, with the empty
    name, for [foo()]), each untyped and not optional, with a name that is
    trimmed and has no comma, no closing parenthesis and no line
    terminator. *)
Theorem parseParameters_names (args : option string) :
  (parseParameters args = [] ↔
     args = None ∨ args = Some EmptyString ∨ args = Some "()"
     ∨ ∃ a, args = Some a ∧ firstParenGroup a = None)
  ∧ (∀ a group, args = Some a → a ≠ EmptyString → a ≠ "()" →
       firstParenGroup a = Some group →
       length (parseParameters args)
       = S (length (List.filter (Ascii.eqb ",") (String.list_ascii_of_string group))))
  ∧ (∀ p, p ∈ parseParameters args →
       p = untypedParameter (param_name p)
       ∧ trim (param_name p) = param_name p
       ∧ includes (param_name p) "," = false
       ∧ includes (param_name p) ")" = false
       ∧ Forall (fun c => isLineTerminator c = false)
                (String.list_ascii_of_string (param_name p))).
Proof.
  unfold parseParameters. destruct args as [a|].
  2:{ split; [split; [by left|done]|]. split; [done|]. by intros p ?%elem_of_nil. }
  destruct (String.eqb a "") eqn:E1.
  { apply String.eqb_eq in E1 as ->. simpl.
    split; [split; [right; by left|done]|].
    split; [intros ? ? [= <-]; congruence|]. by intros p ?%elem_of_nil. }
  destruct (String.eqb a "()") eqn:E2.
  { apply String.eqb_eq in E2 as ->. simpl.
    split; [split; [right; right; by left|done]|].
    split; [intros ? ? [= <-]; congruence|]. by intros p ?%elem_of_nil. }
  simpl. apply String.eqb_neq in E1, E2.
  destruct (firstParenGroup a) as [group|] eqn:Eg.
  2:{ split; [split; [intros _; right; right; right; by exists a|done]|].
      split; [intros ? ? [= <-]; congruence|]. by intros p ?%elem_of_nil. }
  split; [|split].
  - split.
    + intros H. apply fmap_nil_inv, fmap_nil_inv in H. by apply split_nonempty in H.
    + intros [?|[?|[?|(a' & [= <-] & ?)]]]; congruence.
  - intros a' group' [= <-] _ _ Hg. rewrite Eg in Hg. injection Hg as <-.
    by rewrite !length_fmap, split_length.
  - intros p (name & -> & (piece & -> & Hpiece)%list_elem_of_fmap)%list_elem_of_fmap.
    simpl. split; [done|]. split; [apply trim_idem|].
    assert (Hc : ∀ c, c ∈ String.list_ascii_of_string (trim piece) →
                      c ≠ ","%char ∧ c ≠ ")"%char ∧ isLineTerminator c = false).
    { intros c Hc%trim_chars. destruct (split_pieces _ _ _ _ Hpiece Hc) as [Hg Hsep].
      split; [done|]. by eapply firstParenGroup_chars. }
    split; [|split].
    + apply includes_char_false. intros H. by destruct (Hc _ H).
    + apply includes_char_false. intros H. by destruct (Hc _ H) as (_ & ? & _).
    + apply Forall_forall. intros c H. by destruct (Hc _ H) as (_ & _ & ?).
Qed.

Lemma parseParameters_names_witness :
  length (parseParameters (Some "addNoteOn(int channel, int note, int velocity)"))
  = S (length (List.filter (Ascii.eqb ",")
                 (String.list_ascii_of_string "int channel, int note, int velocity"))).
Proof.
  apply (proj1 (proj2 (parseParameters_names
           (Some "addNoteOn(int channel, int note, int velocity)")))
           "addNoteOn(int channel, int note, int velocity)");
    [reflexivity|discriminate|discriminate|reflexivity].
Defined.

(** X5.  [transformSnippets] throws exactly when some element has no title.
    Otherwise it yields one snippet per element, in order; the id of each is
    the slug of its title, which query normalisation leaves unchanged, and a
    missing or empty category, difficulty or description gets its default. *)
Theorem transformSnippets_slugs (data : list RawSnippet) :
  (transformSnippets data = None ↔ ∃ raw, raw ∈ data ∧ raw_title raw = None)
  ∧ ∀ snippets, transformSnippets data = Some snippets →
      length snippets = length data
      ∧ ∀ i raw snippet, data !! i = Some raw → snippets !! i = Some snippet →
          raw_title raw = Some (title snippet)
          ∧ snip_id snippet = slugify (title snippet)
          ∧ normalizeQuery (snip_id snippet) = snip_id snippet
          ∧ category snippet = orString (raw_category raw) "All"
          ∧ difficulty snippet = orString (raw_difficulty raw) "intermediate"
          ∧ snip_description snippet = orString (raw_description raw) "".
Proof.
  unfold transformSnippets. split.
  - rewrite mapM_None, Exists_exists. split.
    + intros (raw & Hin & Hnone). exists raw. split; [done|].
      unfold transformSnippet in Hnone. by destruct (raw_title raw).
    + intros (raw & Hin & Hnone). exists raw. split; [done|].
      unfold transformSnippet. by rewrite Hnone.
  - intros snippets H%mapM_Some_1. split; [symmetry; by eapply Forall2_length|].
    intros i raw snippet Hraw Hsnippet.
    pose proof (Forall2_lookup_lr _ _ _ _ _ _ H Hraw Hsnippet) as Ht.
    unfold transformSnippet in Ht. destruct (raw_title raw) as [t|] eqn:Et; [|done].
    injection Ht as <-. simpl.
    assert (Htitle : orString (Some t) "" = t).
    { unfold orString. destruct (String.eqb t "") eqn:E; [|done].
      by apply String.eqb_eq in E. }
    unfold orString in Htitle. rewrite ?Htitle.
    split; [done|]. split; [done|]. split; [apply isSlug_normalizeQuery, slugify_isSlug|]. done.
Qed.

Lemma transformSnippets_slugs_witness :
  length [Example.triggerMelody] = length
    [ {| raw_title := Some "Trigger melody"; raw_description := Some "Plays a short tune.";
         raw_category := Some "MIDI"; raw_tags := Some ["sequencer"];
         raw_code := Some "Synth.addNoteOn(1, 60, 100, 0);";
         raw_relatedAPIs := Some ["Synth.addNoteOn"];
         raw_relatedComponents := Some ["ScriptButton"];
         raw_difficulty := Some "beginner" |} ].
Proof.
  apply (proj2 (transformSnippets_slugs _)). vm_compute. reflexivity.
Defined.
(** ** What the stages of [search] append, and the tool [search_hise] *)

Lemma ensureSnippetsLoaded_idem fs st :
  ensureSnippetsLoaded fs (ensureSnippetsLoaded fs st) = ensureSnippetsLoaded fs st.
Proof.
  destruct (snippetsLoaded st) eqn:Hl.
  { unfold ensureSnippetsLoaded. by rewrite !Hl. }
  destruct (data st) as [d|] eqn:Hd.
  - destruct (snippetSource fs) as [snippets|] eqn:Hs.
    + unfold ensureSnippetsLoaded at 2 3. rewrite Hl, Hd, Hs. done.
    + unfold ensureSnippetsLoaded. rewrite Hl, Hd, Hs. by rewrite Hl, Hd.
  - unfold ensureSnippetsLoaded. rewrite Hl, Hd. by rewrite Hl, Hd.
Qed.

Lemma wantsSnippets_needsSnippets domain : wantsSnippets (Some domain) = needsSnippets domain.
Proof. by destruct domain. Qed.

Lemma appended_nil items normalized a a' :
  appended items normalized a a' → a'.1 = [] → a' = a.
Proof.
  intros H. induction H as [|a a' item s m _ _ _ _ _]; [done|].
  simpl. intros E. by apply app_eq_nil in E as [_ ?].
Qed.

Lemma appended_mono items normalized a a' :
  appended items normalized a a' → a.2 ⊆ a'.2 ∧ (length a.1 <= length a'.1)%nat.
Proof.
  intros H. induction H as [|a a' item s m _ [IH1 IH2] _ _ _]; [done|].
  simpl. rewrite length_app. simpl. split; [set_solver|lia].
Qed.

Lemma exactStage_nil st domain normalized :
  (exactStage st domain normalized).1 = [] → exactStage st domain normalized = ([], ∅).
Proof.
  intros E. destruct (exactStage_shape st domain normalized)
    as (oa & ou & om & os & _ & _ & _ & _ & _ & H).
  destruct (exactStage st domain normalized) as [results seen]. simpl in *. subst results.
  f_equal. apply elem_of_equiv_empty_L. intros k Hk. apply H in Hk as [_ ?]. done.
Qed.

Lemma fuzzyStage_nothing items normalized limit seen :
  (fuzzyStage items normalized limit ([], seen)).1 = [] →
  ∀ item, item ∈ items → item_id item ∉ seen →
          Qle_bool 0.4 (similarityOf normalized item) = false.
Proof.
  unfold fuzzyStage. induction items as [|x items IH]; intros H item Hitem Hseen.
  { by apply elem_of_nil in Hitem. }
  simpl in H. unfold fuzzyBody at 1 in H. simpl in H.
  case_bool_decide as Hx.
  - apply elem_of_cons in Hitem as [-> | Hitem]; [done|]. by apply IH.
  - fold (similarityOf normalized x) in H.
    destruct (Qle_bool 0.4 (similarityOf normalized x)) eqn:Hs.
    + exfalso.
      set (a' := push ([], seen) (resultOf x (similarityOf normalized x) M_fuzzy) (item_id x)) in *.
      destruct (reached a' (limit * 5)); [done|].
      pose proof (fuzzyStage_appended items normalized limit a') as Ha.
      apply appended_results in Ha as [l Hl]. unfold fuzzyStage in Hl.
      rewrite Hl in H. done.
    + apply elem_of_cons in Hitem as [-> | Hitem]; [done|]. by apply IH.
Qed.

(** With a limit of at least 1, [search] collects nothing only when no entry
    of the domain reaches the threshold of the fuzzy stage. *)
Lemma searchCollect_nothing st normalized domain limit point :
  1 <= limit →
  searchCollect st normalized domain limit = Returns (point, []) →
  ∀ item, item ∈ itemsToSearch st domain →
          Qle_bool 0.4 (similarityOf normalized item) = false.
Proof.
  intros Hlimit. unfold searchCollect.
  assert (Hfull : ∀ a : acc, a.1 = [] → reached a limit = false).
  { intros a E. unfold reached. rewrite E. simpl. rewrite Z.geb_leb. apply Z.leb_gt. lia. }
  destruct (reached (exactStage st domain normalized) limit) eqn:R1.
  { intros [= _ E]. by rewrite Hfull in R1. }
  destruct (prefixStage _ normalized limit _) as [a2| |] eqn:H2; [|done..].
  apply prefixStage_appended in H2.
  destruct (reached a2 limit) eqn:R2.
  { intros [= _ E]. by rewrite Hfull in R2. }
  pose proof (keywordStage_appended st (itemsToSearch st domain) normalized limit a2) as H3.
  destruct (reached (keywordStage _ _ _ _ a2) limit) eqn:R3.
  { intros [= _ E]. by rewrite Hfull in R3. }
  intros [= _ E] item Hitem.
  set (a3 := keywordStage st (itemsToSearch st domain) normalized limit a2) in *.
  assert (E3 : a3.1 = []).
  { pose proof (fuzzyStage_appended (itemsToSearch st domain) normalized limit a3) as H4.
    apply appended_results in H4 as [l Hl]. rewrite Hl in E.
    by apply app_eq_nil in E as [? _]. }
  pose proof (appended_nil _ _ _ _ H3 E3) as E32. rewrite E32 in E3.
  pose proof (appended_nil _ _ _ _ H2 E3) as E21. rewrite E21 in E3.
  rewrite E32, E21, (exactStage_nil _ _ _ E3) in E.
  by eapply fuzzyStage_nothing; [exact E|..]; [|apply not_elem_of_empty].
Qed.

Lemma outsideDomain_itemsToSearch st domain item :
  item ∈ allItems st → outsideDomain (Some domain) item = false →
  item ∈ itemsToSearch st domain.
Proof.
  unfold outsideDomain, itemsToSearch. intros Hitem H.
  case_bool_decide as Hd; [done|]. simpl in H.
  apply negb_false_iff, bool_decide_eq_true in H.
  apply list_elem_of_In, filter_In. split; [by apply list_elem_of_In|].
  by apply bool_decide_eq_true.
Qed.

Lemma below_threshold_zero query id name keywords :
  Qle_bool 0.4 (calculateSimilarity query id name keywords) = false →
  calculateSimilarity query id name keywords = 0%Q.
Proof.
  pose proof (calculateSimilarity_values query id name keywords) as H.
  repeat (apply elem_of_cons in H as [-> | H]); try done.
  by apply elem_of_nil in H.
Qed.

Lemma similarCandidates_nothing st normalized domain :
  (∀ item, item ∈ itemsToSearch st domain →
           Qle_bool 0.4 (similarityOf normalized item) = false) →
  similarCandidates st normalized (Some domain) = [].
Proof.
  intros H. unfold similarCandidates.
  rewrite (foldl_push_filter (outsideDomain (Some domain))
             (fun item => negb (Qle_bool (similarityOf normalized item) 0.3))
             (fun item => {| sc_id := item_name item;
                             sc_score := similarityOf normalized item |})).
  simpl.
  assert (E : ∀ l, (∀ x, x ∈ l → x ∈ allItems st) →
    List.filter (fun item => negb (Qle_bool (similarityOf normalized item) 0.3))
      (List.filter (fun x => negb (outsideDomain (Some domain) x)) l) = []).
  { induction l as [|x l IH]; intros Hl; [done|].
    assert (Hrest : ∀ y, y ∈ l → y ∈ allItems st) by (intros y Hy; apply Hl; by right).
    cbn [List.filter]. destruct (outsideDomain (Some domain) x) eqn:Ho; simpl; [by apply IH|].
    assert (Hx : Qle_bool 0.4 (similarityOf normalized x) = false).
    { apply H, outsideDomain_itemsToSearch; [apply Hl; left|done]. }
    unfold similarityOf in *. rewrite (below_threshold_zero _ _ _ _ Hx). simpl.
    by apply IH. }
  by rewrite E.
Qed.

Lemma search_unfold fs st query domain limit :
  search fs st query domain limit
  = ((if needsSnippets domain then ensureSnippetsLoaded fs st else st),
     match searchCollect (if needsSnippets domain then ensureSnippetsLoaded fs st else st)
             (normalizeQuery query) domain limit with
     | Returns (point, results) => Returns (finish point results limit)
     | Throws message => Throws message
     | NotModelled => NotModelled
     end).
Proof. done. Qed.

Lemma finish_nil point results limit :
  1 <= limit → finish point results limit = [] → results = [].
Proof.
  intros Hlimit. unfold finish.
  assert (H : ∀ l : list SearchResult, slice0 l limit = [] → l = []).
  { intros l. rewrite slice0_nonneg by lia. destruct l; [done|].
    destruct (Z.to_nat limit) eqn:E; [lia|done]. }
  destruct point; intros E%H; [done|..];
    by apply Permutation_nil_r; rewrite <- E, sortByScore_perm.
Qed.

(** When [search] finds nothing, no entry of the domain has a positive
    similarity to the query, and the suggestion list is empty as well. *)
Lemma search_nothing_similar fs st query domain limit :
  1 <= limit →
  (search fs st query domain limit).2 = Returns [] →
  (∀ item, item ∈ itemsToSearch (search fs st query domain limit).1 domain →
           similarityOf (normalizeQuery query) item = 0%Q)
  ∧ ∀ k, findSimilar fs (search fs st query domain limit).1 query k (Some domain)
         = ((search fs st query domain limit).1, []).
Proof.
  intros Hlimit. rewrite search_unfold. cbn [fst snd].
  set (st' := if needsSnippets domain then ensureSnippetsLoaded fs st else st).
  destruct (searchCollect st' (normalizeQuery query) domain limit)
    as [[point results]| |] eqn:Hc; [|done..].
  intros [= E]. apply finish_nil in E; [|done]. subst results.
  pose proof (searchCollect_nothing _ _ _ _ _ Hlimit Hc) as Hnone.
  split.
  { intros item Hitem. by apply below_threshold_zero, Hnone. }
  intros k. unfold findSimilar. rewrite wantsSnippets_needsSnippets.
  assert (Hst : (if needsSnippets domain then ensureSnippetsLoaded fs st' else st') = st').
  { unfold st'. destruct (needsSnippets domain); [apply ensureSnippetsLoaded_idem|done]. }
  rewrite Hst, similarCandidates_nothing by done.
  simpl. unfold slice0. by destruct (k <? 0); rewrite take_nil.
Qed.

Lemma search_length fs st query domain limit results :
  0 <= limit →
  (search fs st query domain limit).2 = Returns results →
  Z.of_nat (length results) <= limit.
Proof.
  intros Hlimit. rewrite search_unfold. cbn [snd].
  destruct (searchCollect _ _ _ _) as [[point collected]| |]; [|done..].
  intros [= <-]. unfold finish. destruct point; by apply slice0_length.
Qed.


(** X7.  With a limit of at least 1, a search that returns nothing leaves
    nothing to suggest: every catalog entry of the domain has similarity 0
    to the query, and [findSimilar] returns the empty list for every
    limit. *)
Theorem search_empty_no_suggestions (fs : Env) (st : Loader) (query : string)
    (domain : SearchDomain) (limit k : Z) :
  1 <= limit →
  (search fs st query domain limit).2 = Returns [] →
  (findSimilar fs st query k (Some domain)).2 = []
  ∧ Forall (fun item => similarityOf (normalizeQuery query) item = 0%Q)
           (itemsToSearch (search fs st query domain limit).1 domain).
Proof.
  intros Hlimit Hs. destruct (search_nothing_similar _ _ _ _ _ Hlimit Hs) as [Hzero Hsim].
  split; [|by apply Forall_forall].
  specialize (Hsim k). rewrite search_unfold in Hsim. cbn [fst] in Hsim.
  unfold findSimilar in *. rewrite wantsSnippets_needsSnippets in *.
  destruct (needsSnippets domain); [|by injection Hsim as ->].
  rewrite ensureSnippetsLoaded_idem in Hsim. by injection Hsim as ->.
Qed.

Lemma search_empty_no_suggestions_witness :
  (findSimilar Example.fs Example.loaded "xyznonexistent123" 5 (Some D_all)).2 = []
  ∧ Forall (fun item => similarityOf (normalizeQuery "xyznonexistent123") item = 0%Q)
           (itemsToSearch
              (search Example.fs Example.loaded "xyznonexistent123" D_all 10).1 D_all).
Proof.
  apply (search_empty_no_suggestions Example.fs Example.loaded "xyznonexistent123" D_all 10 5).
  - lia.
  - vm_compute. reflexivity.
Defined.
(** ** Where the results of [search] come from *)

(** A property of every result: it holds of the exact hits and of whatever
    the three later stages can append. *)
Lemma searchCollect_Forall (P : SearchResult → Prop) st normalized domain limit point results :
  searchCollect st normalized domain limit = Returns (point, results) →
  Forall P (exactStage st domain normalized).1 →
  (∀ item regex,
     item ∈ itemsToSearch st domain →
     includes normalized "*" = true →
     RegExp (wildcardPattern normalized) = Compiled regex →
     test regex (item_id item) || test regex (toLowerCase (item_name item)) = true →
     P (resultOf item 0.9 M_prefix)) →
  (∀ item matchCount,
     item ∈ itemsToSearch st domain →
     1 <= matchCount →
     extractKeywords [normalized] ≠ [] →
     P (resultOf item (keywordScore matchCount (length (extractKeywords [normalized])))
          M_keyword)) →
  (∀ item,
     item ∈ itemsToSearch st domain →
     Qle_bool 0.4 (similarityOf normalized item) = true →
     P (resultOf item (similarityOf normalized item) M_fuzzy)) →
  Forall P results.
Proof.
  intros Hc Hexact Hprefix Hkeyword Hfuzzy.
  set (items := itemsToSearch st domain) in *.
  assert (Hpush : ∀ (a : acc) r id, Forall P a.1 → P r → Forall P (push a r id).1).
  { intros a r id Ha Hr. simpl. apply Forall_app. split; [done|]. by constructor. }
  assert (H2 : ∀ a a', Forall P a.1 → prefixStage items normalized limit a = Returns a' →
                       Forall P a'.1).
  { intros a a' Ha. unfold prefixStage.
    destruct (includes normalized "*") eqn:Hstar; [|by intros [= <-]].
    destruct (RegExp (wildcardPattern normalized)) as [regex| |] eqn:Hre; [|done..].
    intros [= <-]. apply (forOf_ind (fun a => Forall P a.1)); [|done].
    intros s item Hitem Hs. unfold prefixBody. case_bool_decide; [done|].
    destruct (test regex (item_id item) || test regex (toLowerCase (item_name item))) eqn:Ht;
      [|done].
    apply Hpush; [done|]. by eapply Hprefix. }
  assert (H3 : ∀ a, Forall P a.1 → Forall P (keywordStage st items normalized limit a).1).
  { intros a Ha. unfold keywordStage.
    apply (forOf_ind (fun a => Forall P a.1)); [|done].
    intros s [itemId matchCount] Hentry Hs. unfold keywordBody. case_bool_decide; [done|].
    destruct (find _ items) as [item|] eqn:Hfind; [|done].
    apply find_Some in Hfind as [Hitem _].
    apply Hpush; [done|]. apply Hkeyword; [done| |].
    - pose proof (keywordMatches_counts st (extractKeywords [normalized])) as Hcounts.
      rewrite Forall_forall in Hcounts. by apply (Hcounts _ Hentry).
    - intros E. rewrite E in Hentry. by apply elem_of_nil in Hentry. }
  assert (H4 : ∀ a, Forall P a.1 → Forall P (fuzzyStage items normalized limit a).1).
  { intros a Ha. unfold fuzzyStage.
    apply (forOf_ind (fun a => Forall P a.1)); [|done].
    intros s item Hitem Hs. unfold fuzzyBody. case_bool_decide; [done|].
    fold (similarityOf normalized item).
    destruct (Qle_bool 0.4 (similarityOf normalized item)) eqn:Ht; [|done].
    apply Hpush; [done|]. by apply Hfuzzy. }
  revert Hc. unfold searchCollect. fold items.
  destruct (reached (exactStage st domain normalized) limit); [by intros [= <- <-]|].
  destruct (prefixStage items normalized limit _) as [a2| |] eqn:E2; [|done..].
  apply H2 in E2; [|done].
  destruct (reached a2 limit); [by intros [= <- <-]|].
  destruct (reached _ limit); intros [= <- <-]; auto.
Qed.

Lemma search_Forall (P : SearchResult → Prop) fs st query domain limit results :
  (search fs st query domain limit).2 = Returns results →
  (∀ point collected,
     searchCollect (search fs st query domain limit).1 (normalizeQuery query) domain limit
     = Returns (point, collected) →
     Forall P collected) →
  Forall P results.
Proof.
  rewrite search_unfold. cbn [fst snd].
  destruct (searchCollect _ _ _ _) as [[point collected]| |]; [|done..].
  intros [= <-] H. apply Forall_forall. intros r Hr%finish_subset.
  specialize (H _ _ eq_refl). rewrite Forall_forall in H. by apply H.
Qed.

Lemma keywordScore_band matchCount nKeywords :
  1 <= matchCount → (0 < nKeywords)%nat →
  (0.3 < keywordScore matchCount nKeywords)%Q ∧ (keywordScore matchCount nKeywords <= 0.8)%Q.
Proof.
  intros Hm Hn. unfold keywordScore. split; [|apply Q.le_min_l].
  apply Q.min_glb_lt; [done|].
  assert (H : (0 < inject_Z matchCount / inject_Z (Z.of_nat nKeywords) * 0.5)%Q).
  { apply Qmult_lt_0_compat; [|done]. apply Qlt_shift_div_l.
    - change 0%Q with (inject_Z 0). rewrite <- Zlt_Qlt. lia.
    - rewrite Qmult_0_l. change 0%Q with (inject_Z 0). rewrite <- Zlt_Qlt. lia. }
  rewrite <- (Qplus_0_r 0.3) at 1. by apply Qplus_lt_r.
Qed.

(** X8.  Every result of [search] is either an exact hit, made of the record
    that one of the four dictionaries holds under the normalised query, or
    made of a catalog entry that is in the searched domain; and when the
    domain is not ['all'], every result carries that domain. *)
Theorem search_results_provenance (fs : Env) (st : Loader) (query : string)
    (domain : SearchDomain) (limit : Z) (results : list SearchResult) :
  (search fs st query domain limit).2 = Returns results →
  Forall (fun r =>
            (domain ≠ D_all → res_domain r = domain)
            ∧ ((matchType r = M_exact
                ∧ ((∃ m, apiMethodIndex (search fs st query domain limit).1
                           !! normalizeQuery query = Some m ∧ r = apiResult m)
                   ∨ (∃ p, propertyIndex (search fs st query domain limit).1
                             !! normalizeQuery query = Some p ∧ r = uiResult p)
                   ∨ (∃ p, parameterIndex (search fs st query domain limit).1
                             !! normalizeQuery query = Some p ∧ r = moduleResult p)
                   ∨ (∃ s, snippetIndex (search fs st query domain limit).1
                             !! normalizeQuery query = Some s ∧ r = snippetResult s)))
               ∨ (matchType r ≠ M_exact
                  ∧ ∃ item, item ∈ allItems (search fs st query domain limit).1
                            ∧ r = resultOf item (score r) (matchType r))))
         results.
Proof.
  intros Hs. apply (search_Forall _ _ _ _ _ _ _ Hs). intros point collected Hc.
  set (st' := (search fs st query domain limit).1) in *.
  assert (Hitem : ∀ item s m, item ∈ itemsToSearch st' domain → m ≠ M_exact →
    (domain ≠ D_all → res_domain (resultOf item s m) = domain)
    ∧ ((matchType (resultOf item s m) = M_exact
        ∧ ((∃ m0, apiMethodIndex st' !! normalizeQuery query = Some m0
                  ∧ resultOf item s m = apiResult m0)
           ∨ (∃ p, propertyIndex st' !! normalizeQuery query = Some p
                   ∧ resultOf item s m = uiResult p)
           ∨ (∃ p, parameterIndex st' !! normalizeQuery query = Some p
                   ∧ resultOf item s m = moduleResult p)
           ∨ (∃ s0, snippetIndex st' !! normalizeQuery query = Some s0
                    ∧ resultOf item s m = snippetResult s0)))
       ∨ (matchType (resultOf item s m) ≠ M_exact
          ∧ ∃ item0, item0 ∈ allItems st'
                     ∧ resultOf item s m
                       = resultOf item0 (score (resultOf item s m))
                           (matchType (resultOf item s m))))).
  { intros item s m [Hin Hdom]%itemsToSearch_elem Hm. split; [done|].
    right. split; [done|]. by exists item. }
  apply (searchCollect_Forall _ _ _ _ _ _ _ Hc).
  - apply Forall_forall. intros r Hr.
    apply exactStage_results in Hr as (_ & Hm & Hd & _ & Hhit).
    split; [|by left]. intros Hne. by apply inDomain_eq.
  - intros. by apply Hitem.
  - intros. by apply Hitem.
  - intros. by apply Hitem.
Qed.

Lemma search_results_provenance_witness :
  Forall (fun r =>
            (D_api ≠ D_all → res_domain r = D_api)
            ∧ ((matchType r = M_exact
                ∧ ((∃ m, apiMethodIndex (search Example.fs Example.loaded "synth" D_api 10).1
                           !! normalizeQuery "synth" = Some m ∧ r = apiResult m)
                   ∨ (∃ p, propertyIndex (search Example.fs Example.loaded "synth" D_api 10).1
                             !! normalizeQuery "synth" = Some p ∧ r = uiResult p)
                   ∨ (∃ p, parameterIndex (search Example.fs Example.loaded "synth" D_api 10).1
                             !! normalizeQuery "synth" = Some p ∧ r = moduleResult p)
                   ∨ (∃ s, snippetIndex (search Example.fs Example.loaded "synth" D_api 10).1
                             !! normalizeQuery "synth" = Some s ∧ r = snippetResult s)))
               ∨ (matchType r ≠ M_exact
                  ∧ ∃ item, item ∈ allItems
                                     (search Example.fs Example.loaded "synth" D_api 10).1
                            ∧ r = resultOf item (score r) (matchType r))))
         (Example.returned (search Example.fs Example.loaded "synth" D_api 10).2).
Proof.
  apply (search_results_provenance Example.fs Example.loaded "synth" D_api 10).
  vm_compute. reflexivity.
Defined.

(** X9.  The match type of a result fixes its score: 1.0 for an exact hit,
    0.9 for a wildcard match, above 0.3 and at most 0.8 for a keyword match,
    and one of 0.4, 0.5, 0.6, 0.8 and 1.0 for a fuzzy match. *)
Theorem search_score_by_match_type (fs : Env) (st : Loader) (query : string)
    (domain : SearchDomain) (limit : Z) (results : list SearchResult) :
  (search fs st query domain limit).2 = Returns results →
  Forall (fun r =>
            match matchType r with
            | M_exact => score r = 1.0%Q
            | M_prefix => score r = 0.9%Q
            | M_keyword => (0.3 < score r)%Q ∧ (score r <= 0.8)%Q
            | M_fuzzy => score r ∈ [0.4%Q; 0.5%Q; 0.6%Q; 0.8%Q; 1.0%Q]
            end)
         results.
Proof.
  intros Hs. apply (search_Forall _ _ _ _ _ _ _ Hs). intros point collected Hc.
  apply (searchCollect_Forall _ _ _ _ _ _ _ Hc).
  - apply Forall_forall. intros r Hr.
    apply exactStage_results in Hr as (Hscore & -> & _). done.
  - done.
  - intros item matchCount _ Hm Hk. simpl. apply keywordScore_band; [done|].
    destruct (extractKeywords _); [done|simpl; lia].
  - intros item _ Ht. simpl. unfold similarityOf in *.
    pose proof (calculateSimilarity_values (normalizeQuery query) (item_id item)
                  (toLowerCase (item_name item)) (item_keywords item)) as Hv.
    apply elem_of_cons in Hv as [Hv | Hv]; [by rewrite Hv in Ht|done].
Qed.

Lemma search_score_by_match_type_witness :
  Forall (fun r =>
            match matchType r with
            | M_exact => score r = 1.0%Q
            | M_prefix => score r = 0.9%Q
            | M_keyword => (0.3 < score r)%Q ∧ (score r <= 0.8)%Q
            | M_fuzzy => score r ∈ [0.4%Q; 0.5%Q; 0.6%Q; 0.8%Q; 1.0%Q]
            end)
         (Example.returned (search Example.fs Example.loaded "Synth.*" D_all 10).2).
Proof.
  apply (search_score_by_match_type Example.fs Example.loaded "Synth.*" D_all 10).
  vm_compute. reflexivity.
Defined.
(** ** Nothing is lost below the limit *)

(** A loop that leaves only with [cap] results, never drops a result or a
    seen id, and marks every hit as seen, has marked every hit of [xs] when it
    ends with fewer than [cap] results. *)
Lemma forOf_complete {X : Type} (body : acc → X → acc * bool) (key : X → string)
    (hit : X → bool) (cap : Z) :
  (∀ a x, (body a x).2 = true → reached (body a x).1 cap = true) →
  (∀ a x, a.2 ⊆ (body a x).1.2) →
  (∀ a x, hit x = true → key x ∈ (body a x).1.2) →
  ∀ xs a, reached (forOf body xs a) cap = false →
          ∀ x, x ∈ xs → hit x = true → key x ∈ (forOf body xs a).2.
Proof.
  intros Hleave Hmono Hhit. induction xs as [|y xs IH]; intros a Hcap x Hx Hx'.
  { by apply elem_of_nil in Hx. }
  simpl in *. pose proof (Hleave a y) as Hl. pose proof (Hhit a y) as Hh.
  pose proof (Hmono a y) as Hm.
  destruct (body a y) as [a' leave]. simpl in *. destruct leave.
  { rewrite Hl in Hcap; done. }
  apply elem_of_cons in Hx as [-> | Hx]; [|by apply IH].
  assert (Hsub : a'.2 ⊆ (forOf body xs a').2).
  { apply (forOf_ind (fun s => a'.2 ⊆ s.2)); [|done].
    intros s z _ Hs. etrans; [done|]. apply Hmono. }
  apply Hsub. by apply Hh.
Qed.

Lemma prefixBody_complete regex limit items a :
  reached (forOf (prefixBody regex limit) items a) (limit * 2) = false →
  ∀ item, item ∈ items →
    test regex (item_id item) || test regex (toLowerCase (item_name item)) = true →
    item_id item ∈ (forOf (prefixBody regex limit) items a).2.
Proof.
  apply (forOf_complete (prefixBody regex limit) item_id
           (fun item => test regex (item_id item) || test regex (toLowerCase (item_name item)))).
  - intros s x. unfold prefixBody. case_bool_decide; [done|].
    by destruct (_ || _).
  - intros s x. unfold prefixBody. case_bool_decide; [done|].
    destruct (_ || _); simpl; set_solver.
  - intros s x Hx. unfold prefixBody. case_bool_decide; [done|].
    rewrite Hx. simpl. set_solver.
Qed.

Lemma fuzzyBody_complete normalized limit items a :
  reached (fuzzyStage items normalized limit a) (limit * 5) = false →
  ∀ item, item ∈ items →
    Qle_bool 0.4 (similarityOf normalized item) = true →
    item_id item ∈ (fuzzyStage items normalized limit a).2.
Proof.
  apply (forOf_complete (fuzzyBody normalized limit) item_id
           (fun item => Qle_bool 0.4 (similarityOf normalized item))).
  - intros s x. unfold fuzzyBody. case_bool_decide; [done|].
    by destruct (Qle_bool _ _).
  - intros s x. unfold fuzzyBody. case_bool_decide; [done|].
    destruct (Qle_bool _ _); simpl; set_solver.
  - intros s x Hx. unfold fuzzyBody. case_bool_decide; [done|].
    unfold similarityOf in Hx. rewrite Hx. simpl. set_solver.
Qed.

(** Every seen id is the id of a result, or it is the normalised query and
    there is an exact hit. *)
Lemma appended_seen_results items normalized a a' :
  appended items normalized a a' →
  (∀ x, x ∈ a.2 →
        ∃ r, r ∈ a.1 ∧ (res_id r = x ∨ (matchType r = M_exact ∧ x = normalized))) →
  ∀ x, x ∈ a'.2 →
       ∃ r, r ∈ a'.1 ∧ (res_id r = x ∨ (matchType r = M_exact ∧ x = normalized)).
Proof.
  intros H Ha. induction H as [|a a' item s m _ IH _ _ _]; [done|].
  intros x Hx. simpl in Hx. apply elem_of_union in Hx as [Hx | Hx%elem_of_singleton].
  - destruct (IH Ha x Hx) as (r & Hr & Hid). exists r. split; [|done].
    simpl. apply elem_of_app. by left.
  - subst x. exists (resultOf item s m). split; [|by left].
    simpl. apply elem_of_app. right. left.
Qed.

Lemma exactStage_seen_results st domain normalized :
  ∀ x, x ∈ (exactStage st domain normalized).2 →
       ∃ r, r ∈ (exactStage st domain normalized).1
            ∧ (res_id r = x ∨ (matchType r = M_exact ∧ x = normalized)).
Proof.
  intros x Hx.
  destruct (exactStage_shape st domain normalized)
    as (oa & ou & om & os & _ & _ & _ & _ & _ & H).
  apply H in Hx as [-> Hne].
  destruct (exactStage st domain normalized).1 as [|r l] eqn:E; [done|].
  exists r. split; [left|]. right. split; [|done].
  assert (Hr : r ∈ (exactStage st domain normalized).1) by (rewrite E; left).
  by apply exactStage_results in Hr as (_ & ? & _).
Qed.

Lemma reached_false (a : acc) (cap : Z) :
  reached a cap = false ↔ Z.of_nat (length a.1) < cap.
Proof. unfold reached. rewrite Z.geb_leb. apply Z.leb_gt. Qed.

Lemma finish_below point collected limit :
  Z.of_nat (length (finish point collected limit)) < limit →
  Z.of_nat (length collected) < limit ∧ finish point collected limit ≡ₚ collected.
Proof.
  intros H.
  assert (Hslice : ∀ l : list SearchResult,
    Z.of_nat (length (slice0 l limit)) < limit →
    Z.of_nat (length l) < limit ∧ slice0 l limit = l).
  { intros l. rewrite slice0_nonneg by lia. rewrite length_take. intros Hl.
    assert (length l < Z.to_nat limit)%nat by lia.
    split; [lia|]. apply take_ge. lia. }
  unfold finish in *. destruct point.
  - apply Hslice in H as [? ->]. done.
  - apply Hslice in H as [Hl ->]. rewrite sortByScore_perm.
    split; [|done]. by rewrite (Permutation_length (sortByScore_perm score collected)) in Hl.
  - apply Hslice in H as [Hl ->]. rewrite sortByScore_perm.
    split; [|done]. by rewrite (Permutation_length (sortByScore_perm score collected)) in Hl.
  - apply Hslice in H as [Hl ->]. rewrite sortByScore_perm.
    split; [|done]. by rewrite (Permutation_length (sortByScore_perm score collected)) in Hl.
Qed.

(** What [searchCollect] has seen when it ends with fewer than [limit]
    results: every wildcard match and every entry at or above the fuzzy
    threshold. *)
Lemma searchCollect_complete st normalized domain limit point collected :
  searchCollect st normalized domain limit = Returns (point, collected) →
  Z.of_nat (length collected) < limit →
  ∃ a, a.1 = collected
       ∧ appended (itemsToSearch st domain) normalized (exactStage st domain normalized) a
       ∧ ∀ item, item ∈ itemsToSearch st domain →
           Qle_bool 0.4 (similarityOf normalized item) = true
           ∨ (∃ regex, includes normalized "*" = true
                       ∧ RegExp (wildcardPattern normalized) = Compiled regex
                       ∧ test regex (item_id item)
                         || test regex (toLowerCase (item_name item)) = true) →
           item_id item ∈ a.2.
Proof.
  unfold searchCollect. set (items := itemsToSearch st domain).
  destruct (reached (exactStage st domain normalized) limit) eqn:R1.
  { intros [= _ <-] H%reached_false. congruence. }
  destruct (prefixStage items normalized limit _) as [a2| |] eqn:E2; [|done..].
  destruct (reached a2 limit) eqn:R2.
  { intros [= _ <-] H%reached_false. congruence. }
  destruct (reached (keywordStage st items normalized limit a2) limit) eqn:R3.
  { intros [= _ <-] H%reached_false. congruence. }
  intros [= _ <-] Hlen.
  set (a3 := keywordStage st items normalized limit a2) in *.
  pose proof (prefixStage_appended _ _ _ _ _ E2) as H2.
  pose proof (keywordStage_appended st items normalized limit a2) as H3. fold a3 in H3.
  pose proof (fuzzyStage_appended items normalized limit a3) as H4.
  exists (fuzzyStage items normalized limit a3). split; [done|]. split.
  { eapply appended_trans; [by eapply appended_trans|done]. }
  apply appended_mono in H3 as [S3 L3]. apply appended_mono in H4 as [S4 L4].
  intros item Hitem [Hfuzzy | (regex & Hstar & Hre & Htest)].
  - apply fuzzyBody_complete; [|done..]. apply reached_false. lia.
  - apply S4, S3. revert E2. unfold prefixStage. rewrite Hstar, Hre. intros [= <-].
    apply prefixBody_complete; [|done..]. apply reached_false. lia.
Qed.

(** X10.  When [search] returns fewer than [limit] results, no match was
    cut off: every catalog entry of the domain that the wildcard pattern
    matches, or whose similarity to the query is at least 0.4, is among the
    results under its id, or its id is the normalised query and an exact hit
    is among the results; and every exact hit is returned. *)
Theorem search_complete_below_limit (fs : Env) (st : Loader) (query : string)
    (domain : SearchDomain) (limit : Z) (results : list SearchResult) :
  (search fs st query domain limit).2 = Returns results →
  Z.of_nat (length results) < limit →
  Forall (fun item =>
            Qle_bool 0.4 (similarityOf (normalizeQuery query) item) = true
            ∨ (∃ regex, includes (normalizeQuery query) "*" = true
                        ∧ RegExp (wildcardPattern (normalizeQuery query)) = Compiled regex
                        ∧ test regex (item_id item)
                          || test regex (toLowerCase (item_name item)) = true) →
            ∃ r, r ∈ results
                 ∧ (res_id r = item_id item
                    ∨ (matchType r = M_exact ∧ item_id item = normalizeQuery query)))
         (itemsToSearch (search fs st query domain limit).1 domain)
  ∧ Forall (fun r => r ∈ results)
           (exactStage (search fs st query domain limit).1 domain (normalizeQuery query)).1.
Proof.
  rewrite search_unfold. cbn [fst snd].
  set (st' := if needsSnippets domain then ensureSnippetsLoaded fs st else st).
  destruct (searchCollect st' (normalizeQuery query) domain limit)
    as [[point collected]| |] eqn:Hc; [|done..].
  intros [= <-] [Hlen Hperm]%finish_below.
  destruct (searchCollect_complete _ _ _ _ _ _ Hc Hlen) as (a & <- & Happ & Hseen).
  split.
  - apply Forall_forall. intros item Hitem Hmatch.
    destruct (appended_seen_results _ _ _ _ Happ (exactStage_seen_results _ _ _)
                (item_id item) (Hseen item Hitem Hmatch)) as (r & Hr & Hid).
    exists r. split; [by rewrite Hperm|done].
  - apply Forall_forall. intros r Hr. rewrite Hperm.
    apply appended_results in Happ as [l ->]. apply elem_of_app. by left.
Qed.

Lemma search_complete_below_limit_witness :
  Forall (fun item =>
            Qle_bool 0.4 (similarityOf (normalizeQuery "Synth.*") item) = true
            ∨ (∃ regex, includes (normalizeQuery "Synth.*") "*" = true
                        ∧ RegExp (wildcardPattern (normalizeQuery "Synth.*")) = Compiled regex
                        ∧ test regex (item_id item)
                          || test regex (toLowerCase (item_name item)) = true) →
            ∃ r, r ∈ Example.returned (search Example.fs Example.loaded "Synth.*" D_api 10).2
                 ∧ (res_id r = item_id item
                    ∨ (matchType r = M_exact ∧ item_id item = normalizeQuery "Synth.*")))
         (itemsToSearch (search Example.fs Example.loaded "Synth.*" D_api 10).1 D_api)
  ∧ Forall (fun r =>
              r ∈ Example.returned (search Example.fs Example.loaded "Synth.*" D_api 10).2)
           (exactStage (search Example.fs Example.loaded "Synth.*" D_api 10).1 D_api
              (normalizeQuery "Synth.*")).1.
Proof.
  apply (search_complete_below_limit Example.fs Example.loaded "Synth.*" D_api 10).
  - vm_compute. reflexivity.
  - vm_compute. reflexivity.
Defined.

Lemma exactStage_length st domain normalized :
  (length (exactStage st domain normalized).1 <= 4)%nat.
Proof.
  destruct (exactStage_shape st domain normalized)
    as (oa & ou & om & os & _ & _ & _ & _ & -> & _).
  rewrite !length_app. destruct oa, ou, om, os; simpl; lia.
Qed.

(** X11.  With a limit of 0 or less, [search] returns at its first [return]
    statement: it never compiles the pattern, so it never throws, and what it
    returns is the exact hits without the last [-limit] of them: nothing for
    limit 0, and never more than three results. *)
Theorem search_nonpositive_limit (fs : Env) (st : Loader) (query : string)
    (domain : SearchDomain) (limit : Z) :
  limit <= 0 →
  (search fs st query domain limit).2
  = Returns (slice0 (exactStage (search fs st query domain limit).1 domain
                       (normalizeQuery query)).1 limit)
  ∧ (length (slice0 (exactStage (search fs st query domain limit).1 domain
                       (normalizeQuery query)).1 limit) <= 3)%nat
  ∧ (limit = 0 →
     slice0 (exactStage (search fs st query domain limit).1 domain
               (normalizeQuery query)).1 limit = []).
Proof.
  intros Hlimit. rewrite search_unfold. cbn [fst snd].
  set (st' := if needsSnippets domain then ensureSnippetsLoaded fs st else st).
  pose proof (exactStage_length st' domain (normalizeQuery query)) as Hlen.
  split; [|split].
  - unfold searchCollect.
    assert (R : reached (exactStage st' domain (normalizeQuery query)) limit = true).
    { unfold reached. rewrite Z.geb_leb. apply Z.leb_le. lia. }
    by rewrite R.
  - unfold slice0. destruct (limit <? 0) eqn:E.
    + apply Z.ltb_lt in E. rewrite length_take. lia.
    + apply Z.ltb_ge in E. rewrite length_take. lia.
  - intros ->. done.
Qed.

Lemma search_nonpositive_limit_witness :
  (search Example.fs Example.loaded "Synth.(*" D_all (-1)).2
  = Returns (slice0 (exactStage (search Example.fs Example.loaded "Synth.(*" D_all (-1)).1 D_all
                       (normalizeQuery "Synth.(*")).1 (-1))
  ∧ (length (slice0 (exactStage (search Example.fs Example.loaded "Synth.(*" D_all (-1)).1 D_all
                       (normalizeQuery "Synth.(*")).1 (-1)) <= 3)%nat
  ∧ (-1 = 0 →
     slice0 (exactStage (search Example.fs Example.loaded "Synth.(*" D_all (-1)).1 D_all
               (normalizeQuery "Synth.(*")).1 (-1) = []).
Proof.
  apply (search_nonpositive_limit Example.fs Example.loaded "Synth.(*" D_all (-1)). lia.
Defined.
(** ** The keyword tokenizer *)

Lemma alnum_toLowerChar c : isAlnumLower c = true → toLowerChar c = c.
Proof.
  unfold isAlnumLower, toLowerChar, isUpper, code. intros H.
  destruct c as [[] [] [] [] [] [] [] []]; done.
Qed.

Lemma alnum_toLowerCase w :
  forallb isAlnumLower (String.list_ascii_of_string w) = true → toLowerCase w = w.
Proof.
  induction w as [|c w IH]; [done|]. simpl. intros [Hc Hw]%andb_true_iff.
  by rewrite alnum_toLowerChar, IH.
Qed.

Lemma rev_app_chars s1 s2 :
  forallb isAlnumLower (String.list_ascii_of_string s1) = true →
  forallb isAlnumLower (String.list_ascii_of_string s2) = true →
  forallb isAlnumLower (String.list_ascii_of_string (String.rev_app s1 s2)) = true.
Proof.
  revert s2. induction s1 as [|c s1 IH]; intros s2; simpl; [done|].
  intros [Hc H1]%andb_true_iff H2. apply IH; [done|]. simpl. by rewrite Hc.
Qed.

Lemma rev_app_nonempty s1 s2 :
  s1 ≠ EmptyString ∨ s2 ≠ EmptyString → String.rev_app s1 s2 ≠ EmptyString.
Proof.
  revert s2. induction s1 as [|c s1 IH]; intros s2; simpl.
  - by intros [?|?].
  - intros _. apply IH. by right.
Qed.

(** The words the tokenizer reads are non-empty runs of [a-z0-9]. *)
Lemma matchAlnumRuns_words cur s w :
  forallb isAlnumLower (String.list_ascii_of_string cur) = true →
  w ∈ matchAlnumRuns cur s →
  forallb isAlnumLower (String.list_ascii_of_string w) = true ∧ w ≠ EmptyString.
Proof.
  revert cur. induction s as [|c s IH]; intros cur Hcur; simpl.
  - destruct cur as [|a cur]; [by intros ?%elem_of_nil|].
    intros ->%list_elem_of_singleton. split.
    + by apply rev_app_chars.
    + apply rev_app_nonempty. by left.
  - destruct (isAlnumLower c) eqn:Hc.
    + intros Hw. apply (IH (String c cur)); [|done]. simpl. by rewrite Hc.
    + destruct cur as [|a cur]; [intros Hw; by apply (IH EmptyString)|].
      intros [-> | Hw]%elem_of_cons; [|by apply (IH EmptyString)]. split.
      * by apply rev_app_chars.
      * apply rev_app_nonempty. by left.
Qed.

(** A run of [a-z0-9] is read back as one word. *)
Lemma matchAlnumRuns_run cur w :
  forallb isAlnumLower (String.list_ascii_of_string w) = true →
  w ≠ EmptyString →
  matchAlnumRuns cur w = [String.rev_app cur w].
Proof.
  revert cur. induction w as [|c w IH]; intros cur Hw Hne; [done|].
  simpl in *. apply andb_true_iff in Hw as [Hc Hw]. rewrite Hc.
  destruct w as [|c' w]; [done|]. by rewrite IH.
Qed.

Lemma setAdd_elem x y l : x ∈ setAdd y l ↔ x ∈ l ∨ x = y.
Proof.
  unfold setAdd. case_bool_decide as H.
  - split; [by left|]. by intros [?| ->].
  - rewrite elem_of_app, list_elem_of_singleton. done.
Qed.

Lemma setAdd_NoDup y l : NoDup l → NoDup (setAdd y l).
Proof.
  unfold setAdd. case_bool_decide as H; [done|]. intros Hl.
  apply NoDup_app. split; [done|]. split; [|apply NoDup_singleton].
  intros x Hx ->%list_elem_of_singleton. done.
Qed.

Lemma setAdd_idem y l : setAdd y (setAdd y l) = setAdd y l.
Proof.
  unfold setAdd at 1. rewrite bool_decide_eq_true_2; [done|].
  apply setAdd_elem. by right.
Qed.

Lemma addWord_tokens keywords word :
  forallb isAlnumLower (String.list_ascii_of_string word) = true →
  NoDup keywords
  ∧ Forall (fun w => (2 < String.length w)%nat ∧ (w ∉ STOPWORDS)
                     ∧ forallb isAlnumLower (String.list_ascii_of_string w) = true)
           keywords →
  NoDup (addWord keywords word)
  ∧ Forall (fun w => (2 < String.length w)%nat ∧ (w ∉ STOPWORDS)
                     ∧ forallb isAlnumLower (String.list_ascii_of_string w) = true)
           (addWord keywords word).
Proof.
  intros Hword [Hnd Hall]. unfold addWord.
  destruct (_ && _) eqn:E; [|done].
  apply andb_true_iff in E as [Hlen Hstop]. split; [by apply setAdd_NoDup|].
  apply Forall_forall. intros w [Hw | ->]%setAdd_elem.
  - rewrite Forall_forall in Hall. by apply Hall.
  - split; [by apply Nat.ltb_lt|]. split; [|done].
    apply negb_true_iff in Hstop. by apply bool_decide_eq_false in Hstop.
Qed.

Lemma extractKeywords_invariant texts init :
  NoDup init
  ∧ Forall (fun w => (2 < String.length w)%nat ∧ (w ∉ STOPWORDS)
                     ∧ forallb isAlnumLower (String.list_ascii_of_string w) = true)
           init →
  NoDup (foldl (fun keywords text =>
                  foldl addWord keywords (matchAlnumRuns "" (toLowerCase text)))
               init texts)
  ∧ Forall (fun w => (2 < String.length w)%nat ∧ (w ∉ STOPWORDS)
                     ∧ forallb isAlnumLower (String.list_ascii_of_string w) = true)
           (foldl (fun keywords text =>
                     foldl addWord keywords (matchAlnumRuns "" (toLowerCase text)))
                  init texts).
Proof.
  revert init. induction texts as [|text texts IH]; intros init Hinit; [done|].
  simpl. apply IH.
  assert (Hwords : ∀ w, w ∈ matchAlnumRuns "" (toLowerCase text) →
                        forallb isAlnumLower (String.list_ascii_of_string w) = true).
  { intros w Hw. by apply (matchAlnumRuns_words "" _ w) in Hw as [? _]. }
  revert init Hinit. induction (matchAlnumRuns "" (toLowerCase text)) as [|w ws IHw];
    intros init Hinit; [done|].
  simpl. apply IHw.
  - intros w' Hw'. apply Hwords. by right.
  - apply addWord_tokens; [|done]. apply Hwords. left.
Qed.

(** Reading a list of distinct keywords again appends them as they are. *)
Lemma extractKeywords_again l init :
  Forall (fun w => (2 < String.length w)%nat ∧ (w ∉ STOPWORDS)
                   ∧ forallb isAlnumLower (String.list_ascii_of_string w) = true) l →
  NoDup (init ++ l) →
  foldl (fun keywords text =>
           foldl addWord keywords (matchAlnumRuns "" (toLowerCase text)))
        init l
  = init ++ l.
Proof.
  revert init. induction l as [|w l IH]; intros init Hl Hnd; simpl.
  { by rewrite app_nil_r. }
  apply Forall_cons_1 in Hl as [(Hlen & Hstop & Hw) Hl].
  assert (Hne : w ≠ EmptyString) by (intros ->; simpl in Hlen; lia).
  rewrite alnum_toLowerCase, matchAlnumRuns_run by done.
  simpl. unfold addWord.
  rewrite (proj2 (Nat.ltb_lt _ _) Hlen), bool_decide_eq_false_2 by done. simpl.
  unfold setAdd. rewrite bool_decide_eq_false_2.
  - rewrite IH; [by rewrite <- app_assoc|done|by rewrite <- app_assoc].
  - apply NoDup_app in Hnd as (_ & Hnd & _). intros Hin. apply (Hnd _ Hin). left.
Qed.

(** X12.  The keywords that [extractKeywords] returns are distinct words of
    [a-z0-9], longer than two characters, none of them a stop word.  The
    letter case of the texts does not matter, and extracting the keywords of
    a keyword list gives the list back. *)
Theorem extractKeywords_tokens (texts : list string) :
  NoDup (extractKeywords texts)
  ∧ Forall (fun w => (2 < String.length w)%nat ∧ (w ∉ STOPWORDS)
                     ∧ forallb isAlnumLower (String.list_ascii_of_string w) = true)
           (extractKeywords texts)
  ∧ extractKeywords (toLowerCase <$> texts) = extractKeywords texts
  ∧ extractKeywords (extractKeywords texts) = extractKeywords texts.
Proof.
  assert (H : NoDup (extractKeywords texts)
    ∧ Forall (fun w => (2 < String.length w)%nat ∧ (w ∉ STOPWORDS)
                       ∧ forallb isAlnumLower (String.list_ascii_of_string w) = true)
             (extractKeywords texts)).
  { apply extractKeywords_invariant. split; constructor. }
  destruct H as [Hnd Hall]. split; [done|]. split; [done|]. split.
  - unfold extractKeywords. generalize (@nil string). clear Hnd Hall.
    induction texts as [|text texts IH]; intros init; [done|].
    rewrite fmap_cons. cbn [foldl]. by rewrite toLowerCase_idem, IH.
  - unfold extractKeywords at 1. by rewrite extractKeywords_again.
Qed.
(** ** The loader as a function of its data *)

Lemma setSnippetsLoaded_same st : setSnippetsLoaded (snippetsLoaded st) st = st.
Proof. by destruct st. Qed.

Lemma foldl_commute {X : Type} (f : Loader → X → Loader) (g : Loader → Loader)
    (l : list X) (st : Loader) :
  (∀ s x, f (g s) x = g (f s x)) → foldl f (g st) l = g (foldl f st l).
Proof.
  intros H. revert st. induction l as [|x l IH]; intros st; simpl; [done|].
  by rewrite H, IH.
Qed.

Lemma foldl_indexProperty l st :
  data (foldl indexProperty st l) = data st
  ∧ snippetsLoaded (foldl indexProperty st l) = snippetsLoaded st
  ∧ apiMethodIndex (foldl indexProperty st l) = apiMethodIndex st
  ∧ parameterIndex (foldl indexProperty st l) = parameterIndex st
  ∧ snippetIndex (foldl indexProperty st l) = snippetIndex st
  ∧ allItems (foldl indexProperty st l) = allItems st ++ (propertyItem <$> l)
  ∧ ∀ k, propertyIndex (foldl indexProperty st l) !! k
         = match findLast (fun p => String.eqb (propertyKey p) k) l with
           | Some p => Some p
           | None => propertyIndex st !! k
           end.
Proof.
  revert st. induction l as [|x l IH]; intros st.
  { simpl. by rewrite app_nil_r. }
  cbn [foldl]. destruct (IH (indexProperty st x)) as (-> & -> & -> & -> & -> & -> & H).
  repeat (split; [done|]). split.
  { simpl. by rewrite <- app_assoc. }
  intros k. rewrite H. cbn [findLast]. destruct (findLast _ l); [done|].
  simpl. fold (propertyKey x). destruct (String.eqb_spec (propertyKey x) k) as [->|Hne].
  - by rewrite lookup_insert_eq.
  - by rewrite lookup_insert_ne.
Qed.

Lemma foldl_indexMethod l st :
  data (foldl indexMethod st l) = data st
  ∧ snippetsLoaded (foldl indexMethod st l) = snippetsLoaded st
  ∧ propertyIndex (foldl indexMethod st l) = propertyIndex st
  ∧ parameterIndex (foldl indexMethod st l) = parameterIndex st
  ∧ snippetIndex (foldl indexMethod st l) = snippetIndex st
  ∧ allItems (foldl indexMethod st l) = allItems st ++ (methodItem <$> l)
  ∧ ∀ k, apiMethodIndex (foldl indexMethod st l) !! k
         = match findLast (fun m => String.eqb (methodKey m) k) l with
           | Some m => Some m
           | None => apiMethodIndex st !! k
           end.
Proof.
  revert st. induction l as [|x l IH]; intros st.
  { simpl. by rewrite app_nil_r. }
  cbn [foldl]. destruct (IH (indexMethod st x)) as (-> & -> & -> & -> & -> & -> & H).
  repeat (split; [done|]). split.
  { simpl. by rewrite <- app_assoc. }
  intros k. rewrite H. cbn [findLast]. destruct (findLast _ l); [done|].
  simpl. fold (methodKey x). destruct (String.eqb_spec (methodKey x) k) as [->|Hne].
  - by rewrite lookup_insert_eq.
  - by rewrite lookup_insert_ne.
Qed.

Lemma foldl_indexParameter l st :
  data (foldl indexParameter st l) = data st
  ∧ snippetsLoaded (foldl indexParameter st l) = snippetsLoaded st
  ∧ propertyIndex (foldl indexParameter st l) = propertyIndex st
  ∧ apiMethodIndex (foldl indexParameter st l) = apiMethodIndex st
  ∧ snippetIndex (foldl indexParameter st l) = snippetIndex st
  ∧ allItems (foldl indexParameter st l) = allItems st ++ (parameterItem <$> l)
  ∧ ∀ k, parameterIndex (foldl indexParameter st l) !! k
         = match findLast (fun p => String.eqb (parameterKey p) k) l with
           | Some p => Some p
           | None => parameterIndex st !! k
           end.
Proof.
  revert st. induction l as [|x l IH]; intros st.
  { simpl. by rewrite app_nil_r. }
  cbn [foldl]. destruct (IH (indexParameter st x)) as (-> & -> & -> & -> & -> & -> & H).
  repeat (split; [done|]). split.
  { simpl. by rewrite <- app_assoc. }
  intros k. rewrite H. cbn [findLast]. destruct (findLast _ l); [done|].
  simpl. fold (parameterKey x). destruct (String.eqb_spec (parameterKey x) k) as [->|Hne].
  - by rewrite lookup_insert_eq.
  - by rewrite lookup_insert_ne.
Qed.

Lemma foldl_indexSnippet l st :
  data (foldl indexSnippet st l) = data st
  ∧ snippetsLoaded (foldl indexSnippet st l) = snippetsLoaded st
  ∧ propertyIndex (foldl indexSnippet st l) = propertyIndex st
  ∧ apiMethodIndex (foldl indexSnippet st l) = apiMethodIndex st
  ∧ parameterIndex (foldl indexSnippet st l) = parameterIndex st
  ∧ allItems (foldl indexSnippet st l) = allItems st ++ (snippetItem <$> l)
  ∧ ∀ k, snippetIndex (foldl indexSnippet st l) !! k
         = match findLast (fun s => String.eqb (snip_id s) k) l with
           | Some s => Some s
           | None => snippetIndex st !! k
           end.
Proof.
  revert st. induction l as [|x l IH]; intros st.
  { simpl. by rewrite app_nil_r. }
  cbn [foldl]. destruct (IH (indexSnippet st x)) as (-> & -> & -> & -> & -> & -> & H).
  repeat (split; [done|]). split.
  { simpl. by rewrite <- app_assoc. }
  intros k. rewrite H. cbn [findLast]. destruct (findLast _ l); [done|].
  simpl. destruct (String.eqb_spec (snip_id x) k) as [->|Hne].
  - by rewrite lookup_insert_eq.
  - by rewrite lookup_insert_ne.
Qed.

(** [buildIndexes] reads the flag [snippetsLoaded] and nothing else of the
    loader it starts from. *)
Lemma buildIndexes_from_scratch d st :
  buildIndexes (setData (Some d) st)
  = setSnippetsLoaded (snippetsLoaded st) (buildIndexes (setData (Some d) newLoader)).
Proof.
  unfold buildIndexes. cbn [data setData snippetsLoaded]. cbv zeta.
  rewrite <- !(foldl_commute _ (setSnippetsLoaded (snippetsLoaded st))) by done.
  done.
Qed.

(** It reads the three record lists of the data and nothing else. *)
Lemma buildIndexes_same_lists d d' st :
  uiComponentProperties d' = uiComponentProperties d →
  scriptingAPI d' = scriptingAPI d →
  moduleParameters d' = moduleParameters d →
  buildIndexes (setData (Some d') st) = setData (Some d') (buildIndexes (setData (Some d) st)).
Proof.
  intros H1 H2 H3. unfold buildIndexes. cbn [data setData snippetsLoaded]. cbv zeta.
  rewrite H1, H2, H3.
  rewrite <- !(foldl_commute _ (setData (Some d'))) by done.
  done.
Qed.

Lemma buildIndexes_fields d st :
  data (buildIndexes (setData (Some d) st)) = Some d
  ∧ snippetsLoaded (buildIndexes (setData (Some d) st)) = snippetsLoaded st
  ∧ snippetIndex (buildIndexes (setData (Some d) st)) = ∅
  ∧ allItems (buildIndexes (setData (Some d) st))
    = (propertyItem <$> uiComponentProperties d) ++ (methodItem <$> scriptingAPI d)
      ++ (parameterItem <$> moduleParameters d)
  ∧ (∀ k, propertyIndex (buildIndexes (setData (Some d) st)) !! k
          = findLast (fun p => String.eqb (propertyKey p) k) (uiComponentProperties d))
  ∧ (∀ k, apiMethodIndex (buildIndexes (setData (Some d) st)) !! k
          = findLast (fun m => String.eqb (methodKey m) k) (scriptingAPI d))
  ∧ (∀ k, parameterIndex (buildIndexes (setData (Some d) st)) !! k
          = findLast (fun p => String.eqb (parameterKey p) k) (moduleParameters d)).
Proof.
  unfold buildIndexes. cbn [data setData snippetsLoaded]. cbv zeta.
  set (cleared := {| data := Some d; propertyIndex := ∅; apiMethodIndex := ∅;
                     parameterIndex := ∅; snippetIndex := ∅; keywordIndex := ∅;
                     allItems := []; snippetsLoaded := snippetsLoaded st |}).
  destruct (foldl_indexProperty (uiComponentProperties d) cleared)
    as (U1 & U2 & U3 & U4 & U5 & U6 & U7).
  destruct (foldl_indexMethod (scriptingAPI d)
              (foldl indexProperty cleared (uiComponentProperties d)))
    as (A1 & A2 & A3 & A4 & A5 & A6 & A7).
  destruct (foldl_indexParameter (moduleParameters d)
              (foldl indexMethod (foldl indexProperty cleared (uiComponentProperties d))
                 (scriptingAPI d)))
    as (M1 & M2 & M3 & M4 & M5 & M6 & M7).
  rewrite M1, M2, M3, M4, M5, M6, A1, A2, A3, A5, A6, U1, U2, U5, U6.
  split; [done|]. split; [done|]. split; [done|]. split; [by rewrite <- app_assoc|].
  split; [|split].
  - intros k. rewrite U7. by destruct (findLast _ _).
  - intros k. rewrite A7, U3. by destruct (findLast _ _).
  - intros k. rewrite M7, A4, U4. by destruct (findLast _ _).
Qed.

Lemma buildIndexes_indexesOf d st :
  codeSnippets d = [] ∨ snippetsLoaded st = false →
  buildIndexes (setData (Some d) st) = indexesOf d (snippetsLoaded st).
Proof.
  intros H. rewrite buildIndexes_from_scratch. unfold indexesOf.
  destruct (buildIndexes_fields d newLoader) as (_ & L0 & _).
  destruct (snippetsLoaded st) eqn:E.
  - destruct H as [-> | ?]; done.
  - rewrite <- (setSnippetsLoaded_same (buildIndexes (setData (Some d) newLoader))) at 2.
    by rewrite L0.
Qed.

Lemma reachable_indexesOf st d :
  reachable st → data st = Some d → st = indexesOf d (snippetsLoaded st).
Proof.
  intros Hst. revert d.
  induction Hst as [|fs st fs' st' _ IH Hload|fs st _ IH]; intros d Hd; [done|..].
  - unfold loadData in Hload. destruct (loadCache fs st) as [st1 b] eqn:Hc.
    destruct b.
    + injection Hload as _ <-. unfold loadCache in Hc.
      destruct (cacheFile fs) as [| |cache]; [done..|].
      destruct (_ || _); [done|]. injection Hc as <-.
      destruct (snap_data cache) as [d0|] eqn:Hsnap; [|done].
      change (setSnippetsLoaded false (setData (Some d0) st))
        with (setData (Some d0) (setSnippetsLoaded false st)) in *.
      destruct (buildIndexes_fields d0 (setSnippetsLoaded false st)) as (D & L & _).
      rewrite D in Hd. injection Hd as ->. rewrite L.
      apply buildIndexes_indexesOf. by right.
    + apply loadCache_false_inv in Hc as ->. unfold rebuild in Hload.
      destruct (uiSource fs) as [ui|]; [|done].
      destruct (apiSource fs) as [api|]; [|done].
      destruct (procSource fs) as [proc|]; [|done].
      injection Hload as _ <-.
      destruct (buildIndexes_fields
                  {| uiComponentProperties := ui; scriptingAPI := api;
                     moduleParameters := proc; codeSnippets := [] |} st) as (D & L & _).
      rewrite D in Hd. injection Hd as <-. rewrite L.
      apply buildIndexes_indexesOf. by left.
  - revert Hd. unfold ensureSnippetsLoaded.
    destruct (snippetsLoaded st) eqn:Hl; [by rewrite Hl; apply IH|].
    destruct (data st) as [d1|] eqn:Hd1; [|by rewrite Hd1].
    destruct (snippetSource fs) as [snippets|]; [|rewrite Hd1, Hl; intros; by apply IH].
    specialize (IH d1 eq_refl). unfold indexesOf in IH.
    set (d' := {| uiComponentProperties := uiComponentProperties d1;
                  scriptingAPI := scriptingAPI d1;
                  moduleParameters := moduleParameters d1;
                  codeSnippets := snippets |}).
    destruct (foldl_indexSnippet snippets (setData (Some d') st)) as (D & _).
    cbn [data setSnippetsLoaded snippetsLoaded]. rewrite D. intros [= <-].
    unfold indexesOf. cbn [codeSnippets d'].
    rewrite (buildIndexes_same_lists d1 d') by done.
    by rewrite IH at 1.
Qed.

Lemma indexesOf_fields d b :
  data (indexesOf d b) = Some d
  ∧ snippetsLoaded (indexesOf d b) = b
  ∧ allItems (indexesOf d b)
    = (propertyItem <$> uiComponentProperties d) ++ (methodItem <$> scriptingAPI d)
      ++ (parameterItem <$> moduleParameters d)
      ++ (if b then snippetItem <$> codeSnippets d else [])
  ∧ (∀ k, propertyIndex (indexesOf d b) !! k
          = findLast (fun p => String.eqb (propertyKey p) k) (uiComponentProperties d))
  ∧ (∀ k, apiMethodIndex (indexesOf d b) !! k
          = findLast (fun m => String.eqb (methodKey m) k) (scriptingAPI d))
  ∧ (∀ k, parameterIndex (indexesOf d b) !! k
          = findLast (fun p => String.eqb (parameterKey p) k) (moduleParameters d))
  ∧ (∀ k, snippetIndex (indexesOf d b) !! k
          = if b then findLast (fun s => String.eqb (snip_id s) k) (codeSnippets d)
            else None).
Proof.
  destruct (buildIndexes_fields d newLoader) as (D & L & S & I & U & A & M).
  unfold indexesOf. destruct b.
  - destruct (foldl_indexSnippet (codeSnippets d) (buildIndexes (setData (Some d) newLoader)))
      as (D' & L' & U' & A' & M' & I' & S').
    cbn [data snippetsLoaded allItems propertyIndex apiMethodIndex parameterIndex
         snippetIndex setSnippetsLoaded].
    rewrite D', U', A', M', I', I, D.
    split; [done|]. split; [done|]. split; [by rewrite <- !app_assoc|].
    split; [done|]. split; [done|]. split; [done|].
    intros k. rewrite S', S, lookup_empty. by destruct (findLast _ _).
  - rewrite D, I, S, app_nil_r.
    split; [done|]. split; [done|]. split; [done|].
    split; [done|]. split; [done|]. split; [done|].
    intros k. by rewrite lookup_empty.
Qed.

(** X13.  The indexes of a reachable loader that holds data are the ones
    built from that data from scratch, whatever was loaded before; its
    catalog lists the ui properties, then the api methods, then the module
    parameters, then (once they are loaded) the snippets, each in the order
    of the data. *)
Theorem loader_indexes_of_data (st : Loader) (d : HISEData) :
  reachable st →
  data st = Some d →
  st = indexesOf d (snippetsLoaded st)
  ∧ allItems st
    = (propertyItem <$> uiComponentProperties d) ++ (methodItem <$> scriptingAPI d)
      ++ (parameterItem <$> moduleParameters d)
      ++ (if snippetsLoaded st then snippetItem <$> codeSnippets d else []).
Proof.
  intros Hst Hd. pose proof (reachable_indexesOf st d Hst Hd) as E.
  split; [done|]. rewrite E at 1.
  by destruct (indexesOf_fields d (snippetsLoaded st)) as (_ & _ & -> & _).
Qed.

Lemma loader_indexes_of_data_witness :
  Example.withSnippets
  = indexesOf {| uiComponentProperties := [Example.filmstripImage];
                 scriptingAPI := [Example.addNoteOn; Example.synthesiserReset;
                                  Example.getSampleRate];
                 moduleParameters := [Example.gain];
                 codeSnippets := [Example.triggerMelody] |}
              (snippetsLoaded Example.withSnippets)
  ∧ allItems Example.withSnippets
    = (propertyItem <$> [Example.filmstripImage])
      ++ (methodItem <$> [Example.addNoteOn; Example.synthesiserReset; Example.getSampleRate])
      ++ (parameterItem <$> [Example.gain])
      ++ (if snippetsLoaded Example.withSnippets
          then snippetItem <$> [Example.triggerMelody] else []).
Proof.
  apply (loader_indexes_of_data Example.withSnippets
           {| uiComponentProperties := [Example.filmstripImage];
              scriptingAPI := [Example.addNoteOn; Example.synthesiserReset;
                               Example.getSampleRate];
              moduleParameters := [Example.gain];
              codeSnippets := [Example.triggerMelody] |}).
  - apply reach_snippets. apply reachable_example.
  - vm_compute. reflexivity.
Defined.

Lemma findLast_Some {A : Type} (p : A → bool) (l : list A) (x : A) :
  findLast p l = Some x → x ∈ l ∧ p x = true.
Proof.
  induction l as [|y l IH]; simpl; [done|].
  destruct (findLast p l) as [z|].
  - intros [= ->]. destruct IH as [? ?]; [done|]. split; [by right|done].
  - destruct (p y) eqn:E; [|done]. intros [= ->]. split; [left|done].
Qed.

Lemma findLast_None {A : Type} (p : A → bool) (l : list A) :
  findLast p l = None ↔ ∀ x, x ∈ l → p x = false.
Proof.
  induction l as [|y l IH]; simpl.
  { split; [by intros _ x ?%elem_of_nil|done]. }
  destruct (findLast p l) as [z|].
  - split; [done|]. intros H. destruct IH as [_ IH].
    discriminate IH. intros x Hx. apply H. by right.
  - destruct (p y) eqn:E.
    + split; [done|]. intros H. rewrite H in E; [done|left].
    + split; [|done]. intros _ x [-> | Hx]%elem_of_cons; [done|]. by apply IH.
Qed.

(** X14.  On a reachable loader that holds data, an exact query returns the
    last record of the data whose lower-cased [Type.member] is the normalised
    query, so of two records with the same key the later one wins; it returns
    nothing exactly when no record has that key.  The snippet dictionary
    holds, once the snippets are loaded, the last snippet with each id. *)
Theorem exact_queries_last_wins (st : Loader) (d : HISEData) (q : string) :
  reachable st →
  data st = Some d →
  queryUIProperty st q
  = findLast (fun p => String.eqb (propertyKey p) (normalizeQuery q))
      (uiComponentProperties d)
  ∧ queryScriptingAPI st q
    = findLast (fun m => String.eqb (methodKey m) (normalizeQuery q)) (scriptingAPI d)
  ∧ queryModuleParameter st q
    = findLast (fun p => String.eqb (parameterKey p) (normalizeQuery q))
        (moduleParameters d)
  ∧ snippetIndex st !! q
    = (if snippetsLoaded st
       then findLast (fun s => String.eqb (snip_id s) q) (codeSnippets d) else None)
  ∧ (queryScriptingAPI st q = None
     ↔ ∀ m, m ∈ scriptingAPI d → methodKey m ≠ normalizeQuery q)
  ∧ (∀ m, queryScriptingAPI st q = Some m →
          m ∈ scriptingAPI d ∧ methodKey m = normalizeQuery q).
Proof.
  intros Hst Hd. pose proof (reachable_indexesOf st d Hst Hd) as E.
  destruct (indexesOf_fields d (snippetsLoaded st)) as (_ & _ & _ & U & A & M & S).
  rewrite <- E in U, A, M, S.
  unfold queryUIProperty, queryScriptingAPI, queryModuleParameter.
  rewrite U, A, M, S. repeat (split; [done|]). split.
  - rewrite findLast_None. split; intros H m Hm.
    + intros Hk. specialize (H m Hm). by rewrite Hk, String.eqb_refl in H.
    + apply String.eqb_neq. by apply H.
  - intros m [Hm Hk]%findLast_Some. by apply String.eqb_eq in Hk.
Qed.

Lemma exact_queries_last_wins_witness :
  queryUIProperty Example.loaded "ScriptButton.filmstripImage"
  = findLast (fun p => String.eqb (propertyKey p) (normalizeQuery "ScriptButton.filmstripImage"))
      [Example.filmstripImage]
  ∧ queryScriptingAPI Example.loaded "ScriptButton.filmstripImage"
    = findLast (fun m => String.eqb (methodKey m) (normalizeQuery "ScriptButton.filmstripImage"))
        [Example.addNoteOn; Example.synthesiserReset; Example.getSampleRate]
  ∧ queryModuleParameter Example.loaded "ScriptButton.filmstripImage"
    = findLast (fun p => String.eqb (parameterKey p)
                           (normalizeQuery "ScriptButton.filmstripImage"))
        [Example.gain]
  ∧ snippetIndex Example.loaded !! "ScriptButton.filmstripImage"
    = (if snippetsLoaded Example.loaded
       then findLast (fun s => String.eqb (snip_id s) "ScriptButton.filmstripImage") []
       else None)
  ∧ (queryScriptingAPI Example.loaded "ScriptButton.filmstripImage" = None
     ↔ ∀ m, m ∈ [Example.addNoteOn; Example.synthesiserReset; Example.getSampleRate] →
            methodKey m ≠ normalizeQuery "ScriptButton.filmstripImage")
  ∧ (∀ m, queryScriptingAPI Example.loaded "ScriptButton.filmstripImage" = Some m →
          m ∈ [Example.addNoteOn; Example.synthesiserReset; Example.getSampleRate]
          ∧ methodKey m = normalizeQuery "ScriptButton.filmstripImage").
Proof.
  apply (exact_queries_last_wins Example.loaded
           {| uiComponentProperties := [Example.filmstripImage];
              scriptingAPI := [Example.addNoteOn; Example.synthesiserReset;
                               Example.getSampleRate];
              moduleParameters := [Example.gain];
              codeSnippets := [] |}
           "ScriptButton.filmstripImage").
  - apply reachable_example.
  - vm_compute. reflexivity.
Defined.
(** ** Invariants of the indexes *)

(** A property of the dictionaries, the keyword index and the catalog that
    holds of empty indexes and that the four indexing steps keep, holds of
    every reachable loader. *)
Section IndexInvariant.
Context (P : Loader → Prop).
Context (P_ext : ∀ st st',
  propertyIndex st' = propertyIndex st → apiMethodIndex st' = apiMethodIndex st →
  parameterIndex st' = parameterIndex st → snippetIndex st' = snippetIndex st →
  keywordIndex st' = keywordIndex st → allItems st' = allItems st → P st → P st').
Context (P_new : P newLoader).
Context (P_property : ∀ st x, P st → P (indexProperty st x)).
Context (P_method : ∀ st x, P st → P (indexMethod st x)).
Context (P_parameter : ∀ st x, P st → P (indexParameter st x)).
Context (P_snippet : ∀ st x, P st → P (indexSnippet st x)).

Lemma foldl_invariant {X : Type} (f : Loader → X → Loader) (l : list X) st :
  (∀ s x, P s → P (f s x)) → P st → P (foldl f st l).
Proof.
  intros Hf. revert st. induction l as [|x l IH]; intros st Hst; simpl; [done|].
  apply IH. by apply Hf.
Qed.

Lemma buildIndexes_invariant st : P st → P (buildIndexes st).
Proof.
  intros Hst. unfold buildIndexes. destruct (data st) as [d|]; [|done].
  apply foldl_invariant; [done|]. apply foldl_invariant; [done|].
  apply foldl_invariant; [done|]. by apply (P_ext newLoader).
Qed.

Lemma loadData_invariant fs st fs' st' :
  loadData fs st = Returns (fs', st') → P st → P st'.
Proof.
  unfold loadData, loadCache, rebuild. intros H Hst.
  assert (Hb : ∀ d, P (buildIndexes (setData d st))).
  { intros d. apply buildIndexes_invariant. by apply (P_ext st). }
  destruct (cacheFile fs) as [| |cache].
  - destruct (uiSource fs), (apiSource fs), (procSource fs); try done.
    injection H as _ <-. apply Hb.
  - destruct (uiSource fs), (apiSource fs), (procSource fs); try done.
    injection H as _ <-. apply Hb.
  - destruct (_ || _).
    + destruct (uiSource fs), (apiSource fs), (procSource fs); try done.
      injection H as _ <-. apply Hb.
    + injection H as _ <-. apply buildIndexes_invariant. by apply (P_ext st).
Qed.

Lemma ensureSnippetsLoaded_invariant fs st : P st → P (ensureSnippetsLoaded fs st).
Proof.
  intros Hst. unfold ensureSnippetsLoaded.
  destruct (snippetsLoaded st); [done|].
  destruct (data st) as [d|]; [|done].
  destruct (snippetSource fs) as [snippets|]; [|done].
  set (st0 := setData _ st).
  apply (P_ext (foldl indexSnippet st0 snippets)); [done..|].
  apply foldl_invariant; [done|]. by apply (P_ext st).
Qed.

Lemma reachable_invariant st : reachable st → P st.
Proof.
  induction 1 as [|fs st fs' st' _ IH Hload|fs st _ IH].
  - done.
  - by eapply loadData_invariant.
  - by apply ensureSnippetsLoaded_invariant.
Qed.
End IndexInvariant.

Lemma addToKeywordIndex_lookup itemId keywords index kw :
  default [] (addToKeywordIndex itemId keywords index !! kw)
  = if bool_decide (kw ∈ keywords) then setAdd itemId (default [] (index !! kw))
    else default [] (index !! kw).
Proof.
  unfold addToKeywordIndex. revert index.
  induction keywords as [|k keywords IH]; intros index; [done|].
  cbn [foldl]. rewrite IH. destruct (decide (k = kw)) as [->|Hne].
  - rewrite lookup_insert_eq. cbn [default].
    rewrite (bool_decide_eq_true_2 (kw ∈ kw :: keywords)) by left.
    case_bool_decide; [apply setAdd_idem|done].
  - rewrite lookup_insert_ne by done.
    case_bool_decide as H1; case_bool_decide as H2; try done.
    + exfalso. apply H2. by right.
    + exfalso. apply elem_of_cons in H2 as [->|?]; done.
Qed.

(** One indexing step: the entry is pushed on the catalog and its id is
    filed under each of its keywords. *)
Lemma keywordIndex_step st st' item :
  allItems st' = allItems st ++ [item] →
  keywordIndex st' = addToKeywordIndex (item_id item) (item_keywords item) (keywordIndex st) →
  (∀ kw, NoDup (default [] (keywordIndex st !! kw))
         ∧ ∀ id, id ∈ default [] (keywordIndex st !! kw)
                 ↔ ∃ i, i ∈ allItems st ∧ item_id i = id ∧ kw ∈ item_keywords i) →
  ∀ kw, NoDup (default [] (keywordIndex st' !! kw))
        ∧ ∀ id, id ∈ default [] (keywordIndex st' !! kw)
                ↔ ∃ i, i ∈ allItems st' ∧ item_id i = id ∧ kw ∈ item_keywords i.
Proof.
  intros Hitems Hindex H kw. destruct (H kw) as [Hnd Hiff].
  rewrite Hitems, Hindex, addToKeywordIndex_lookup. case_bool_decide as Hkw.
  - split; [by apply setAdd_NoDup|]. intros id. rewrite setAdd_elem, Hiff. split.
    + intros [(i & Hi & Hid & Hk) | ->].
      * exists i. split; [|done]. apply elem_of_app. by left.
      * exists item. split; [|done]. apply elem_of_app. right. left.
    + intros (i & [Hi | ->%list_elem_of_singleton]%elem_of_app & Hid & Hk).
      * left. by exists i.
      * by right.
  - split; [done|]. intros id. rewrite Hiff. split.
    + intros (i & Hi & Hid & Hk). exists i. split; [|done]. apply elem_of_app. by left.
    + intros (i & [Hi | ->%list_elem_of_singleton]%elem_of_app & Hid & Hk); [|done].
      by exists i.
Qed.

(** X15.  On a reachable loader the keyword index and the catalog agree: an
    id is filed under a keyword exactly when some catalog entry with that id
    has the keyword, and no id is filed twice under one keyword. *)
Theorem keywordIndex_matches_catalog (st : Loader) (kw : string) :
  reachable st →
  NoDup (default [] (keywordIndex st !! kw))
  ∧ ∀ id, id ∈ default [] (keywordIndex st !! kw)
          ↔ ∃ item, item ∈ allItems st ∧ item_id item = id ∧ kw ∈ item_keywords item.
Proof.
  intros Hst. revert kw.
  apply (reachable_invariant
           (fun st => ∀ kw, NoDup (default [] (keywordIndex st !! kw))
              ∧ ∀ id, id ∈ default [] (keywordIndex st !! kw)
                      ↔ ∃ item, item ∈ allItems st ∧ item_id item = id
                                ∧ kw ∈ item_keywords item)); [..|done].
  - intros s s' _ _ _ _ -> ->. done.
  - intros kw. simpl. rewrite lookup_empty. split; [constructor|].
    intros id. split; [by intros ?%elem_of_nil|]. by intros (i & ?%elem_of_nil & _).
  - intros s x. by apply (keywordIndex_step s _ (propertyItem x)).
  - intros s x. by apply (keywordIndex_step s _ (methodItem x)).
  - intros s x. by apply (keywordIndex_step s _ (parameterItem x)).
  - intros s x. by apply (keywordIndex_step s _ (snippetItem x)).
Qed.

Lemma keywordIndex_matches_catalog_witness :
  NoDup (default [] (keywordIndex Example.loaded !! "synth"))
  ∧ ∀ id, id ∈ default [] (keywordIndex Example.loaded !! "synth")
          ↔ ∃ item, item ∈ allItems Example.loaded ∧ item_id item = id
                    ∧ "synth" ∈ item_keywords item.
Proof.
  apply (keywordIndex_matches_catalog Example.loaded "synth"). apply reachable_example.
Defined.

Lemma hasKey_step st st' item :
  allItems st' = allItems st ++ [item] →
  (∀ domain k, hasKey st' domain k
               ↔ hasKey st domain k ∨ (domain = item_domain item ∧ k = item_id item)) →
  (∀ i, i ∈ allItems st → hasKey st (item_domain i) (item_id i))
  ∧ (∀ domain k, hasKey st domain k →
                 ∃ i, i ∈ allItems st ∧ item_domain i = domain ∧ item_id i = k) →
  (∀ i, i ∈ allItems st' → hasKey st' (item_domain i) (item_id i))
  ∧ (∀ domain k, hasKey st' domain k →
                 ∃ i, i ∈ allItems st' ∧ item_domain i = domain ∧ item_id i = k).
Proof.
  intros Hitems Hkey [H1 H2]. rewrite Hitems. split.
  - intros i [Hi | ->%list_elem_of_singleton]%elem_of_app; apply Hkey; [left|by right].
    by apply H1.
  - intros domain k [Hk | [-> ->]]%Hkey.
    + destruct (H2 _ _ Hk) as (i & Hi & Hd & Hid). exists i.
      split; [|done]. apply elem_of_app. by left.
    + exists item. split; [|done]. apply elem_of_app. right. left.
Qed.

(** Every catalog entry has its id as a key of the dictionary of its domain,
    and every key of a dictionary is the id of an entry of that domain. *)
Lemma reachable_hasKey (st : Loader) :
  reachable st →
  (∀ item, item ∈ allItems st → hasKey st (item_domain item) (item_id item))
  ∧ (∀ domain k, hasKey st domain k →
                 ∃ item, item ∈ allItems st ∧ item_domain item = domain ∧ item_id item = k).
Proof.
  apply (reachable_invariant
           (fun st =>
              (∀ item, item ∈ allItems st → hasKey st (item_domain item) (item_id item))
              ∧ (∀ domain k, hasKey st domain k →
                   ∃ item, item ∈ allItems st ∧ item_domain item = domain
                           ∧ item_id item = k))).
  - intros s s' Hu Ha Hm Hs _ Hi. unfold hasKey. rewrite Hu, Ha, Hm, Hs, Hi. done.
  - split; [by intros i ?%elem_of_nil|].
    intros domain k. unfold hasKey. simpl. rewrite !lookup_empty.
    destruct domain; intros H; try done; by destruct H.
  - intros s x. apply (hasKey_step s _ (propertyItem x)); [done|].
    intros domain k. unfold hasKey. simpl.
    destruct domain; try (split; [by left|by intros [?|[? ?]]]).
    rewrite lookup_insert_is_Some'. split; [intros [<-|?]; auto|intros [?|[_ ->]]; auto].
  - intros s x. apply (hasKey_step s _ (methodItem x)); [done|].
    intros domain k. unfold hasKey. simpl.
    destruct domain; try (split; [by left|by intros [?|[? ?]]]).
    rewrite lookup_insert_is_Some'. split; [intros [<-|?]; auto|intros [?|[_ ->]]; auto].
  - intros s x. apply (hasKey_step s _ (parameterItem x)); [done|].
    intros domain k. unfold hasKey. simpl.
    destruct domain; try (split; [by left|by intros [?|[? ?]]]).
    rewrite lookup_insert_is_Some'. split; [intros [<-|?]; auto|intros [?|[_ ->]]; auto].
  - intros s x. apply (hasKey_step s _ (snippetItem x)); [done|].
    intros domain k. unfold hasKey. simpl.
    destruct domain; try (split; [by left|by intros [?|[? ?]]]).
    rewrite lookup_insert_is_Some'. split; [intros [<-|?]; auto|intros [?|[_ ->]]; auto].
Qed.


Lemma exactStage_hit st domain normalized :
  (exactStage st domain normalized).1 ≠ []
  ↔ ∃ d, inDomain domain d = true ∧ hasKey st d normalized.
Proof.
  destruct (exactStage_shape st domain normalized)
    as (oa & ou & om & os & -> & -> & -> & -> & -> & _).
  split.
  - intros H.
    destruct (inDomain domain D_api) eqn:Ea;
      [destruct (apiMethodIndex st !! normalized) as [m|] eqn:Ha;
         [exists D_api; split; [done|]; simpl; by rewrite Ha|]|];
      (destruct (inDomain domain D_ui) eqn:Eu;
         [destruct (propertyIndex st !! normalized) as [p|] eqn:Hu;
            [exists D_ui; split; [done|]; simpl; by rewrite Hu|]|]);
      (destruct (inDomain domain D_modules) eqn:Em;
         [destruct (parameterIndex st !! normalized) as [q|] eqn:Hm;
            [exists D_modules; split; [done|]; simpl; by rewrite Hm|]|]);
      (destruct (inDomain domain D_snippets) eqn:Es;
         [destruct (snippetIndex st !! normalized) as [c|] eqn:Hs;
            [exists D_snippets; split; [done|]; simpl; by rewrite Hs|]|]);
      done.
  - intros (d & Hd & Hk) E.
    apply app_eq_nil in E as [Ea E]. apply app_eq_nil in E as [Eu E].
    apply app_eq_nil in E as [Em Es].
    destruct d; simpl in Hk; try done; rewrite Hd in *; destruct Hk as [x Hx];
      rewrite Hx in *; done.
Qed.

(** X16.  On a reachable loader the dictionaries and the catalog agree:
    every catalog entry has its id as a key of the dictionary of its domain,
    and every key of a dictionary is the id of a catalog entry of that
    domain.  So the exact stage of [search] finds something exactly when the
    searched part of the catalog has an entry with the normalised query as
    id. *)
Theorem dictionaries_match_catalog (st : Loader) (domain : SearchDomain)
    (normalized : string) :
  reachable st →
  (∀ item, item ∈ allItems st → hasKey st (item_domain item) (item_id item))
  ∧ (∀ k, hasKey st domain k →
          ∃ item, item ∈ allItems st ∧ item_domain item = domain ∧ item_id item = k)
  ∧ ((exactStage st domain normalized).1 ≠ []
     ↔ ∃ item, item ∈ itemsToSearch st domain ∧ item_id item = normalized).
Proof.
  intros [H1 H2]%reachable_hasKey. split; [done|]. split; [by apply H2|].
  rewrite exactStage_hit. split.
  - intros (d & Hd & (item & Hitem & <- & <-)%H2). exists item. split; [|done].
    unfold itemsToSearch. case_bool_decide as Hall; [done|].
    apply list_elem_of_In, filter_In. split; [by apply list_elem_of_In|].
    apply bool_decide_eq_true. by rewrite (inDomain_eq _ _ Hall Hd).
  - intros (item & [Hitem Hdom]%itemsToSearch_elem & <-).
    exists (item_domain item). split; [|by apply H1].
    unfold inDomain. destruct (decide (domain = D_all)) as [->|Hne]; [done|].
    rewrite (bool_decide_eq_true_2 (domain = item_domain item)) by (symmetry; by apply Hdom).
    by rewrite orb_true_r.
Qed.

Lemma dictionaries_match_catalog_witness :
  (∀ item, item ∈ allItems Example.withSnippets →
           hasKey Example.withSnippets (item_domain item) (item_id item))
  ∧ (∀ k, hasKey Example.withSnippets D_snippets k →
          ∃ item, item ∈ allItems Example.withSnippets
                  ∧ item_domain item = D_snippets ∧ item_id item = k)
  ∧ ((exactStage Example.withSnippets D_snippets "trigger-melody").1 ≠ []
     ↔ ∃ item, item ∈ itemsToSearch Example.withSnippets D_snippets
               ∧ item_id item = "trigger-melody").
Proof.
  apply (dictionaries_match_catalog Example.withSnippets D_snippets "trigger-melody").
  apply reach_snippets. apply reachable_example.
Defined.
(** ** The cache round trip *)

Lemma loadCache_same_files fs fs2 st :
  cacheFile fs2 = cacheFile fs → (∀ f, statMtime fs2 f = statMtime fs f) →
  loadCache fs2 st = loadCache fs st.
Proof.
  intros Hc Hm. unfold loadCache, getFileMtime. by rewrite Hc, !Hm.
Qed.

(** X17.  After a first start that wrote the cache file, a second start on
    the same directory, with the source files untouched, gets the same loader
    from the cache file alone: whatever the source files hold now, they are
    not read, and the directory is left as it is. *)
Theorem cache_round_trip (fs fs' fs2 : Env) (st' : Loader) :
  loadData fs newLoader = Returns (fs', st') →
  cacheWritable fs = true →
  cacheFile fs2 = cacheFile fs' →
  (∀ f, statMtime fs2 f = statMtime fs f) →
  loadCache fs2 newLoader = (st', true)
  ∧ loadData fs2 newLoader = Returns (fs2, st').
Proof.
  intros Hload Hw Hc Hm.
  assert (H : loadCache fs2 newLoader = (st', true)); [|unfold loadData; by rewrite H].
  unfold loadData in Hload. destruct (loadCache fs newLoader) as [s b] eqn:E.
  destruct b.
  - injection Hload as <- <-. by rewrite (loadCache_same_files fs fs2).
  - apply loadCache_false_inv in E as ->. unfold rebuild in Hload.
    destruct (uiSource fs) as [ui|]; [|done].
    destruct (apiSource fs) as [api|]; [|done].
    destruct (procSource fs) as [proc|]; [|done].
    injection Hload as <- <-. unfold saveCache in Hc. rewrite Hw in Hc. cbn [cacheFile] in Hc.
    destruct (buildIndexes_fields
                {| uiComponentProperties := ui; scriptingAPI := api;
                   moduleParameters := proc; codeSnippets := [] |} newLoader) as (D & _).
    unfold loadCache. rewrite Hc. cbn [version uiMtime apiMtime procMtime snap_data].
    unfold getFileMtime. rewrite !Hm, !bool_decide_eq_true_2 by done.
    cbn [negb orb]. by rewrite D.
Qed.

Lemma cache_round_trip_witness :
  loadCache Example.fsAfterLoad newLoader = (Example.loaded, true)
  ∧ loadData Example.fsAfterLoad newLoader = Returns (Example.fsAfterLoad, Example.loaded).
Proof.
  apply (cache_round_trip Example.fs Example.fsAfterLoad Example.fsAfterLoad Example.loaded).
  - apply loadData_example.
  - reflexivity.
  - reflexivity.
  - intros f. reflexivity.
Defined.
(** ** The snippet tools *)

Lemma find_None {A : Type} (p : A → bool) (l : list A) :
  find p l = None ↔ ∀ x, x ∈ l → p x = false.
Proof.
  induction l as [|y l IH]; simpl.
  { split; [by intros _ x ?%elem_of_nil|done]. }
  destruct (p y) eqn:E.
  - split; [done|]. intros H. rewrite H in E; [done|left].
  - rewrite IH. split.
    + intros H x [-> | Hx]%elem_of_cons; [done|by apply H].
    + intros H x Hx. apply H. by right.
Qed.

Lemma snippetMatches_id id s : snip_id s = id → snippetMatches id s = true.
Proof. intros <-. unfold snippetMatches. by rewrite String.eqb_refl. Qed.

Lemma includes_refl s : includes s s = true.
Proof.
  assert (H : startsWith s s = true).
  { induction s as [|c s IH]; [done|]. simpl. by rewrite Ascii.eqb_refl. }
  destruct s; simpl in *; by rewrite ?H.
Qed.

Lemma snippetMatches_includes id s :
  snippetMatches id s
  = includes (snip_id s) id || includes (toLowerCase (title s)) (toLowerCase id).
Proof.
  unfold snippetMatches. destruct (String.eqb_spec (snip_id s) id) as [->|]; [|done].
  by rewrite includes_refl.
Qed.

Lemma getSnippet_unfold fs st id :
  getSnippet fs st id
  = (ensureSnippetsLoaded fs st,
     match data (ensureSnippetsLoaded fs st) with
     | None => None
     | Some d =>
         match snippetIndex (ensureSnippetsLoaded fs st) !! id with
         | Some direct => Some direct
         | None => find (snippetMatches id) (codeSnippets d)
         end
     end).
Proof. done. Qed.

Lemma getSnippetTool_first fs st id :
  (getSnippetTool fs st id).1 = ensureSnippetsLoaded fs st.
Proof.
  unfold getSnippetTool, getSnippetEnriched. rewrite getSnippet_unfold.
  pose proof (ensureSnippetsLoaded_idem fs st) as Hidem.
  set (st' := ensureSnippetsLoaded fs st) in *.
  destruct (data st'); [destruct (snippetIndex st' !! id); [done|];
                        destruct (find _ _); [done|]|];
    unfold listSnippets; rewrite Hidem; by destruct (_ <? _)%nat.
Qed.


(** X19.  On a reachable loader, what [getSnippet] returns is one of the
    loaded snippets, and its id or its title (in any letter case) contains
    the requested id; a snippet whose id is the requested one takes
    precedence over partial matches once the snippets are indexed; and
    [getSnippet] returns nothing exactly when no loaded snippet contains the
    requested id in that way. *)
Theorem getSnippet_sound_complete (fs : Env) (st : Loader) (id : string) (d : HISEData) :
  reachable st →
  data (getSnippet fs st id).1 = Some d →
  (∀ s, (getSnippet fs st id).2 = Some s →
        s ∈ codeSnippets d
        ∧ snippetMatches id s = true
        ∧ (snippetsLoaded (getSnippet fs st id).1 = true →
           (∃ s0, s0 ∈ codeSnippets d ∧ snip_id s0 = id) → snip_id s = id))
  ∧ ((getSnippet fs st id).2 = None
     ↔ ∀ s, s ∈ codeSnippets d → snippetMatches id s = false).
Proof.
  intros Hst. rewrite getSnippet_unfold. cbn [fst snd].
  set (st' := ensureSnippetsLoaded fs st). intros Hd. rewrite Hd.
  assert (Hst' : reachable st') by by apply reach_snippets.
  pose proof (reachable_indexesOf st' d Hst' Hd) as E.
  destruct (indexesOf_fields d (snippetsLoaded st')) as (_ & _ & _ & _ & _ & _ & S).
  rewrite <- E in S. rewrite S.
  destruct (snippetsLoaded st') eqn:Hl.
  - destruct (findLast _ (codeSnippets d)) as [direct|] eqn:Hlast.
    + apply findLast_Some in Hlast as [Hin Hid%String.eqb_eq]. split.
      * intros s [= <-]. split; [done|]. split; [by apply snippetMatches_id|done].
      * split; [done|]. intros H. specialize (H direct Hin).
        by rewrite snippetMatches_id in H.
    + rewrite findLast_None in Hlast. split.
      * intros s [Hin Hm]%find_Some. split; [done|]. split; [done|].
        intros _ (s0 & Hs0 & Hid). specialize (Hlast s0 Hs0).
        by rewrite Hid, String.eqb_refl in Hlast.
      * apply find_None.
  - split.
    + intros s [Hin Hm]%find_Some. done.
    + apply find_None.
Qed.

Lemma getSnippet_sound_complete_witness :
  (∀ s, (getSnippet Example.fs Example.loaded "melody").2 = Some s →
        s ∈ codeSnippets
              {| uiComponentProperties := [Example.filmstripImage];
                 scriptingAPI := [Example.addNoteOn; Example.synthesiserReset;
                                  Example.getSampleRate];
                 moduleParameters := [Example.gain];
                 codeSnippets := [Example.triggerMelody] |}
        ∧ snippetMatches "melody" s = true
        ∧ (snippetsLoaded (getSnippet Example.fs Example.loaded "melody").1 = true →
           (∃ s0, s0 ∈ codeSnippets
                         {| uiComponentProperties := [Example.filmstripImage];
                            scriptingAPI := [Example.addNoteOn; Example.synthesiserReset;
                                             Example.getSampleRate];
                            moduleParameters := [Example.gain];
                            codeSnippets := [Example.triggerMelody] |}
                  ∧ snip_id s0 = "melody") → snip_id s = "melody"))
  ∧ ((getSnippet Example.fs Example.loaded "melody").2 = None
     ↔ ∀ s, s ∈ codeSnippets
                  {| uiComponentProperties := [Example.filmstripImage];
                     scriptingAPI := [Example.addNoteOn; Example.synthesiserReset;
                                      Example.getSampleRate];
                     moduleParameters := [Example.gain];
                     codeSnippets := [Example.triggerMelody] |} →
            snippetMatches "melody" s = false).
Proof.
  apply (getSnippet_sound_complete Example.fs Example.loaded "melody").
  - apply reachable_example.
  - vm_compute. reflexivity.
Defined.

Lemma filter_filter_andb {A : Type} (p q : A → bool) (l : list A) :
  List.filter p (List.filter q l) = List.filter (fun x => q x && p x) l.
Proof.
  induction l as [|x l IH]; [done|]. simpl.
  destruct (q x); simpl; [destruct (p x)|]; by rewrite IH.
Qed.

Lemma filter_sublist {A : Type} (p : A → bool) (l : list A) : List.filter p l `sublist_of` l.
Proof.
  induction l as [|x l IH]; [done|]. simpl.
  destruct (p x); [by apply sublist_skip|by apply sublist_cons].
Qed.

Lemma filter_true {A : Type} (p : A → bool) (l : list A) :
  (∀ x, p x = true) → List.filter p l = l.
Proof.
  intros H. induction l as [|x l IH]; [done|]. simpl. by rewrite H, IH.
Qed.

(** X20.  [listSnippetsFiltered] returns, in the order of [listSnippets],
    the summaries of the snippets that pass every filter that is given: the
    category up to letter case, the difficulty as it is written, and at least
    one tag in common up to letter case.  A missing filter, an empty string
    and an empty tag list do not filter, and without options the result is
    that of [listSnippets]. *)
Theorem listSnippetsFiltered_filters (fs : Env) (st : Loader) (options : option SnippetFilter) :
  (listSnippetsFiltered fs st options).1 = (listSnippets fs st).1
  ∧ (listSnippetsFiltered fs st options).2 `sublist_of` (listSnippets fs st).2
  ∧ (listSnippetsFiltered fs st options).2
    = summaryOf <$>
        List.filter (fun s => keepCategory (options ≫= by_category) s
                              && keepDifficulty (options ≫= by_difficulty) s
                              && keepTags (options ≫= by_tags) s)
          (default [] (codeSnippets <$> data (ensureSnippetsLoaded fs st)))
  ∧ (givenString (options ≫= by_category) = None →
     givenString (options ≫= by_difficulty) = None →
     givenTags (options ≫= by_tags) = None →
     listSnippetsFiltered fs st options = listSnippets fs st)
  ∧ listSnippetsFiltered fs st None = listSnippets fs st.
Proof.
  unfold listSnippetsFiltered, listSnippets. cbn [fst snd].
  set (st' := ensureSnippetsLoaded fs st).
  assert (Hnone : ∀ c f t,
    givenString c = None → givenString f = None → givenTags t = None →
    ∀ l, List.filter (keepTags t)
           (List.filter (keepDifficulty f) (List.filter (keepCategory c) l))
         = l).
  { intros c f t Hc Hf Ht l.
    rewrite !filter_true; [done|intros x; unfold keepCategory; by rewrite Hc
                           |intros x; unfold keepDifficulty; by rewrite Hf
                           |intros x; unfold keepTags; by rewrite Ht]. }
  destruct (data st') as [d|]; cbn [default fmap option_fmap option_map].
  - split; [done|]. split; [|split; [|split]].
    + apply fmap_sublist. etrans; [apply filter_sublist|].
      etrans; [apply filter_sublist|]. apply filter_sublist.
    + by rewrite (filter_filter_andb (keepDifficulty (options ≫= by_difficulty))
                    (keepCategory (options ≫= by_category))), filter_filter_andb.
    + intros Hc Hf Ht. by rewrite Hnone.
    + by rewrite Hnone.
  - done.
Qed.
(** ** The listing tools *)

Lemma code_inj a b : JsString.code a = JsString.code b → a = b.
Proof.
  unfold JsString.code. intros H.
  by rewrite <- (ascii_N_embedding a), <- (ascii_N_embedding b), H.
Qed.

Lemma stringLtb_irrefl a : stringLtb a a = false.
Proof.
  induction a as [|x a IH]; [done|]. simpl.
  by rewrite N.ltb_irrefl, N.eqb_refl, IH.
Qed.

Lemma stringLtb_trans a b c :
  stringLtb a b = true → stringLtb b c = true → stringLtb a c = true.
Proof.
  revert b c. induction a as [|x a IH]; intros [|y b] [|z c]; simpl; try done.
  rewrite !orb_true_iff, !andb_true_iff, !N.ltb_lt, !N.eqb_eq.
  intros [Hxy | [Hxy Hab]] [Hyz | [Hyz Hbc]].
  - left. lia.
  - left. lia.
  - left. lia.
  - right. split; [lia|]. by eapply IH.
Qed.

Lemma stringLtb_total a b :
  stringLtb a b = false → a ≠ b → stringLtb b a = true.
Proof.
  revert b. induction a as [|x a IH]; intros [|y b]; simpl; try done.
  rewrite orb_false_iff, orb_true_iff, andb_false_iff, andb_true_iff,
    !N.ltb_lt, N.ltb_ge, N.eqb_neq, N.eqb_eq.
  intros [Hle H] Hne.
  destruct (N.eq_dec (JsString.code x) (JsString.code y)) as [E|E]; [|left; lia].
  right. split; [done|]. destruct H as [?|H]; [done|].
  apply IH; [done|]. intros ->. apply Hne. by rewrite (code_inj _ _ E).
Qed.

Lemma insertString_elem x y l : x ∈ insertString y l ↔ x = y ∨ x ∈ l.
Proof.
  induction l as [|z l IH]; simpl.
  - rewrite list_elem_of_singleton, elem_of_nil. tauto.
  - destruct (stringLtb y z); rewrite !elem_of_cons, ?IH; tauto.
Qed.

Lemma insertString_sorted x l :
  x ∉ l → ascending l → ascending (insertString x l).
Proof.
  induction l as [|y l IH]; simpl; intros Hx Hl; [done|].
  destruct Hl as [Hy Hl].
  apply not_elem_of_cons in Hx as [Hne Hx].
  destruct (stringLtb x y) eqn:E.
  - split; [|done]. constructor; [done|].
    eapply Forall_impl; [exact Hy|]. intros z Hz. by eapply stringLtb_trans.
  - split; [|by apply IH].
    apply Forall_forall. intros z [-> | Hz]%insertString_elem.
    + by apply stringLtb_total.
    + rewrite Forall_forall in Hy. by apply Hy.
Qed.

Lemma sortStrings_elem x l : x ∈ sortStrings l ↔ x ∈ l.
Proof.
  induction l as [|y l IH]; simpl; [done|].
  rewrite insertString_elem, elem_of_cons, IH. done.
Qed.

Lemma sortStrings_sorted l : NoDup l → ascending (sortStrings l).
Proof.
  induction 1 as [|x l Hx Hl IH]; simpl; [done|].
  apply insertString_sorted; [|done]. by rewrite sortStrings_elem.
Qed.

Lemma ascending_NoDup l : ascending l → NoDup l.
Proof.
  induction l as [|x l IH]; simpl; [constructor|]. intros [Hx Hl].
  constructor; [|by apply IH].
  intros Hin. rewrite Forall_forall in Hx. specialize (Hx x Hin).
  by rewrite stringLtb_irrefl in Hx.
Qed.

Lemma distinct_spec l :
  NoDup (distinct l) ∧ ∀ x, x ∈ distinct l ↔ x ∈ l.
Proof.
  unfold distinct.
  assert (H : ∀ init, NoDup init →
    NoDup (foldl (fun s x => setAdd x s) init l)
    ∧ ∀ x, x ∈ foldl (fun s x => setAdd x s) init l ↔ x ∈ init ∨ x ∈ l).
  { induction l as [|y l IH]; intros init Hinit; simpl.
    - split; [done|]. intros x. rewrite elem_of_nil. tauto.
    - destruct (IH (setAdd y init) (setAdd_NoDup _ _ Hinit)) as [Hnd Hel].
      split; [done|]. intros x. rewrite Hel, setAdd_elem, elem_of_cons. tauto. }
  destruct (H [] (NoDup_nil_2)) as [Hnd Hel]. split; [done|].
  intros x. rewrite Hel, elem_of_nil. tauto.
Qed.

Lemma sorted_distinct l :
  ascending (sortStrings (distinct l))
  ∧ NoDup (sortStrings (distinct l))
  ∧ ∀ x, x ∈ sortStrings (distinct l) ↔ x ∈ l.
Proof.
  destruct (distinct_spec l) as [Hnd Hel].
  pose proof (sortStrings_sorted _ Hnd) as Hs. split; [done|].
  split; [by apply ascending_NoDup|].
  intros x. by rewrite sortStrings_elem, Hel.
Qed.

(** X21.  The tools [list_ui_components], [list_scripting_namespaces] and
    [list_module_types] list every component type, namespace and module type
    of the data exactly once, in strictly ascending order of code units; the
    lists are empty while no data is loaded. *)
Theorem listing_tools_sorted (st : Loader) :
  (ascending (listUiComponents st)
   ∧ NoDup (listUiComponents st)
   ∧ ∀ x, x ∈ listUiComponents st
          ↔ ∃ d p, data st = Some d ∧ p ∈ uiComponentProperties d ∧ componentType p = x)
  ∧ (ascending (listScriptingNamespaces st)
     ∧ NoDup (listScriptingNamespaces st)
     ∧ ∀ x, x ∈ listScriptingNamespaces st
            ↔ ∃ d m, data st = Some d ∧ m ∈ scriptingAPI d ∧ namespace m = x)
  ∧ (ascending (listModuleTypes st)
     ∧ NoDup (listModuleTypes st)
     ∧ ∀ x, x ∈ listModuleTypes st
            ↔ ∃ d p, data st = Some d ∧ p ∈ moduleParameters d ∧ moduleType p = x)
  ∧ (data st = None →
     listUiComponents st = [] ∧ listScriptingNamespaces st = [] ∧ listModuleTypes st = []).
Proof.
  unfold listUiComponents, listScriptingNamespaces, listModuleTypes.
  destruct (data st) as [d|]; cbn [default fmap option_fmap option_map].
  - split; [|split; [|split; [|done]]].
    + destruct (sorted_distinct (componentType <$> uiComponentProperties d)) as (S & N & E).
      split; [done|]. split; [done|]. intros x. rewrite E, list_elem_of_fmap. split.
      * intros (p & -> & Hp). by exists d, p.
      * intros (d' & p & [= <-] & Hp & <-). by exists p.
    + destruct (sorted_distinct (namespace <$> scriptingAPI d)) as (S & N & E).
      split; [done|]. split; [done|]. intros x. rewrite E, list_elem_of_fmap. split.
      * intros (p & -> & Hp). by exists d, p.
      * intros (d' & p & [= <-] & Hp & <-). by exists p.
    + destruct (sorted_distinct (moduleType <$> moduleParameters d)) as (S & N & E).
      split; [done|]. split; [done|]. intros x. rewrite E, list_elem_of_fmap. split.
      * intros (p & -> & Hp). by exists d, p.
      * intros (d' & p & [= <-] & Hp & <-). by exists p.
  - simpl. repeat split; try constructor; try (by intros ?%elem_of_nil);
      by intros (? & ? & ? & _).
Qed.
(** ** The exact query tools *)

(** Outside the snippets, the id of a catalog entry is its display name in
    lower case. *)
Lemma reachable_item_ids st :
  reachable st →
  ∀ item, item ∈ allItems st → item_domain item ≠ D_snippets →
          item_id item = toLowerCase (item_name item).
Proof.
  apply (reachable_invariant
           (fun st => ∀ item, item ∈ allItems st → item_domain item ≠ D_snippets →
                              item_id item = toLowerCase (item_name item))).
  - intros s s' _ _ _ _ _ ->. done.
  - by intros item ?%elem_of_nil.
  - intros s x H item [Hi | ->%list_elem_of_singleton]%elem_of_app; [by apply H|done].
  - intros s x H item [Hi | ->%list_elem_of_singleton]%elem_of_app; [by apply H|done].
  - intros s x H item [Hi | ->%list_elem_of_singleton]%elem_of_app; [by apply H|done].
  - intros s x H item [Hi | ->%list_elem_of_singleton]%elem_of_app; [by apply H|done].
Qed.

(** The names [findSimilar] returns are display names of catalog entries of
    the domain that score above 0.3. *)
Lemma findSimilar_names fs st query limit domain name :
  name ∈ (findSimilar fs st query limit domain).2 →
  ∃ item, item ∈ allItems (findSimilar fs st query limit domain).1
          ∧ outsideDomain domain item = false
          ∧ Qle_bool (similarityOf (normalizeQuery query) item) 0.3 = false
          ∧ name = item_name item.
Proof.
  unfold findSimilar. cbn [fst snd].
  set (st' := if wantsSnippets domain then ensureSnippetsLoaded fs st else st).
  intros (r & -> & Hr)%list_elem_of_fmap.
  eapply elem_of_sublist in Hr; [|apply slice0_sublist].
  rewrite sortByScore_perm in Hr. revert Hr. unfold similarCandidates.
  rewrite (foldl_push_filter (outsideDomain domain)
             (fun item => negb (Qle_bool (similarityOf (normalizeQuery query) item) 0.3))
             (fun item => {| sc_id := item_name item;
                             sc_score := similarityOf (normalizeQuery query) item |})).
  rewrite app_nil_l. intros (item & -> & Hitem)%list_elem_of_fmap.
  rewrite list_elem_of_In, !filter_In, <- list_elem_of_In in Hitem.
  destruct Hitem as [[Hin Hd%negb_true_iff] Hs%negb_true_iff]. by exists item.
Qed.

Lemma findSimilar_length fs st query limit domain :
  0 <= limit → Z.of_nat (length (findSimilar fs st query limit domain).2) <= limit.
Proof.
  intros H. unfold findSimilar. cbn [snd]. rewrite length_fmap. by apply slice0_length.
Qed.

Lemma outsideDomain_false domain item :
  domain ≠ D_all → outsideDomain (Some domain) item = false → item_domain item = domain.
Proof.
  unfold outsideDomain. intros Hd. rewrite bool_decide_eq_false_2 by done. simpl.
  by intros ?%negb_false_iff%bool_decide_eq_true.
Qed.

Lemma calculateSimilarity_not_exact query id name keywords :
  id ≠ query → name ≠ query →
  calculateSimilarity query id name keywords ∈ [0%Q; 0.4%Q; 0.5%Q; 0.6%Q; 0.8%Q].
Proof.
  intros H1%String.eqb_neq H2%String.eqb_neq. unfold calculateSimilarity.
  rewrite foldl_upgrade, foldl_upgrade_nested, H1, H2. cbn [orb].
  destruct (startsWith id query || startsWith name query);
    destruct (includes id query || includes name query);
    destruct (existsb _ (split "." query));
    destruct (existsb _ (extractKeywords [query]));
    vm_compute; set_solver.
Qed.

(** What a query tool answers when the dictionary has no record. *)
Lemma answerQuery_miss {A : Type} fs st query domain :
  reachable st →
  domain ∈ [D_ui; D_api; D_modules] →
  ¬ hasKey st domain (normalizeQuery query) →
  (answerQuery (A := A) None fs st query domain).1 = st
  ∧ ((answerQuery (A := A) None fs st query domain).2 = NoRecordFound
     ∨ ∃ suggestions,
         (answerQuery (A := A) None fs st query domain).2 = DidYouMeanRecord suggestions
         ∧ (1 <= length suggestions <= 3)%nat
         ∧ Forall (fun name =>
                     toLowerCase name ≠ normalizeQuery query
                     ∧ ∃ item, item ∈ allItems st ∧ item_domain item = domain
                               ∧ item_name item = name
                               ∧ similarityOf (normalizeQuery query) item
                                 ∈ [0.4%Q; 0.5%Q; 0.6%Q; 0.8%Q])
                  suggestions).
Proof.
  intros Hst Hdomain Hmiss.
  assert (Hne : domain ≠ D_all ∧ domain ≠ D_snippets).
  { repeat (apply elem_of_cons in Hdomain as [-> | Hdomain]); try done.
    by apply elem_of_nil in Hdomain. }
  destruct Hne as [Hall Hsnip].
  assert (Hsame : (findSimilar fs st query 3 (Some domain)).1 = st).
  { unfold findSimilar. cbn [fst]. unfold wantsSnippets.
    by rewrite !bool_decide_eq_false_2 by congruence. }
  pose proof (findSimilar_length fs st query 3 (Some domain)) as Hlen.
  pose proof (fun name => findSimilar_names fs st query 3 (Some domain) name) as Hnames.
  rewrite Hsame in Hnames.
  unfold answerQuery. destruct (findSimilar fs st query 3 (Some domain)) as [st' suggestions].
  cbn [fst snd] in *. subst st'.
  destruct suggestions as [|name suggestions]; [by split; [|left]|].
  split; [done|]. right. exists (name :: suggestions).
  split; [done|]. split; [simpl in *; lia|].
  apply Forall_forall. intros x (item & Hitem & Hout & Hscore & ->)%Hnames.
  apply outsideDomain_false in Hout; [|done].
  assert (Hid : item_id item = toLowerCase (item_name item)).
  { apply (reachable_item_ids st); [done..|congruence]. }
  assert (Hnot : toLowerCase (item_name item) ≠ normalizeQuery query).
  { intros E. apply Hmiss. rewrite <- E, <- Hid, <- Hout.
    by apply (reachable_hasKey st). }
  split; [done|]. exists item. split; [done|]. split; [done|]. split; [done|].
  unfold similarityOf in *.
  pose proof (calculateSimilarity_not_exact (normalizeQuery query) (item_id item)
                (toLowerCase (item_name item)) (item_keywords item)) as Hv.
  assert (Hnot' : item_id item ≠ normalizeQuery query) by (by rewrite Hid).
  specialize (Hv Hnot' Hnot).
  apply elem_of_cons in Hv as [Hv | Hv]; [by rewrite Hv in Hscore|done].
Qed.


(** ** Exact hits come first *)

Lemma sortByScore_cons_max {A : Type} (sc : A → Q) x l :
  Forall (fun y => (sc y <= sc x)%Q) l →
  sortByScore sc (x :: l) = x :: sortByScore sc l.
Proof.
  intros H. cbn [sortByScore foldr]. fold (sortByScore sc l).
  assert (H' : Forall (fun y => (sc y <= sc x)%Q) (sortByScore sc l)).
  { by rewrite sortByScore_perm. }
  destruct (sortByScore sc l) as [|y l']; simpl; [done|].
  apply Forall_cons_1 in H' as [Hy _]. apply Qle_bool_iff in Hy. by rewrite Hy.
Qed.

Lemma sortByScore_app_max {A : Type} (sc : A → Q) (v : Q) top rest :
  Forall (fun x => sc x = v) top →
  Forall (fun y => (sc y <= v)%Q) rest →
  sortByScore sc (top ++ rest) = top ++ sortByScore sc rest.
Proof.
  intros Htop Hrest. induction Htop as [|x top Hx Htop IH]; [done|].
  cbn [app]. rewrite sortByScore_cons_max, IH; [done|].
  apply Forall_app. split.
  - eapply Forall_impl; [exact Htop|]. intros y ->. rewrite Hx. apply Qle_refl.
  - eapply Forall_impl; [exact Hrest|]. intros y Hy. by rewrite Hx.
Qed.

Lemma appended_tail items normalized a a' :
  appended items normalized a a' →
  ∃ l, a'.1 = a.1 ++ l ∧ Forall (fun r => matchType r ≠ M_exact) l.
Proof.
  intros H. induction H as [|a a' item s m _ (l & IH & Hl) _ _ Hs].
  - exists []. by rewrite app_nil_r.
  - exists (l ++ [resultOf item s m]). simpl. rewrite IH, app_assoc. split; [done|].
    apply Forall_app. split; [done|]. constructor; [|done].
    simpl. by intros ->.
Qed.

(** X23.  The exact hits always come first: what [search] returns is the
    list of the exact hits followed by results of the other match types, cut
    at the limit. *)
Theorem search_exact_hits_first (fs : Env) (st : Loader) (query : string)
    (domain : SearchDomain) (limit : Z) (results : list SearchResult) :
  0 <= limit →
  (search fs st query domain limit).2 = Returns results →
  ∃ others,
    results
    = take (Z.to_nat limit)
        ((exactStage (search fs st query domain limit).1 domain (normalizeQuery query)).1
         ++ others)
    ∧ Forall (fun r => matchType r ≠ M_exact) others
    ∧ Forall (fun r => matchType r = M_exact ∧ score r = 1.0%Q)
        (exactStage (search fs st query domain limit).1 domain (normalizeQuery query)).1.
Proof.
  intros Hlimit. rewrite search_unfold. cbn [fst snd].
  set (st' := if needsSnippets domain then ensureSnippetsLoaded fs st else st).
  assert (Hexact : Forall (fun r => matchType r = M_exact ∧ score r = 1.0%Q)
                     (exactStage st' domain (normalizeQuery query)).1).
  { apply Forall_forall. intros r Hr. by apply exactStage_results in Hr as (? & ? & _). }
  destruct (searchCollect st' (normalizeQuery query) domain limit)
    as [[point collected]| |] eqn:Hc; [|done..].
  intros [= <-].
  pose proof (searchCollect_scores _ _ _ _ _ _ Hc) as Hscores.
  destruct (searchCollect_appended _ _ _ _ _ _ Hc) as (a & Happ & <- & Hpoint).
  destruct (appended_tail _ _ _ _ Happ) as (l & Hl & Hothers).
  unfold finish. destruct point.
  - exists []. rewrite (Hpoint eq_refl), app_nil_r, slice0_nonneg by done. done.
  - exists (sortByScore score l). rewrite slice0_nonneg, Hl by done.
    rewrite (sortByScore_app_max score 1.0%Q).
    + split; [done|]. split; [by rewrite sortByScore_perm|done].
    + eapply Forall_impl; [exact Hexact|]. by intros r [_ ?].
    + rewrite Hl in Hscores. apply Forall_app in Hscores as [_ Hscores].
      eapply Forall_impl; [exact Hscores|]. intros r [_ Hr].
      eapply Qle_trans; [exact Hr|]. by vm_compute.
  - exists (sortByScore score l). rewrite slice0_nonneg, Hl by done.
    rewrite (sortByScore_app_max score 1.0%Q).
    + split; [done|]. split; [by rewrite sortByScore_perm|done].
    + eapply Forall_impl; [exact Hexact|]. by intros r [_ ?].
    + rewrite Hl in Hscores. apply Forall_app in Hscores as [_ Hscores].
      eapply Forall_impl; [exact Hscores|]. intros r [_ Hr].
      eapply Qle_trans; [exact Hr|]. by vm_compute.
  - exists (sortByScore score l). rewrite slice0_nonneg, Hl by done.
    rewrite (sortByScore_app_max score 1.0%Q).
    + split; [done|]. split; [by rewrite sortByScore_perm|done].
    + eapply Forall_impl; [exact Hexact|]. by intros r [_ ?].
    + rewrite Hl in Hscores. apply Forall_app in Hscores as [_ Hscores].
      eapply Forall_impl; [exact Hscores|]. intros r [_ Hr].
      eapply Qle_trans; [exact Hr|]. by vm_compute.
Qed.

Lemma search_exact_hits_first_witness :
  ∃ others,
    Example.returned (search Example.fs Example.loaded "Synth.addNoteOn" D_all 10).2
    = take (Z.to_nat 10)
        ((exactStage (search Example.fs Example.loaded "Synth.addNoteOn" D_all 10).1 D_all
            (normalizeQuery "Synth.addNoteOn")).1
         ++ others)
    ∧ Forall (fun r => matchType r ≠ M_exact) others
    ∧ Forall (fun r => matchType r = M_exact ∧ score r = 1.0%Q)
        (exactStage (search Example.fs Example.loaded "Synth.addNoteOn" D_all 10).1 D_all
           (normalizeQuery "Synth.addNoteOn")).1.
Proof.
  apply (search_exact_hits_first Example.fs Example.loaded "Synth.addNoteOn" D_all 10).
  - lia.
  - vm_compute. reflexivity.
Defined.
(** ** Loading the snippets leaves the other domains alone *)

Lemma forOf_filter {X S : Type} (body : S → X → S * bool) (keep : X → bool)
    (xs : list X) (s : S) :
  (∀ s x, keep x = false → body s x = (s, false)) →
  forOf body (List.filter keep xs) s = forOf body xs s.
Proof.
  intros H. revert s. induction xs as [|x xs IH]; intros s; [done|].
  cbn [List.filter forOf]. destruct (keep x) eqn:E.
  - cbn [forOf]. destruct (body s x) as [s' leave]. destruct leave; [done|apply IH].
  - rewrite (H s x E). apply IH.
Qed.

Section KnownIds.
Context (known : string → bool).

Lemma filter_mapIncrement itemId m :
  List.filter (fun e : string * Z => known e.1) (mapIncrement itemId m)
  = if known itemId then mapIncrement itemId (List.filter (fun e => known e.1) m)
    else List.filter (fun e => known e.1) m.
Proof.
  induction m as [|[k n] m IH]; cbn [mapIncrement List.filter fst].
  { by destruct (known itemId). }
  destruct (String.eqb_spec k itemId) as [->|Hne]; cbn [List.filter fst].
  - destruct (known itemId); [|done]. cbn [mapIncrement]. by rewrite String.eqb_refl.
  - rewrite IH. destruct (known k) eqn:Ek; [|done].
    destruct (known itemId); [|done]. cbn [mapIncrement].
    by rewrite (proj2 (String.eqb_neq _ _) Hne).
Qed.

Lemma filter_increments ids m :
  List.filter (fun e : string * Z => known e.1)
    (foldl (fun m itemId => mapIncrement itemId m) m ids)
  = foldl (fun m itemId => mapIncrement itemId m)
      (List.filter (fun e => known e.1) m) (List.filter known ids).
Proof.
  revert m. induction ids as [|id ids IH]; intros m; [done|].
  cbn [foldl List.filter]. rewrite IH, filter_mapIncrement.
  by destruct (known id).
Qed.

Lemma keywordMatches_default st queryKeywords init :
  foldl (fun m keyword =>
           match keywordIndex st !! keyword with
           | Some matches => foldl (fun m itemId => mapIncrement itemId m) m matches
           | None => m
           end) init queryKeywords
  = foldl (fun m keyword =>
             foldl (fun m itemId => mapIncrement itemId m) m
               (default [] (keywordIndex st !! keyword))) init queryKeywords.
Proof.
  revert init. induction queryKeywords as [|kw kws IH]; intros init; [done|].
  cbn [foldl]. rewrite IH. by destruct (keywordIndex st !! kw).
Qed.

(** Two loaders whose postings agree on the known ids count the same
    matches for them. *)
Lemma filter_keywordMatches st st' queryKeywords :
  (∀ kw, List.filter known (default [] (keywordIndex st' !! kw))
         = List.filter known (default [] (keywordIndex st !! kw))) →
  List.filter (fun e : string * Z => known e.1) (keywordMatches st' queryKeywords)
  = List.filter (fun e : string * Z => known e.1) (keywordMatches st queryKeywords).
Proof.
  intros H. unfold keywordMatches. rewrite !keywordMatches_default.
  assert (G : ∀ m m' : list (string * Z),
    List.filter (fun e => known e.1) m' = List.filter (fun e => known e.1) m →
    List.filter (fun e => known e.1)
      (foldl (fun m keyword =>
                foldl (fun m itemId => mapIncrement itemId m) m
                  (default [] (keywordIndex st' !! keyword))) m' queryKeywords)
    = List.filter (fun e => known e.1)
        (foldl (fun m keyword =>
                  foldl (fun m itemId => mapIncrement itemId m) m
                    (default [] (keywordIndex st !! keyword))) m queryKeywords)).
  { induction queryKeywords as [|kw kws IH]; intros m m' Hm; [done|].
    cbn [foldl]. apply IH. by rewrite !filter_increments, H, Hm. }
  by apply G.
Qed.
End KnownIds.

Lemma filter_setAdd (known : string → bool) x l :
  known x = false → List.filter known (setAdd x l) = List.filter known l.
Proof.
  intros H. unfold setAdd. case_bool_decide; [done|].
  rewrite List.filter_app. simpl. by rewrite H, app_nil_r.
Qed.

Lemma filter_postings_snippets (known : string → bool) snippets st kw :
  (∀ s, s ∈ snippets → known (snip_id s) = false) →
  List.filter known (default [] (keywordIndex (foldl indexSnippet st snippets) !! kw))
  = List.filter known (default [] (keywordIndex st !! kw)).
Proof.
  revert st. induction snippets as [|s snippets IH]; intros st H; [done|].
  cbn [foldl]. rewrite IH by (intros x Hx; apply H; by right).
  cbn [indexSnippet keywordIndex]. rewrite addToKeywordIndex_lookup.
  case_bool_decide; [|done]. apply filter_setAdd, H. left.
Qed.

Lemma keywordBody_unknown items nKeywords limit a entry :
  bool_decide (entry.1 ∈ item_id <$> items) = false →
  keywordBody items nKeywords limit a entry = (a, false).
Proof.
  intros H%bool_decide_eq_false. destruct entry as [itemId matchCount].
  unfold keywordBody. case_bool_decide; [done|].
  destruct (find _ items) as [item|] eqn:E; [|done].
  apply find_Some in E as [Hitem Hid%String.eqb_eq]. exfalso. apply H.
  simpl. rewrite <- Hid. apply list_elem_of_fmap. by exists item.
Qed.

Lemma itemsToSearch_app st st' domain extra :
  domain ≠ D_all →
  allItems st' = allItems st ++ extra →
  (∀ item, item ∈ extra → item_domain item ≠ domain) →
  itemsToSearch st' domain = itemsToSearch st domain.
Proof.
  intros Hd Hitems Hextra. unfold itemsToSearch.
  rewrite !bool_decide_eq_false_2 by done. rewrite Hitems, List.filter_app.
  assert (E : List.filter (fun item => bool_decide (item_domain item = domain)) extra = []).
  { clear Hitems. induction extra as [|x extra IH]; [done|]. cbn [List.filter].
    rewrite bool_decide_eq_false_2 by (apply Hextra; left).
    apply IH. intros y Hy. apply Hextra. by right. }
  by rewrite E, app_nil_r.
Qed.

Lemma exactStage_same st st' domain normalized :
  inDomain domain D_snippets = false →
  apiMethodIndex st' = apiMethodIndex st →
  propertyIndex st' = propertyIndex st →
  parameterIndex st' = parameterIndex st →
  exactStage st' domain normalized = exactStage st domain normalized.
Proof. intros Hs Ha Hu Hm. unfold exactStage. by rewrite Hs, Ha, Hu, Hm. Qed.

Lemma similarCandidates_app st st' normalized domain extra :
  allItems st' = allItems st ++ extra →
  (∀ item, item ∈ extra → outsideDomain domain item = true) →
  similarCandidates st' normalized domain = similarCandidates st normalized domain.
Proof.
  intros Hitems Hextra. unfold similarCandidates. rewrite Hitems, foldl_app.
  clear Hitems. induction extra as [|x extra IH] using rev_ind; [done|].
  rewrite foldl_app. cbn [foldl]. rewrite (Hextra x) by (apply elem_of_app; right; left).
  apply IH. intros y Hy. apply Hextra. apply elem_of_app. by left.
Qed.

(** What the lazy load adds: catalog entries of the snippet domain, and
    postings of their ids. *)
Lemma ensureSnippetsLoaded_adds fs st :
  ensureSnippetsLoaded fs st = st
  ∨ ∃ snippets,
      snippetSource fs = Some snippets
      ∧ snippetsLoaded st = false
      ∧ allItems (ensureSnippetsLoaded fs st) = allItems st ++ (snippetItem <$> snippets)
      ∧ ∀ (known : string → bool) kw,
          (∀ s, s ∈ snippets → known (snip_id s) = false) →
          List.filter known (default [] (keywordIndex (ensureSnippetsLoaded fs st) !! kw))
          = List.filter known (default [] (keywordIndex st !! kw)).
Proof.
  unfold ensureSnippetsLoaded.
  destruct (snippetsLoaded st) eqn:Hl; [by left|].
  destruct (data st) as [d|]; [|by left].
  destruct (snippetSource fs) as [snippets|]; [|by left].
  right. exists snippets. split; [done|]. split; [done|].
  cbn [allItems keywordIndex setSnippetsLoaded]. split.
  - by destruct (foldl_indexSnippet snippets
                   (setData (Some {| uiComponentProperties := uiComponentProperties d;
                                     scriptingAPI := scriptingAPI d;
                                     moduleParameters := moduleParameters d;
                                     codeSnippets := snippets |}) st))
      as (_ & _ & _ & _ & _ & -> & _).
  - intros known kw H. by rewrite filter_postings_snippets.
Qed.

(** X24.  Loading the snippets changes no answer in the domains api, ui and
    modules: [search], [findSimilar] and the exact queries give what they
    gave before, provided that no snippet of the source has the id of a
    catalog entry. *)
Theorem snippets_leave_other_domains (fs : Env) (st : Loader) (query : string)
    (domain : SearchDomain) (limit : Z) :
  domain ∈ [D_api; D_ui; D_modules] →
  (∀ snippets s item, snippetSource fs = Some snippets → s ∈ snippets →
                      item ∈ allItems st → item_id item ≠ snip_id s) →
  (search fs (ensureSnippetsLoaded fs st) query domain limit).2
  = (search fs st query domain limit).2
  ∧ (findSimilar fs (ensureSnippetsLoaded fs st) query limit (Some domain)).2
    = (findSimilar fs st query limit (Some domain)).2
  ∧ queryUIProperty (ensureSnippetsLoaded fs st) query = queryUIProperty st query
  ∧ queryScriptingAPI (ensureSnippetsLoaded fs st) query = queryScriptingAPI st query
  ∧ queryModuleParameter (ensureSnippetsLoaded fs st) query = queryModuleParameter st query.
Proof.
  intros Hdomain Hfresh.
  assert (Hd : domain ≠ D_all ∧ domain ≠ D_snippets).
  { repeat (apply elem_of_cons in Hdomain as [-> | Hdomain]); try done.
    by apply elem_of_nil in Hdomain. }
  destruct Hd as [Hall Hsnip].
  destruct (ensureSnippetsLoaded_dictionaries fs st) as (Ha & Hu & Hm).
  unfold queryUIProperty, queryScriptingAPI, queryModuleParameter. rewrite Ha, Hu, Hm.
  split; [|split; [|done]].
  - rewrite !search_unfold. cbn [snd].
    assert (Hn : needsSnippets domain = false).
    { unfold needsSnippets. by rewrite !bool_decide_eq_false_2. }
    rewrite Hn.
    destruct (ensureSnippetsLoaded_adds fs st) as [-> | (snippets & Hsrc & Hl & Hitems & Hpost)];
      [done|].
    set (st' := ensureSnippetsLoaded fs st) in *.
    assert (Hsearch : itemsToSearch st' domain = itemsToSearch st domain).
    { apply (itemsToSearch_app st st' domain (snippetItem <$> snippets)); [done..|].
      intros item (s & -> & _)%list_elem_of_fmap. simpl. congruence. }
    assert (Hexact : exactStage st' domain (normalizeQuery query)
                     = exactStage st domain (normalizeQuery query)).
    { apply exactStage_same; [|done..]. unfold inDomain.
      by rewrite !bool_decide_eq_false_2. }
    assert (Hkw : ∀ a, keywordStage st' (itemsToSearch st domain) (normalizeQuery query) limit a
                       = keywordStage st (itemsToSearch st domain) (normalizeQuery query)
                           limit a).
    { intros a. unfold keywordStage.
      set (known := fun id => bool_decide (id ∈ item_id <$> allItems st)).
      set (body := keywordBody _ _ _).
      assert (Hbody : ∀ s (x : string * Z), known x.1 = false → body s x = (s, false)).
      { intros s x Hx. apply keywordBody_unknown.
        apply bool_decide_eq_false. apply bool_decide_eq_false in Hx.
        intros (item & Hid & [Hitem _]%itemsToSearch_elem)%list_elem_of_fmap.
        apply Hx. apply list_elem_of_fmap. by exists item. }
      rewrite <- (forOf_filter body (fun e => known e.1)
                    (keywordMatches st' _)) by done.
      rewrite <- (forOf_filter body (fun e => known e.1)
                    (keywordMatches st _)) by done.
      f_equal. apply filter_keywordMatches. intros kw. apply Hpost.
      intros s Hs. apply bool_decide_eq_false.
      intros (item & Hid & Hitem)%list_elem_of_fmap.
      by apply (Hfresh snippets s item). }
    unfold searchCollect. rewrite Hsearch, Hexact.
    destruct (reached _ limit); [done|].
    destruct (prefixStage _ _ _ _) as [a2| |]; [|done..].
    destruct (reached a2 limit); [done|]. by rewrite Hkw.
  - unfold findSimilar. cbn [snd].
    assert (Hw : wantsSnippets (Some domain) = false).
    { unfold wantsSnippets. by rewrite !bool_decide_eq_false_2 by congruence. }
    rewrite Hw.
    destruct (ensureSnippetsLoaded_adds fs st) as [-> | (snippets & _ & _ & Hitems & _)];
      [done|].
    rewrite (similarCandidates_app st _ _ _ (snippetItem <$> snippets)); [done..|].
    intros item (s & -> & _)%list_elem_of_fmap. unfold outsideDomain. simpl.
    rewrite !bool_decide_eq_false_2 by congruence. done.
Qed.

Lemma snippets_leave_other_domains_witness :
  (search Example.fs (ensureSnippetsLoaded Example.fs Example.loaded) "synth" D_api 10).2
  = (search Example.fs Example.loaded "synth" D_api 10).2
  ∧ (findSimilar Example.fs (ensureSnippetsLoaded Example.fs Example.loaded) "synth" 10
       (Some D_api)).2
    = (findSimilar Example.fs Example.loaded "synth" 10 (Some D_api)).2
  ∧ queryUIProperty (ensureSnippetsLoaded Example.fs Example.loaded) "synth"
    = queryUIProperty Example.loaded "synth"
  ∧ queryScriptingAPI (ensureSnippetsLoaded Example.fs Example.loaded) "synth"
    = queryScriptingAPI Example.loaded "synth"
  ∧ queryModuleParameter (ensureSnippetsLoaded Example.fs Example.loaded) "synth"
    = queryModuleParameter Example.loaded "synth".
Proof.
  apply (snippets_leave_other_domains Example.fs Example.loaded "synth" D_api 10).
  - left.
  - intros snippets s item [= <-] ->%list_elem_of_singleton Hitem.
    vm_compute in Hitem.
    repeat (apply elem_of_cons in Hitem as [-> | Hitem]); [done..|].
    by apply elem_of_nil in Hitem.
Defined.
(** ** The lazy load happens once *)

(** X25.  Loading the snippets a second time changes nothing, so the calls
    that trigger the lazy load are repeatable: the same call on the loader
    that a call left gives the same answer and leaves the same loader. *)
Theorem lazy_load_idempotent (fs : Env) (st : Loader) (query : string)
    (domain : SearchDomain) (limit : Z) :
  ensureSnippetsLoaded fs (ensureSnippetsLoaded fs st) = ensureSnippetsLoaded fs st
  ∧ search fs (search fs st query domain limit).1 query domain limit
    = search fs st query domain limit
  ∧ findSimilar fs (findSimilar fs st query limit (Some domain)).1 query limit (Some domain)
    = findSimilar fs st query limit (Some domain)
  ∧ listSnippets fs (listSnippets fs st).1 = listSnippets fs st
  ∧ getSnippet fs (getSnippet fs st query).1 query = getSnippet fs st query
  ∧ getSnippetTool fs (getSnippetTool fs st query).1 query = getSnippetTool fs st query.
Proof.
  pose proof (ensureSnippetsLoaded_idem fs st) as H.
  split; [done|]. split; [|split; [|split; [|split]]].
  - rewrite !search_unfold. cbn [fst]. destruct (needsSnippets domain); [|done].
    by rewrite H.
  - unfold findSimilar. cbn [fst]. destruct (wantsSnippets (Some domain)); [|done].
    by rewrite H.
  - unfold listSnippets. cbn [fst]. by rewrite H.
  - rewrite !getSnippet_unfold. cbn [fst]. by rewrite H.
  - rewrite (getSnippetTool_first fs st query).
    unfold getSnippetTool, getSnippetEnriched. rewrite !getSnippet_unfold.
    unfold listSnippets. by rewrite !H.
Qed.
(** ** Wildcard queries are glob patterns *)

Section Glob.

Local Ltac plain_cases c H :=
  destruct c as [[] [] [] [] [] [] [] []]; try (vm_compute in H; discriminate H);
  reflexivity.

Lemma tokenize_plain c t :
  isPlain c = true →
  tokenize None (String c t) = consToken (TAtom (RChar c)) (tokenize None t).
Proof. intros H. plain_cases c H. Qed.

Lemma globTokens_plain c : isPlain c = true → globTokens c = [TAtom (RChar c)].
Proof. intros H. plain_cases c H. Qed.

Lemma globTerm_plain c : isPlain c = true → globTerm c = RChar c.
Proof. intros H. plain_cases c H. Qed.

Lemma isGlobChar_cases c :
  isGlobChar c = true → c = "*"%char ∨ c = "."%char ∨ isPlain c = true.
Proof.
  unfold isGlobChar. intros [[H | H%Ascii.eqb_eq]%orb_true_iff | H%Ascii.eqb_eq]%orb_true_iff;
    auto.
Qed.

(** The scanner reads a query of glob characters character by character. *)
Lemma tokenize_glob q rest :
  forallb isGlobChar (String.list_ascii_of_string q) = true →
  tokenize None (replaceAllChar "*" ".*" q +:+ rest)
  = foldr consToken (tokenize None rest)
      (String.list_ascii_of_string q ≫= globTokens).
Proof.
  induction q as [|c q IH]; [done|].
  cbn [String.list_ascii_of_string forallb]. intros [Hc Hq]%andb_true_iff.
  specialize (IH Hq).
  destruct (isGlobChar_cases c Hc) as [-> | [-> | Hp]].
  - change (replaceAllChar "*" ".*" (String "*" q) +:+ rest)
      with (String "." (String "*" (replaceAllChar "*" ".*" q +:+ rest))).
    cbn [tokenize]. by rewrite IH.
  - change (replaceAllChar "*" ".*" (String "." q) +:+ rest)
      with (String "." (replaceAllChar "*" ".*" q +:+ rest)).
    cbn [tokenize]. by rewrite IH.
  - assert (Hne : Ascii.eqb c "*" = false).
    { destruct (Ascii.eqb_spec c "*") as [->|]; [by vm_compute in Hp|done]. }
    assert (E : replaceAllChar "*" ".*" (String c q) +:+ rest
                = String c (replaceAllChar "*" ".*" q +:+ rest)).
    { cbn [replaceAllChar]. rewrite Hne. reflexivity. }
    rewrite E, tokenize_plain, IH by done.
    cbn [mbind list_bind mjoin list_join fmap list_fmap]. rewrite globTokens_plain by done.
    done.
Qed.

(** The parser pushes one term per character. *)
Lemma parse_glob q ts stack cur qs :
  forallb isGlobChar (String.list_ascii_of_string q) = true →
  ∃ qs',
    parse ((String.list_ascii_of_string q ≫= globTokens) ++ ts) stack cur qs
    = parse ts stack
        (Frame (alts cur) (rev (globTerm <$> String.list_ascii_of_string q) ++ terms cur))
        qs'.
Proof.
  revert cur qs. induction q as [|c q IH]; intros cur qs.
  { intros _. exists qs. by destruct cur. }
  cbn [String.list_ascii_of_string forallb]. intros [Hc Hq]%andb_true_iff.
  rewrite fmap_cons. cbn [rev]. rewrite <- app_assoc. cbn [app].
  destruct (isGlobChar_cases c Hc) as [-> | [-> | Hp]].
  - destruct (IH (Frame (alts cur) (RStar RAny :: terms cur)) QQuant Hq) as [qs' E].
    exists qs'. etrans; [|exact E]. reflexivity.
  - destruct (IH (Frame (alts cur) (RAny :: terms cur)) QAtom Hq) as [qs' E].
    exists qs'. etrans; [|exact E]. reflexivity.
  - destruct (IH (Frame (alts cur) (RChar c :: terms cur)) QAtom Hq) as [qs' E].
    exists qs'. rewrite globTerm_plain by done. etrans; [|exact E].
    cbn [mbind list_bind mjoin list_join fmap list_fmap].
    rewrite globTokens_plain by done. reflexivity.
Qed.

Lemma seqOf_rev ts tail :
  fold_left (fun acc r => RSeq r acc) (rev ts) tail = foldr RSeq tail ts.
Proof.
  revert tail. induction ts as [|t ts IH]; intros tail; [done|].
  cbn [rev foldr]. by rewrite fold_left_app, IH.
Qed.

Lemma RegExp_glob normalized :
  forallb isGlobChar (String.list_ascii_of_string normalized) = true →
  RegExp (wildcardPattern normalized) = Compiled (globRegex normalized).
Proof.
  intros H. unfold RegExp, wildcardPattern.
  change ("^" +:+ replaceAllChar "*" ".*" normalized +:+ "$")
    with (String "^" (replaceAllChar "*" ".*" normalized +:+ "$")).
  cbn [tokenize]. rewrite tokenize_glob by done.
  change (tokenize None "$") with (Compiled [TAssert REol]).
  assert (E : ∀ ts tail, foldr consToken (Compiled tail) ts = Compiled (ts ++ tail)).
  { induction ts as [|t ts IH]; intros tail; [done|]. simpl. by rewrite IH. }
  rewrite E. cbn [consToken parse pushTerm alts terms].
  change (pushTerm RBol (Frame [] [])) with (Frame [] [RBol]).
  destruct (parse_glob normalized [TAssert REol] [] (Frame [] [RBol]) QNone H) as [qs' ->].
  cbn [parse pushTerm alts terms closeFrame fold_left]. unfold seqOf, globRegex.
  cbn [fold_left]. rewrite fold_left_app. cbn [fold_left]. f_equal. f_equal.
  rewrite seqOf_rev. clear. induction (String.list_ascii_of_string normalized) as [|c l IH];
    [done|]. rewrite fmap_cons. cbn [foldr]. by rewrite IH.
Qed.

Local Ltac step := cbn -[sameCanonical isLineTerminator String.length star glob].

(** [.*] followed by [f] : [f] matches here, or after one more code unit
    that is no line terminator. *)
Lemma star_any_then (f : pos → list pos) (g : string → bool) n b s :
  (∀ b t, match f (b, t) with [] => false | _ => true end = g t) →
  (String.length s <= n)%nat →
  match star (rmatch RAny) n (b, s) ≫= f with [] => false | _ => true end
  = (fix skip (s : string) : bool :=
       g s || match s with
              | String c t => negb (isLineTerminator c) && skip t
              | EmptyString => false
              end) s.
Proof.
  intros Hf. revert n b. induction s as [|c s IH]; intros n b Hn.
  - destruct n; cbn [star mbind list_bind mjoin list_join fmap list_fmap rmatch oneChar snd
                       List.filter app];
      rewrite ?app_nil_r, <- (Hf b EmptyString), ?orb_false_r; by destruct (f (b, EmptyString)).
  - destruct n as [|n]; [simpl in Hn; lia|].
    cbn [star rmatch oneChar snd]. rewrite <- (Hf b (String c s)).
    destruct (negb (isLineTerminator c)) eqn:Ec; cbn [List.filter].
    + assert (Hs : shorter (b, String c s) (false, s) = true).
      { unfold shorter. simpl. apply Nat.ltb_lt. lia. }
      rewrite Hs. cbn [mbind list_bind mjoin list_join fmap list_fmap app].
      rewrite app_nil_r. cbn [andb].
      rewrite <- (IH n false) by (simpl in Hn; lia).
      destruct (f (b, String c s)); [done|]. done.
    + cbn [mbind list_bind mjoin list_join fmap list_fmap app andb].
      rewrite app_nil_r, orb_false_r. done.
Qed.

Lemma rmatch_glob q b s :
  forallb isGlobChar (String.list_ascii_of_string q) = true →
  match rmatch (foldr (fun c r => RSeq (globTerm c) r) (RSeq REol REmpty)
                  (String.list_ascii_of_string q)) (b, s)
  with [] => false | _ => true end
  = glob q s.
Proof.
  revert b s. induction q as [|c q IH]; intros b s.
  { intros _. by destruct s. }
  cbn [String.list_ascii_of_string forallb foldr]. intros [Hc Hq]%andb_true_iff.
  destruct (isGlobChar_cases c Hc) as [-> | [-> | Hp]].
  - change (globTerm "*") with (RStar RAny). cbn [rmatch snd glob].
    change (Ascii.eqb "*" "*") with true. cbn iota.
    apply star_any_then; [|lia]. intros b' t. by apply IH.
  - change (globTerm ".") with RAny. cbn [rmatch oneChar snd glob].
    change (Ascii.eqb "." "*") with false. change (Ascii.eqb "." ".") with true. cbn iota.
    destruct s as [|a s]; [done|]. unfold oneChar. cbn [snd].
    destruct (negb (isLineTerminator a)); [|reflexivity].
    cbn [mbind list_bind mjoin list_join fmap list_fmap app andb]. rewrite app_nil_r.
    by apply IH.
  - rewrite globTerm_plain by done. cbn [rmatch oneChar snd glob].
    assert (H1 : Ascii.eqb c "*" = false).
    { destruct (Ascii.eqb_spec c "*") as [->|]; [by vm_compute in Hp|done]. }
    assert (H2 : Ascii.eqb c "." = false).
    { destruct (Ascii.eqb_spec c ".") as [->|]; [by vm_compute in Hp|done]. }
    rewrite H1, H2. destruct s as [|a s]; [done|]. unfold oneChar. cbn [snd].
    destruct (sameCanonical c a); [|reflexivity].
    cbn [mbind list_bind mjoin list_join fmap list_fmap app andb]. rewrite app_nil_r.
    by apply IH.
Qed.
End Glob.

Lemma test_glob normalized s :
  forallb isGlobChar (String.list_ascii_of_string normalized) = true →
  test (globRegex normalized) s = glob normalized s.
Proof.
  intros H. unfold test, globRegex. rewrite synth_pattern_not_later, orb_false_r.
  unfold matchesAt. cbn [rmatch fst mbind list_bind mjoin list_join fmap list_fmap app].
  rewrite app_nil_r. by apply rmatch_glob.
Qed.

(** X26.  For a query made of [*], [.] and characters without a meaning in
    regular expressions (letters, digits, space, [_], [-] and so on), the
    wildcard pattern compiles, and its test is glob matching of the whole
    string: [*] stands for any run of code units without a line break, [.]
    for one code unit that is no line break, every other character for
    itself up to letter case.  So [search] returns for such a query, whatever
    the domain and the limit. *)
Theorem wildcard_is_glob (fs : Env) (st : Loader) (query : string)
    (domain : SearchDomain) (limit : Z) :
  forallb isGlobChar (String.list_ascii_of_string (normalizeQuery query)) = true →
  RegExp (wildcardPattern (normalizeQuery query))
  = Compiled (globRegex (normalizeQuery query))
  ∧ (∀ s, test (globRegex (normalizeQuery query)) s = glob (normalizeQuery query) s)
  ∧ ∃ results, (search fs st query domain limit).2 = Returns results.
Proof.
  intros H. pose proof (RegExp_glob _ H) as Hre. split; [done|]. split.
  - intros s. by apply test_glob.
  - rewrite search_unfold. cbn [snd].
    destruct (searchCollect_returns
                (if needsSnippets domain then ensureSnippetsLoaded fs st else st)
                (normalizeQuery query) domain limit) as (point & results & ->).
    + right. by eexists.
    + by eexists.
Qed.

Lemma wildcard_is_glob_witness :
  RegExp (wildcardPattern (normalizeQuery "Synth.add*"))
  = Compiled (globRegex (normalizeQuery "Synth.add*"))
  ∧ (∀ s, test (globRegex (normalizeQuery "Synth.add*")) s
          = glob (normalizeQuery "Synth.add*") s)
  ∧ ∃ results, (search Example.fs Example.loaded "Synth.add*" D_all 10).2 = Returns results.
Proof.
  apply (wildcard_is_glob Example.fs Example.loaded "Synth.add*" D_all 10).
  vm_compute. reflexivity.
Defined.

(** X27.  The wildcard stage in terms of glob matching.  For a query of glob
    characters, every result of match type "prefix" is made of a catalog
    entry of the searched domain whose id, or display name in lower case,
    the query matches as a glob pattern; and when fewer than [limit] results
    are returned, every such entry is among them.  A query without [*] has
    no result of that match type. *)
Theorem search_wildcard_results (fs : Env) (st : Loader) (query : string)
    (domain : SearchDomain) (limit : Z) (results : list SearchResult) :
  forallb isGlobChar (String.list_ascii_of_string (normalizeQuery query)) = true →
  (search fs st query domain limit).2 = Returns results →
  Forall (fun r =>
            matchType r = M_prefix →
            includes (normalizeQuery query) "*" = true
            ∧ ∃ item, item ∈ itemsToSearch (search fs st query domain limit).1 domain
                      ∧ r = resultOf item 0.9 M_prefix
                      ∧ glob (normalizeQuery query) (item_id item)
                        || glob (normalizeQuery query) (toLowerCase (item_name item)) = true)
         results
  ∧ (includes (normalizeQuery query) "*" = true →
     Z.of_nat (length results) < limit →
     Forall (fun item =>
               glob (normalizeQuery query) (item_id item)
               || glob (normalizeQuery query) (toLowerCase (item_name item)) = true →
               ∃ r, r ∈ results
                    ∧ (res_id r = item_id item
                       ∨ (matchType r = M_exact ∧ item_id item = normalizeQuery query)))
            (itemsToSearch (search fs st query domain limit).1 domain)).
Proof.
  intros Hglob Hs. pose proof (RegExp_glob _ Hglob) as Hre. split.
  - apply (search_Forall _ _ _ _ _ _ _ Hs). intros point collected Hc.
    apply (searchCollect_Forall _ _ _ _ _ _ _ Hc).
    + apply Forall_forall. intros r Hr.
      apply exactStage_results in Hr as (_ & -> & _). done.
    + intros item regex Hitem Hstar Hregex Htest _. split; [done|].
      exists item. split; [done|]. split; [done|].
      rewrite Hre in Hregex. injection Hregex as <-.
      by rewrite !test_glob in Htest.
    + done.
    + done.
  - intros Hstar Hlen. revert Hs. rewrite search_unfold. cbn [fst snd].
    set (st' := if needsSnippets domain then ensureSnippetsLoaded fs st else st).
    destruct (searchCollect st' (normalizeQuery query) domain limit)
      as [[point collected]| |] eqn:Hc; [|done..].
    intros [= <-]. apply finish_below in Hlen as [Hlen Hperm].
    destruct (searchCollect_complete _ _ _ _ _ _ Hc Hlen) as (a & <- & Happ & Hseen).
    apply Forall_forall. intros item Hitem Hmatch.
    destruct (appended_seen_results _ _ _ _ Happ (exactStage_seen_results _ _ _)
                (item_id item)) as (r & Hr & Hid).
    { apply Hseen; [done|]. right. exists (globRegex (normalizeQuery query)).
      split; [done|]. split; [done|]. by rewrite !test_glob. }
    exists r. split; [by rewrite Hperm|done].
Qed.

Lemma search_wildcard_results_witness :
  Forall (fun r =>
            matchType r = M_prefix →
            includes (normalizeQuery "Synth.*") "*" = true
            ∧ ∃ item, item ∈ itemsToSearch
                               (search Example.fs Example.loaded "Synth.*" D_api 10).1 D_api
                      ∧ r = resultOf item 0.9 M_prefix
                      ∧ glob (normalizeQuery "Synth.*") (item_id item)
                        || glob (normalizeQuery "Synth.*") (toLowerCase (item_name item))
                        = true)
         (Example.returned (search Example.fs Example.loaded "Synth.*" D_api 10).2)
  ∧ (includes (normalizeQuery "Synth.*") "*" = true →
     Z.of_nat (length (Example.returned
                         (search Example.fs Example.loaded "Synth.*" D_api 10).2)) < 10 →
     Forall (fun item =>
               glob (normalizeQuery "Synth.*") (item_id item)
               || glob (normalizeQuery "Synth.*") (toLowerCase (item_name item)) = true →
               ∃ r, r ∈ Example.returned
                          (search Example.fs Example.loaded "Synth.*" D_api 10).2
                    ∧ (res_id r = item_id item
                       ∨ (matchType r = M_exact ∧ item_id item = normalizeQuery "Synth.*")))
            (itemsToSearch (search Example.fs Example.loaded "Synth.*" D_api 10).1 D_api)).
Proof.
  apply (search_wildcard_results Example.fs Example.loaded "Synth.*" D_api 10).
  - vm_compute. reflexivity.
  - vm_compute. reflexivity.
Defined.
(** ** Failures of [loadData] *)


(** ** Declared references of a snippet *)

Lemma injectReferences_mono refs fixedScore related r :
  r ∈ related → r ∈ injectReferences refs fixedScore related.
Proof.
  unfold injectReferences. revert related.
  induction refs as [|ref refs IH]; intros related Hr; [done|].
  cbn [foldl]. apply IH. destruct (find _ related); [done|].
  apply elem_of_app. by left.
Qed.

Lemma injectReferences_covers refs fixedScore related ref :
  ref ∈ refs →
  ∃ r, r ∈ injectReferences refs fixedScore related
       ∧ toLowerCase (sc_id r) = toLowerCase ref.
Proof.
  revert related. induction refs as [|x refs IH]; intros related Href.
  { by apply elem_of_nil in Href. }
  apply elem_of_cons in Href as [-> | Href]; [|by apply IH].
  change (injectReferences (x :: refs) fixedScore related)
    with (injectReferences refs fixedScore
            match find (fun r => String.eqb (toLowerCase (sc_id r)) (toLowerCase x)) related with
            | Some _ => related
            | None => related ++ [ {| sc_id := x; sc_score := fixedScore |} ]
            end).
  destruct (find _ related) as [r0|] eqn:E.
  - apply find_Some in E as [Hin Heq%String.eqb_eq]. exists r0.
    split; [by apply injectReferences_mono|done].
  - exists {| sc_id := x; sc_score := fixedScore |}. split; [|done].
    apply injectReferences_mono, elem_of_app. right. left.
Qed.

(** X29.  For a snippet, every declared related API and component is among
    the candidates of [getRelatedItems], under the declared name or under a
    name that differs from it in letter case only; [getRelatedItems] returns
    [limit] names or all candidates, whichever is less; and when the limit
    does not cut, every declared reference is returned. *)
Theorem getRelatedItems_references (st : Loader) (id : string) (limit : Z) (item : Item)
    (snippet : CodeSnippet) :
  find (fun i => String.eqb (item_id i) (normalizeQuery id)) (allItems st) = Some item →
  item_domain item = D_snippets →
  snippetIndex st !! normalizeQuery id = Some snippet →
  0 <= limit →
  Forall (fun ref =>
            ∃ r, r ∈ relatedCandidates st (normalizeQuery id) item
                 ∧ toLowerCase (sc_id r) = toLowerCase ref)
         (relatedAPIs snippet ++ relatedComponents snippet)
  ∧ length (getRelatedItems st id limit)
    = Nat.min (Z.to_nat limit) (length (relatedCandidates st (normalizeQuery id) item))
  ∧ (Z.of_nat (length (relatedCandidates st (normalizeQuery id) item)) <= limit →
     Forall (fun ref =>
               ∃ name, name ∈ getRelatedItems st id limit
                       ∧ toLowerCase name = toLowerCase ref)
            (relatedAPIs snippet ++ relatedComponents snippet)).
Proof.
  intros Hfind Hdomain Hsnippet Hlimit.
  assert (Hrefs : Forall (fun ref =>
            ∃ r, r ∈ relatedCandidates st (normalizeQuery id) item
                 ∧ toLowerCase (sc_id r) = toLowerCase ref)
         (relatedAPIs snippet ++ relatedComponents snippet)).
  { unfold relatedCandidates. rewrite bool_decide_eq_true_2, Hsnippet by done.
    apply Forall_forall. intros ref [Href | Href]%elem_of_app.
    - destruct (injectReferences_covers _ 0.9
                  (relatedByKeywords st (normalizeQuery id) item) _ Href) as (r & Hr & E).
      exists r. split; [by apply injectReferences_mono|done].
    - by apply injectReferences_covers. }
  split; [done|].
  unfold getRelatedItems. rewrite Hfind, slice0_nonneg by done.
  split.
  - rewrite length_fmap, length_take.
    by rewrite (Permutation_length (sortByScore_perm sc_score _)).
  - intros Hall. rewrite take_ge
      by (rewrite (Permutation_length (sortByScore_perm sc_score _)); lia).
    eapply Forall_impl; [exact Hrefs|]. intros ref (r & Hr & E).
    exists (sc_id r). split; [|done]. apply list_elem_of_fmap. exists r.
    split; [done|]. by rewrite sortByScore_perm.
Qed.

Lemma getRelatedItems_references_witness :
  Forall (fun ref =>
            ∃ r, r ∈ relatedCandidates Example.withSnippets (normalizeQuery "trigger-melody")
                       (snippetItem Example.triggerMelody)
                 ∧ toLowerCase (sc_id r) = toLowerCase ref)
         (relatedAPIs Example.triggerMelody ++ relatedComponents Example.triggerMelody)
  ∧ length (getRelatedItems Example.withSnippets "trigger-melody" 5)
    = Nat.min (Z.to_nat 5)
        (length (relatedCandidates Example.withSnippets (normalizeQuery "trigger-melody")
                   (snippetItem Example.triggerMelody)))
  ∧ (Z.of_nat (length (relatedCandidates Example.withSnippets
                         (normalizeQuery "trigger-melody")
                         (snippetItem Example.triggerMelody))) <= 5 →
     Forall (fun ref =>
               ∃ name, name ∈ getRelatedItems Example.withSnippets "trigger-melody" 5
                       ∧ toLowerCase name = toLowerCase ref)
            (relatedAPIs Example.triggerMelody ++ relatedComponents Example.triggerMelody)).
Proof.
  apply (getRelatedItems_references Example.withSnippets "trigger-melody" 5
           (snippetItem Example.triggerMelody) Example.triggerMelody).
  - vm_compute. reflexivity.
  - reflexivity.
  - vm_compute. reflexivity.
  - lia.
Defined.
